(** * Event collections of drake/systems/framework/event_collection.h

    A shallow embedding of the homogeneous event collections
    ([EventCollection], [LeafEventCollection], [DiagramEventCollection]) and
    of the heterogeneous bundles ([CompositeEventCollection] and its two
    derived classes), over an explicit typed store: objects live at
    addresses, [unique_ptr] and raw pointers are (possibly null) addresses,
    and every member function is a store transformer with an explicit
    outcome (normal return, C++ exception, [DRAKE_DEMAND] abort, undefined
    behaviour). *)

From stdpp Require Import gmap list.
From Stdlib Require Import ZArith.

Local Open Scope Z_scope.

(** ** Machine integers *)

(** [static_cast<int>] of a [size_t] value: wrap-around into 32 bits, two's
    complement. *)
Definition static_cast_int (z : Z) : Z := (z + 2 ^ 31) mod 2 ^ 32 - 2 ^ 31.

(** An [int] converted to the [size_t] that sizes a [std::vector]: a negative
    count wraps to a size beyond [max_size()], which [std::vector] refuses. *)
Definition vector_size_of_int (n : Z) : option nat :=
  if decide (0 ≤ n) then Some (Z.to_nat n) else None.

(** ** Events (event.h) *)

(** Modelled from the spec: event.h is not part of the sources.  The
    trigger classification of an event is drawn from a small closed set, at
    minimum periodic, per-step and forced. *)
Inductive TriggerType := kForced | kPeriodic | kPerStep.

(** Modelled from the spec: an event of event.h carries its trigger
    classification and an optional attached data/payload and callback, both
    opaque here. *)
Record Event := mkEvent {
  get_trigger_type : TriggerType;
  get_event_data : option nat;
  get_callback : option nat
}.

Global Instance TriggerType_eq_dec : EqDecision TriggerType.
Proof. solve_decision. Defined.
Global Instance Event_eq_dec : EqDecision Event.
Proof. solve_decision. Defined.

(** Modelled from the spec: the constructor [EventType(TriggerType)] of
    event.h builds an event with that trigger and with no data and no
    callback attached. *)
Definition Event_ctor (t : TriggerType) : Event := mkEvent t None None.

(** ** The store *)

Abbreviation addr := nat (only parsing).

(** The two concrete classes derived from [EventCollection<EventType>], with
    their private data members.  A [std::unique_ptr] that owns an event, and
    a raw [const EventType*], are both the address of the event; a nullable
    pointer to a collection is an [option addr]. *)
Inductive EventCollection :=
| LeafEventCollection (owned_events_ : list addr) (events_ : list addr)
| DiagramEventCollection (subevent_collection_ : list (option addr))
                         (owned_subevent_collection_ : list (option addr)).

(** The heap of one instantiation [EventType]: the events of that type and
    the [EventCollection<EventType>] objects.  Pointers of different
    instantiations have different static types and never alias, so every
    event type has a heap of its own (see [Store] below). *)
Record Heap := mkHeap {
  event_objs : gmap addr Event;
  collections : gmap addr EventCollection
}.

Definition empty_heap : Heap := mkHeap ∅ ∅.

Definition set_collection (a : addr) (c : EventCollection) (h : Heap) : Heap :=
  mkHeap (event_objs h) (<[a := c]> (collections h)).

Definition set_event (a : addr) (e : Event) (h : Heap) : Heap :=
  mkHeap (<[a := e]> (event_objs h)) (collections h).

(** Destroying the event a [unique_ptr] holds (nothing for a null one). *)
Definition delete_event (a : addr) (h : Heap) : Heap :=
  mkHeap (delete a (event_objs h)) (collections h).

Definition release_event (p : option addr) (h : Heap) : Heap :=
  match p with Some a => delete_event a h | None => h end.

Definition delete_events (l : list addr) (h : Heap) : Heap :=
  mkHeap (foldr delete (event_objs h) l) (collections h).

(** ** Outcomes *)

Inductive exception := logic_error | bad_cast | length_error.

(** What a call does to a store of type [S]: it returns a value, throws an
    exception the caller can catch, aborts the process (a failed
    [DRAKE_DEMAND]), has undefined behaviour (a null or dangling pointer is
    dereferenced, an iterator is used after it was invalidated), or the
    recursion budget of the model is exhausted.  [Throw] and [Abort] carry
    the store as the callee leaves it. *)
Inductive Outcome (S A : Type) :=
| Ok (a : A) (s : S)
| Throw (e : exception) (s : S)
| Abort (s : S)
| Undefined
| OutOfFuel.
Arguments Ok {S A} a s.
Arguments Throw {S A} e s.
Arguments Abort {S A} s.
Arguments Undefined {S A}.
Arguments OutOfFuel {S A}.

Definition M (S A : Type) : Type := S → Outcome S A.

Definition ret {S A} (a : A) : M S A := λ s, Ok a s.

Definition bind {S A B} (m : M S A) (k : A → M S B) : M S B := λ s,
  match m s with
  | Ok a s' => k a s'
  | Throw e s' => Throw e s'
  | Abort s' => Abort s'
  | Undefined => Undefined
  | OutOfFuel => OutOfFuel
  end.

Notation "'let*' x ':=' m 'in' k" := (bind m (λ x, k))
  (at level 10, x name, m at level 100, k at level 200, only parsing).
Notation "m ;;; k" := (bind m (λ _, k))
  (at level 100, right associativity, only parsing).

Definition throw {S A} (e : exception) : M S A := λ s, Throw e s.
Definition undefined {S A} : M S A := λ _, Undefined.

(** Modelled from the spec: the macro [DRAKE_DEMAND] (drake_assert.h) is not
    part of the sources.  A failed demand is a fatal precondition violation:
    it terminates the process, it is not an exception. *)
Definition DRAKE_DEMAND {S} (condition : bool) : M S unit := λ s,
  if condition then Ok tt s else Abort s.

(** A range-[for] over a vector the body does not resize. *)
Fixpoint for_each {S A} (l : list A) (body : A → M S unit) : M S unit :=
  match l with
  | [] => ret tt
  | x :: l' => body x ;;; for_each l' body
  end.

(** A range-[for] whose body is [if (test) return true;], followed by
    [return false;]. *)
Fixpoint return_true_if_any {S A} (l : list A) (test : A → M S bool)
  : M S bool :=
  match l with
  | [] => ret false
  | x :: l' => let* b := test x in if b : bool then ret true else return_true_if_any l' test
  end.

(** ** Homogeneous collections *)

(** Allocation of a new collection object ([std::make_unique]). *)
Definition new_collection (c : EventCollection) : M Heap addr := λ h,
  let a := fresh (dom (collections h)) in Ok a (set_collection a c h).

(** Allocation of a new event object. *)
Definition new_event (e : Event) : M Heap addr := λ h,
  let a := fresh (dom (event_objs h)) in Ok a (set_event a e h).

(** Modelled from the spec: [Event::Clone] of event.h produces an
    independent copy, a new object with identical classification and
    payload. *)
Definition Clone (event : addr) : M Heap addr := λ h,
  match event_objs h !! event with
  | Some e => new_event e h
  | None => Undefined
  end.

(** [LeafEventCollection()] *)
Definition LeafEventCollection_ctor : M Heap addr :=
  new_collection (LeafEventCollection [] []).

(** [DiagramEventCollection(int num_subsystems)]: both vectors are sized,
    every slot is a null pointer. *)
Definition DiagramEventCollection_ctor (num_subsystems : Z) : M Heap addr :=
  match vector_size_of_int num_subsystems with
  | Some n => new_collection (DiagramEventCollection (replicate n None) (replicate n None))
  | None => throw length_error
  end.

(** [EventCollection::add_event], virtual.  The leaf appends the event to both
    vectors; the diagram throws, and the [unique_ptr] argument it received by
    value destroys the event. *)
Definition add_event (this : addr) (event : option addr) : M Heap unit := λ h,
  match collections h !! this with
  | Some (LeafEventCollection owned evs) =>
      (DRAKE_DEMAND (bool_decide (event ≠ None)) ;;;
       match event with
       | Some e => λ h, Ok tt (set_collection this
                     (LeafEventCollection (owned ++ [e]) (evs ++ [e])) h)
       | None => undefined
       end) h
  | Some (DiagramEventCollection _ _) => Throw logic_error (release_event event h)
  | None => Undefined
  end.

(** [DiagramEventCollection::num_subsystems] *)
Definition num_subsystems (this : addr) : M Heap Z := λ h,
  match collections h !! this with
  | Some (DiagramEventCollection subs _) => Ok (static_cast_int (Z.of_nat (length subs))) h
  | _ => Undefined
  end.

(** [LeafEventCollection::get_events] *)
Definition get_events (this : addr) : M Heap (list addr) := λ h,
  match collections h !! this with
  | Some (LeafEventCollection _ evs) => Ok evs h
  | _ => Undefined
  end.

(** [DiagramEventCollection::set_subevent_collection] *)
Definition set_subevent_collection (this : addr) (index : Z)
    (subevent_collection : option addr) : M Heap unit :=
  DRAKE_DEMAND (bool_decide (subevent_collection ≠ None)) ;;;
  let* n := num_subsystems this in
  DRAKE_DEMAND (bool_decide (0 ≤ index) && bool_decide (index < n)) ;;;
  λ h, match collections h !! this with
       | Some (DiagramEventCollection subs owned) =>
           Ok tt (set_collection this
             (DiagramEventCollection (<[Z.to_nat index := subevent_collection]> subs) owned) h)
       | _ => Undefined
       end.

(** [DiagramEventCollection::get_subevent_collection] and
    [get_mutable_subevent_collection]: the reference returned is the address
    stored in the slot; dereferencing a null slot is undefined. *)
Definition get_subevent_collection (this : addr) (index : Z) : M Heap addr :=
  let* n := num_subsystems this in
  DRAKE_DEMAND (bool_decide (0 ≤ index) && bool_decide (index < n)) ;;;
  λ h, match collections h !! this with
       | Some (DiagramEventCollection subs _) =>
           match subs !! Z.to_nat index with
           | Some (Some p) => Ok p h
           | _ => Undefined
           end
       | _ => Undefined
       end.

Definition get_mutable_subevent_collection := get_subevent_collection.

(** [~EventCollection], virtual: the members are destroyed, which destroys
    what the [unique_ptr]s among them own, and the object is gone.  Deleting
    an object that is not there is undefined. *)
Definition delete_collection (a : addr) (h : Heap) : Heap :=
  mkHeap (event_objs h) (delete a (collections h)).

Fixpoint destroy_collection (fuel : nat) (this : addr) (h : Heap)
  : Outcome Heap unit :=
  match fuel with
  | O => OutOfFuel
  | S fuel' =>
      match collections h !! this with
      | Some (LeafEventCollection owned _) =>
          Ok tt (delete_collection this (delete_events owned h))
      | Some (DiagramEventCollection _ owned) =>
          (for_each owned (λ p,
             match p with
             | Some q => destroy_collection fuel' q
             | None => ret tt
             end) ;;;
           λ h, Ok tt (delete_collection this h)) h
      | None => Undefined
      end
  end.

(** [DiagramEventCollection::set_and_own_subevent_collection]: the move
    assignment into the owning slot destroys the collection the slot owned
    before, if any. *)
Definition set_and_own_subevent_collection (fuel : nat) (this : addr)
    (index : Z) (subevent_collection : option addr) : M Heap unit :=
  DRAKE_DEMAND (bool_decide (subevent_collection ≠ None)) ;;;
  let* n := num_subsystems this in
  DRAKE_DEMAND (bool_decide (0 ≤ index) && bool_decide (index < n)) ;;;
  let* previous := (λ h,
    match collections h !! this with
    | Some (DiagramEventCollection subs owned) =>
        Ok (owned !! Z.to_nat index) (set_collection this
          (DiagramEventCollection subs (<[Z.to_nat index := subevent_collection]> owned)) h)
    | _ => Undefined
    end) in
  match previous with
  | Some (Some q) => destroy_collection fuel q
  | _ => ret tt
  end ;;;
  λ h, match collections h !! this with
       | Some (DiagramEventCollection subs owned) =>
           Ok tt (set_collection this
             (DiagramEventCollection (<[Z.to_nat index := subevent_collection]> subs) owned) h)
       | _ => Undefined
       end.

(** [EventCollection::Clear], virtual.  The leaf empties both vectors, which
    destroys the events it owns; the diagram clears every slot in order. *)
Fixpoint Clear (fuel : nat) (this : addr) (h : Heap) : Outcome Heap unit :=
  match fuel with
  | O => OutOfFuel
  | S fuel' =>
      match collections h !! this with
      | Some (LeafEventCollection owned _) =>
          Ok tt (set_collection this (LeafEventCollection [] []) (delete_events owned h))
      | Some (DiagramEventCollection subs _) =>
          for_each subs (λ subevent,
            match subevent with
            | Some p => Clear fuel' p
            | None => undefined
            end) h
      | None => Undefined
      end
  end.

(** [EventCollection::HasEvents], virtual. *)
Fixpoint HasEvents (fuel : nat) (this : addr) (h : Heap) : Outcome Heap bool :=
  match fuel with
  | O => OutOfFuel
  | S fuel' =>
      match collections h !! this with
      | Some (LeafEventCollection _ evs) => Ok (negb (bool_decide (evs = []))) h
      | Some (DiagramEventCollection subs _) =>
          return_true_if_any subs (λ subevent,
            match subevent with
            | Some p => HasEvents fuel' p
            | None => undefined
            end) h
      | None => Undefined
      end
  end.

(** [EventCollection::DoAddToEnd], virtual.

    The leaf casts [other] to a leaf ([std::bad_cast] otherwise) and adds a
    clone of each of its events; [other_events] is a reference to the other
    collection's vector, so when [other] is [this] itself the first
    [add_event] invalidates the iterators of the loop.

    The diagram casts [other] to a diagram, demands equal [num_subsystems()]
    and merges slot by slot.  No call made from the loop writes a diagram
    object, so the loop runs over the two vectors as read on entry; the
    index [i] is an [int] below [num_subsystems()], which never exceeds the
    size of the vector. *)
Fixpoint DoAddToEnd (fuel : nat) (this other : addr) (h : Heap)
  : Outcome Heap unit :=
  match fuel with
  | O => OutOfFuel
  | S fuel' =>
      match collections h !! this, collections h !! other with
      | Some (LeafEventCollection _ _), Some (LeafEventCollection _ other_events) =>
          for_each other_events (λ other_event,
            if decide (this = other) then undefined
            else (let* c := Clone other_event in add_event this (Some c))) h
      | Some (LeafEventCollection _ _), Some (DiagramEventCollection _ _) =>
          Throw bad_cast h
      | Some (DiagramEventCollection _ _), Some (LeafEventCollection _ _) =>
          Throw bad_cast h
      | Some (DiagramEventCollection subs _), Some (DiagramEventCollection other_subs _) =>
          let n := static_cast_int (Z.of_nat (length subs)) in
          let other_n := static_cast_int (Z.of_nat (length other_subs)) in
          (DRAKE_DEMAND (bool_decide (n = other_n)) ;;;
           for_each (seq 0 (Z.to_nat n)) (λ i,
             match subs !! i, other_subs !! i with
             | Some (Some p), Some (Some q) => DoAddToEnd fuel' p q
             | _, _ => undefined
             end)) h
      | _, _ => Undefined
      end
  end.

(** [EventCollection::AddToEnd] *)
Definition AddToEnd (fuel : nat) (this other : addr) : M Heap unit :=
  DoAddToEnd fuel this other.

(** [EventCollection::SetFrom] *)
Definition SetFrom (fuel : nat) (this other : addr) : M Heap unit :=
  Clear fuel this ;;; AddToEnd fuel this other.

(** [LeafEventCollection::MakeForcedEventCollection] *)
Definition MakeForcedEventCollection : M Heap addr :=
  let* r := LeafEventCollection_ctor in
  let* event := new_event (Event_ctor kForced) in
  add_event r (Some event) ;;;
  ret r.

(** ** Heterogeneous bundles *)

(** The three event types a bundle groups. *)
Inductive EventKind := PublishEvent | DiscreteUpdateEvent | UnrestrictedUpdateEvent.

Global Instance EventKind_eq_dec : EqDecision EventKind.
Proof. solve_decision. Defined.

(** The two classes derived from [CompositeEventCollection<T>]; the diagram
    one adds the vector of the child bundles it owns. *)
Inductive CompositeClass :=
| LeafCompositeEventCollection
| DiagramCompositeEventCollection (owned_subevent_collection_ : list (option addr)).

(** [CompositeEventCollection<T>]: its three [unique_ptr] members, which the
    constructor demands to be non-null. *)
Record CompositeEventCollection := mkComposite {
  publish_events_ : addr;
  discrete_update_events_ : addr;
  unrestricted_update_events_ : addr;
  derived_class : CompositeClass
}.

(** The whole store: one heap per event type, and the bundles. *)
Record Store := mkStore {
  publish_heap : Heap;
  discrete_update_heap : Heap;
  unrestricted_update_heap : Heap;
  composites : gmap addr CompositeEventCollection
}.

Definition empty_store : Store := mkStore empty_heap empty_heap empty_heap ∅.

Definition heap_of (k : EventKind) (s : Store) : Heap :=
  match k with
  | PublishEvent => publish_heap s
  | DiscreteUpdateEvent => discrete_update_heap s
  | UnrestrictedUpdateEvent => unrestricted_update_heap s
  end.

Definition set_heap (k : EventKind) (h : Heap) (s : Store) : Store :=
  match k with
  | PublishEvent =>
      mkStore h (discrete_update_heap s) (unrestricted_update_heap s) (composites s)
  | DiscreteUpdateEvent =>
      mkStore (publish_heap s) h (unrestricted_update_heap s) (composites s)
  | UnrestrictedUpdateEvent =>
      mkStore (publish_heap s) (discrete_update_heap s) h (composites s)
  end.

Definition set_composites (m : gmap addr CompositeEventCollection) (s : Store) : Store :=
  mkStore (publish_heap s) (discrete_update_heap s) (unrestricted_update_heap s) m.

(** A call on an [EventCollection<EventType>] runs on the heap of that event
    type. *)
Definition on_heap {A} (k : EventKind) (m : M Heap A) : M Store A := λ s,
  match m (heap_of k s) with
  | Ok a h => Ok a (set_heap k h s)
  | Throw e h => Throw e (set_heap k h s)
  | Abort h => Abort (set_heap k h s)
  | Undefined => Undefined
  | OutOfFuel => OutOfFuel
  end.

(** Dereferencing a pointer to a bundle. *)
Definition composite_at (this : addr) : M Store CompositeEventCollection := λ s,
  match composites s !! this with
  | Some c => Ok c s
  | None => Undefined
  end.

(** The member of a bundle that holds the events of kind [k]. *)
Definition events_member (k : EventKind) (c : CompositeEventCollection) : addr :=
  match k with
  | PublishEvent => publish_events_ c
  | DiscreteUpdateEvent => discrete_update_events_ c
  | UnrestrictedUpdateEvent => unrestricted_update_events_ c
  end.

(** [CompositeEventCollection::get_publish_events] and the five accessors
    like it: a reference to the collection the member points to. *)
Definition get_events_of_kind (k : EventKind) (this : addr) : M Store addr :=
  let* c := composite_at this in ret (events_member k c).

Definition get_publish_events := get_events_of_kind PublishEvent.
Definition get_discrete_update_events := get_events_of_kind DiscreteUpdateEvent.
Definition get_unrestricted_update_events := get_events_of_kind UnrestrictedUpdateEvent.
Definition get_mutable_publish_events := get_events_of_kind PublishEvent.
Definition get_mutable_discrete_update_events := get_events_of_kind DiscreteUpdateEvent.
Definition get_mutable_unrestricted_update_events :=
  get_events_of_kind UnrestrictedUpdateEvent.

(** [LeafCompositeEventCollection::get_publish_events] and its two siblings:
    the accessor of the base class, cast to a leaf collection. *)
Definition Leaf_get_events_of_kind (k : EventKind) (this : addr) : M Store addr :=
  let* events := get_events_of_kind k this in
  on_heap k (λ h,
    match collections h !! events with
    | Some (LeafEventCollection _ _) => Ok events h
    | Some (DiagramEventCollection _ _) => Throw bad_cast h
    | None => Undefined
    end).

Definition Leaf_get_publish_events := Leaf_get_events_of_kind PublishEvent.
Definition Leaf_get_discrete_update_events :=
  Leaf_get_events_of_kind DiscreteUpdateEvent.
Definition Leaf_get_unrestricted_update_events :=
  Leaf_get_events_of_kind UnrestrictedUpdateEvent.

(** [CompositeEventCollection::Clear] *)
Definition Composite_Clear (fuel : nat) (this : addr) : M Store unit :=
  let* c := composite_at this in
  on_heap PublishEvent (Clear fuel (publish_events_ c)) ;;;
  on_heap DiscreteUpdateEvent (Clear fuel (discrete_update_events_ c)) ;;;
  on_heap UnrestrictedUpdateEvent (Clear fuel (unrestricted_update_events_ c)).

(** [CompositeEventCollection::HasPublishEvents] and its two siblings. *)
Definition has_events_of_kind (k : EventKind) (fuel : nat) (this : addr) : M Store bool :=
  let* c := composite_at this in on_heap k (HasEvents fuel (events_member k c)).

Definition HasPublishEvents := has_events_of_kind PublishEvent.
Definition HasDiscreteUpdateEvents := has_events_of_kind DiscreteUpdateEvent.
Definition HasUnrestrictedUpdateEvents := has_events_of_kind UnrestrictedUpdateEvent.

(** [CompositeEventCollection::HasEvents]: a short-circuit disjunction. *)
Definition Composite_HasEvents (fuel : nat) (this : addr) : M Store bool :=
  let* c := composite_at this in
  let* b1 := on_heap PublishEvent (HasEvents fuel (publish_events_ c)) in
  if b1 : bool then ret true else
  let* b2 := on_heap DiscreteUpdateEvent (HasEvents fuel (discrete_update_events_ c)) in
  if b2 : bool then ret true else
  on_heap UnrestrictedUpdateEvent (HasEvents fuel (unrestricted_update_events_ c)).

(** [CompositeEventCollection::add_publish_event] and its two siblings: the
    event is demanded to be non-null, the member is cast to a leaf collection
    ([std::bad_cast] otherwise, and the argument destroys the event), and the
    event is added to it. *)
Definition add_event_of_kind (k : EventKind) (this : addr) (event : option addr)
  : M Store unit :=
  DRAKE_DEMAND (bool_decide (event ≠ None)) ;;;
  let* events := get_events_of_kind k this in
  on_heap k (λ h,
    match collections h !! events with
    | Some (LeafEventCollection _ _) => add_event events event h
    | Some (DiagramEventCollection _ _) => Throw bad_cast (release_event event h)
    | None => Undefined
    end).

Definition add_publish_event := add_event_of_kind PublishEvent.
Definition add_discrete_update_event := add_event_of_kind DiscreteUpdateEvent.
Definition add_unrestricted_update_event := add_event_of_kind UnrestrictedUpdateEvent.

(** [CompositeEventCollection::AddToEnd] *)
Definition Composite_AddToEnd (fuel : nat) (this other : addr) : M Store unit :=
  let* c := composite_at this in
  let* o := composite_at other in
  on_heap PublishEvent
    (AddToEnd fuel (publish_events_ c) (publish_events_ o)) ;;;
  on_heap DiscreteUpdateEvent
    (AddToEnd fuel (discrete_update_events_ c) (discrete_update_events_ o)) ;;;
  on_heap UnrestrictedUpdateEvent
    (AddToEnd fuel (unrestricted_update_events_ c) (unrestricted_update_events_ o)).

(** [CompositeEventCollection::SetFrom] *)
Definition Composite_SetFrom (fuel : nat) (this other : addr) : M Store unit :=
  let* c := composite_at this in
  let* o := composite_at other in
  on_heap PublishEvent
    (SetFrom fuel (publish_events_ c) (publish_events_ o)) ;;;
  on_heap DiscreteUpdateEvent
    (SetFrom fuel (discrete_update_events_ c) (discrete_update_events_ o)) ;;;
  on_heap UnrestrictedUpdateEvent
    (SetFrom fuel (unrestricted_update_events_ c) (unrestricted_update_events_ o)).

(** Allocation of a new bundle object. *)
Definition new_composite (c : CompositeEventCollection) : M Store addr := λ s,
  let a := fresh (dom (composites s)) in
  Ok a (set_composites (<[a := c]> (composites s)) s).

(** The protected constructor of [CompositeEventCollection]: it takes the
    three members and demands each of them to be non-null. *)
Definition CompositeEventCollection_ctor (pub discrete unrestricted : option addr)
    (derived : CompositeClass) : M Store addr :=
  DRAKE_DEMAND (bool_decide (pub ≠ None)) ;;;
  DRAKE_DEMAND (bool_decide (discrete ≠ None)) ;;;
  DRAKE_DEMAND (bool_decide (unrestricted ≠ None)) ;;;
  match pub, discrete, unrestricted with
  | Some p, Some d, Some u => new_composite (mkComposite p d u derived)
  | _, _, _ => undefined
  end.

(** [LeafCompositeEventCollection()] *)
Definition LeafCompositeEventCollection_ctor : M Store addr :=
  let* p := on_heap PublishEvent LeafEventCollection_ctor in
  let* d := on_heap DiscreteUpdateEvent LeafEventCollection_ctor in
  let* u := on_heap UnrestrictedUpdateEvent LeafEventCollection_ctor in
  CompositeEventCollection_ctor (Some p) (Some d) (Some u) LeafCompositeEventCollection.

(** [~CompositeEventCollection], virtual: the derived part goes first (the
    child bundles a diagram bundle owns), then the three members in reverse
    order of declaration. *)
Definition delete_composite (a : addr) : M Store unit := λ s,
  Ok tt (set_composites (delete a (composites s)) s).

Fixpoint destroy_composite (fuel : nat) (this : addr) (s : Store)
  : Outcome Store unit :=
  match fuel with
  | O => OutOfFuel
  | S fuel' =>
      match composites s !! this with
      | Some c =>
          (match derived_class c with
           | DiagramCompositeEventCollection owned =>
               for_each owned (λ p,
                 match p with
                 | Some q => destroy_composite fuel' q
                 | None => ret tt
                 end)
           | LeafCompositeEventCollection => ret tt
           end ;;;
           on_heap UnrestrictedUpdateEvent
             (destroy_collection fuel (unrestricted_update_events_ c)) ;;;
           on_heap DiscreteUpdateEvent
             (destroy_collection fuel (discrete_update_events_ c)) ;;;
           on_heap PublishEvent (destroy_collection fuel (publish_events_ c)) ;;;
           delete_composite this) s
      | None => Undefined
      end
  end.

(** The body of the loop of the [DiagramCompositeEventCollection]
    constructor, for one event type: slot [i] of the bundle's diagram
    collection is pointed at the collection of the same type inside child
    bundle [i].  A null child bundle is dereferenced. *)
Definition alias_slot (k : EventKind) (this : addr) (i : nat) (child : option addr)
  : M Store unit :=
  let* sub := get_events_of_kind k this in
  match child with
  | Some b =>
      let* target := get_events_of_kind k b in
      on_heap k (set_subevent_collection sub (static_cast_int (Z.of_nat i)) (Some target))
  | None => undefined
  end.

(** [DiagramCompositeEventCollection(subevents)]: three diagram collections
    of [subevents.size()] slots are made for the base class, the child
    bundles are taken over, and the loop aliases every slot.  When the size
    does not fit an [int] and the vector cannot be made, the exception leaves
    the constructor and the argument destroys the child bundles. *)
Definition DiagramCompositeEventCollection_ctor (fuel : nat)
    (subevents : list (option addr)) : M Store addr :=
  let size := static_cast_int (Z.of_nat (length subevents)) in
  match vector_size_of_int size with
  | None =>
      for_each subevents (λ p,
        match p with
        | Some q => destroy_composite fuel q
        | None => ret tt
        end) ;;;
      throw length_error
  | Some _ =>
      let* p := on_heap PublishEvent (DiagramEventCollection_ctor size) in
      let* d := on_heap DiscreteUpdateEvent (DiagramEventCollection_ctor size) in
      let* u := on_heap UnrestrictedUpdateEvent (DiagramEventCollection_ctor size) in
      let* this := CompositeEventCollection_ctor (Some p) (Some d) (Some u)
                     (DiagramCompositeEventCollection subevents) in
      for_each (imap pair subevents) (λ '(i, child),
        alias_slot PublishEvent this i child ;;;
        alias_slot DiscreteUpdateEvent this i child ;;;
        alias_slot UnrestrictedUpdateEvent this i child) ;;;
      ret this
  end.

(** [DiagramCompositeEventCollection::num_subsystems] *)
Definition Composite_num_subsystems (this : addr) : M Store Z :=
  let* c := composite_at this in
  match derived_class c with
  | DiagramCompositeEventCollection owned => ret (static_cast_int (Z.of_nat (length owned)))
  | LeafCompositeEventCollection => undefined
  end.

(** [DiagramCompositeEventCollection::get_subevent_collection] and
    [get_mutable_subevent_collection] *)
Definition Composite_get_subevent_collection (this : addr) (index : Z) : M Store addr :=
  let* n := Composite_num_subsystems this in
  DRAKE_DEMAND (bool_decide (0 ≤ index) && bool_decide (index < n)) ;;;
  let* c := composite_at this in
  match derived_class c with
  | DiagramCompositeEventCollection owned =>
      match owned !! Z.to_nat index with
      | Some (Some b) => ret b
      | _ => undefined
      end
  | LeafCompositeEventCollection => undefined
  end.

Definition Composite_get_mutable_subevent_collection := Composite_get_subevent_collection.

(** ** Populated diagram collections *)

(** A caller that makes a diagram collection of [num_subsystems] slots and then
    populates slot [i] with the [i]-th collection of [children], for every
    [i], through [set_subevent_collection]. *)
Definition populate (this : addr) (children : list addr) : M Heap unit :=
  for_each (imap pair children) (λ '(i, child),
    set_subevent_collection this (Z.of_nat i) (Some child)).

Definition make_populated (num_subsystems : Z) (children : list addr) : M Heap addr :=
  let* this := DiagramEventCollection_ctor num_subsystems in
  populate this children ;;;
  ret this.

(** Every slot reachable from [this] within [depth] levels is populated, and
    the collections form a hierarchy of at most that depth. *)
Fixpoint populated (depth : nat) (h : Heap) (this : addr) : Prop :=
  match depth with
  | O => False
  | S depth' =>
      match collections h !! this with
      | Some (LeafEventCollection _ _) => True
      | Some (DiagramEventCollection subs _) =>
          Forall (λ subevent,
            match subevent with
            | Some p => populated depth' h p
            | None => False
            end) subs
      | None => False
      end
  end.

(** [d] is [this] or one of the collections below it. *)
Inductive descendant (h : Heap) : addr → addr → Prop :=
| descendant_refl this : descendant h this this
| descendant_step this subs owned p d :
    collections h !! this = Some (DiagramEventCollection subs owned) →
    Some p ∈ subs →
    descendant h p d →
    descendant h this d.

(** ** Vocabulary of the statements *)

(** The call returned normally. *)
Definition returns {S A} (o : Outcome S A) : Prop := ∃ a s, o = Ok a s.

(** How a collection object may differ after collections were cleared: a leaf
    is as it was or empty, a diagram is as it was. *)
Definition emptied_cell (c c' : EventCollection) : Prop :=
  match c, c' with
  | LeafEventCollection owned evs, LeafEventCollection owned' evs' =>
      (owned' = owned ∧ evs' = evs) ∨ (owned' = [] ∧ evs' = [])
  | DiagramEventCollection subs owned, DiagramEventCollection subs' owned' =>
      subs' = subs ∧ owned' = owned
  | _, _ => False
  end.

Definition emptied (h h' : Heap) : Prop :=
  ∀ x, option_Forall2 emptied_cell (collections h !! x) (collections h' !! x).

(** Every event a leaf collection owns is a live object, no leaf owns an
    event twice, and no event is owned by two leaves. *)
Definition single_owner (h : Heap) : Prop :=
  (∀ a owned evs,
     collections h !! a = Some (LeafEventCollection owned evs) →
     NoDup owned ∧ Forall (λ e, is_Some (event_objs h !! e)) owned) ∧
  (∀ a b owned evs owned' evs' e,
     collections h !! a = Some (LeafEventCollection owned evs) →
     collections h !! b = Some (LeafEventCollection owned' evs') →
     e ∈ owned → e ∈ owned' → a = b).

(** Every diagram collection has a number of slots that fits an [int], as
    the constructor, which takes the number as an [int], makes it. *)
Definition cell_int_sized (c : EventCollection) : Prop :=
  match c with
  | DiagramEventCollection subs _ => Z.of_nat (length subs) < 2 ^ 31
  | LeafEventCollection _ _ => True
  end.

Global Instance cell_int_sized_dec (c : EventCollection) : Decision (cell_int_sized c).
Proof. destruct c; apply _. Defined.

Definition int_sized (h : Heap) : Prop :=
  map_Forall (λ _, cell_int_sized) (collections h).

(** *** What a collection holds *)

(** The events a collection gives access to, as values: the sequence of a
    leaf, and for a diagram the contents of its children, slot by slot. *)
#[local] Set Warnings "-register-all".
Inductive Contents :=
| LeafContents (events : list Event)
| DiagramContents (children : list Contents).

(** The contents of the hierarchy at [this], read through [events_] and
    [subevent_collection_], down to [depth] levels; [None] when a pointer on
    the way is null or dangling or the hierarchy is deeper. *)
Fixpoint contents (depth : nat) (h : Heap) (this : addr) : option Contents :=
  match depth with
  | O => None
  | S depth' =>
      match collections h !! this with
      | Some (LeafEventCollection _ evs) =>
          LeafContents <$> mapM (λ e, event_objs h !! e) evs
      | Some (DiagramEventCollection subs _) =>
          DiagramContents <$> mapM (λ subevent, subevent ≫= contents depth' h) subs
      | None => None
      end
  end.

(** The leaf collections of the hierarchy at [this], slot by slot. *)
Fixpoint leaves (depth : nat) (h : Heap) (this : addr) : list addr :=
  match depth with
  | O => []
  | S depth' =>
      match collections h !! this with
      | Some (LeafEventCollection _ _) => [this]
      | Some (DiagramEventCollection subs _) =>
          concat ((λ subevent, from_option (leaves depth' h) [] subevent) <$> subs)
      | None => []
      end
  end.

Definition zip_mapM {A B C} (f : A → B → option C)
  : list A → list B → option (list C) :=
  fix go l1 l2 :=
    match l1, l2 with
    | [], [] => Some []
    | x :: l1', y :: l2' =>
        match f x y, go l1' l2' with
        | Some z, Some l => Some (z :: l)
        | _, _ => None
        end
    | _, _ => None
    end.

(** The merge the specification describes, on contents: the sequence of a
    leaf followed by the sequence of the other leaf, and for two diagrams of
    the same number of children the merge of the children, slot by slot.
    Nothing is specified for a leaf against a diagram or for diagrams of
    different sizes. *)
Fixpoint merge_spec (t u : Contents) : option Contents :=
  match t, u with
  | LeafContents a, LeafContents b => Some (LeafContents (a ++ b))
  | DiagramContents ts, DiagramContents us =>
      DiagramContents <$> zip_mapM merge_spec ts us
  | _, _ => None
  end.

(** How the heap may differ after a merge into the leaves [F]: events were
    added and none was changed, the collections outside [F] are as they
    were, and those in [F] are still leaves. *)
Definition grown_on (F : list addr) (h h' : Heap) : Prop :=
  event_objs h ⊆ event_objs h' ∧
  (∀ x, x ∉ F → collections h' !! x = collections h !! x) ∧
  (∀ x, x ∈ F →
     ∃ owned evs owned' evs',
       collections h !! x = Some (LeafEventCollection owned evs) ∧
       collections h' !! x = Some (LeafEventCollection owned' evs')).

(** *** Diagram bundles under construction *)

(** The collection of kind [k] inside the bundle at [child], in the store
    [s]: what slot [i] of a diagram bundle is to point at. *)
Definition slot_target (s : Store) (k : EventKind) (child : addr) : addr :=
  from_option (events_member k) 0%nat (composites s !! child).

(** The store [s] with a new diagram bundle [c] at [this], whose three
    diagram collections have the slots [slots k] and own nothing. *)
Definition with_diagram_bundle (s : Store) (this : addr) (c : CompositeEventCollection)
    (owned : list (option addr)) (slots : EventKind → list (option addr)) : Store :=
  mkStore
    (set_collection (publish_events_ c)
       (DiagramEventCollection (slots PublishEvent) owned) (publish_heap s))
    (set_collection (discrete_update_events_ c)
       (DiagramEventCollection (slots DiscreteUpdateEvent) owned)
       (discrete_update_heap s))
    (set_collection (unrestricted_update_events_ c)
       (DiagramEventCollection (slots UnrestrictedUpdateEvent) owned)
       (unrestricted_update_heap s))
    (<[this := c]> (composites s)).

(** The slots after the first children, [pre], were aliased and [m] slots
    are still null. *)
Definition aliased_slots (s : Store) (pre : list addr) (m : nat) (k : EventKind)
  : list (option addr) :=
  ((λ child, Some (slot_target s k child)) <$> pre) ++ replicate m None.

(** ** Concrete scenarios *)

(** The store a sequence of calls leaves, when it returns. *)
Definition store_after {S A} (m : M S A) (s : S) : S :=
  match m s with
  | Ok _ s' => s'
  | _ => s
  end.

(** A heap with an empty leaf collection at 0 and, at 1, a leaf collection
    that holds one periodic event. *)
Definition two_leaves : Heap :=
  store_after
    (let* a := LeafEventCollection_ctor in
     let* b := LeafEventCollection_ctor in
     let* e := new_event (Event_ctor kPeriodic) in
     add_event b (Some e)) empty_heap.

(** A heap with four leaf collections, 0 to 3, that hold one event each, the
    diagram collection 4 over the leaves 0 and 1, and the diagram collection
    5 over the leaves 2 and 3. *)
Definition two_diagrams : Heap :=
  store_after
    (for_each [(kPeriodic, 1%nat); (kPerStep, 2%nat); (kForced, 3%nat); (kPeriodic, 4%nat)]
       (λ '(trigger, data),
          let* l := LeafEventCollection_ctor in
          let* e := new_event (mkEvent trigger (Some data) None) in
          add_event l (Some e)) ;;;
     make_populated 2 [0%nat; 1%nat] ;;;
     make_populated 2 [2%nat; 3%nat]) empty_heap.

(** A store with two leaf bundles, 0 and 1: the first has a publish event,
    the second a discrete update event. *)
Definition two_leaf_bundles : Store :=
  store_after
    (let* a := LeafCompositeEventCollection_ctor in
     let* b := LeafCompositeEventCollection_ctor in
     let* e := on_heap PublishEvent (new_event (Event_ctor kPeriodic)) in
     add_publish_event a (Some e) ;;;
     let* e' := on_heap DiscreteUpdateEvent (new_event (Event_ctor kPerStep)) in
     add_discrete_update_event b (Some e')) empty_store.


(** Two diagram collections of different sizes, built through the public
    interface: one with no slot, one with a single slot that is populated
    with an empty leaf collection; then the first is merged with the
    second. *)
Definition merge_of_different_sizes : M Heap unit :=
  let* a := DiagramEventCollection_ctor 0 in
  let* b := DiagramEventCollection_ctor 1 in
  let* l := LeafEventCollection_ctor in
  set_subevent_collection b 0 (Some l) ;;;
  AddToEnd 2 a b.

(** A store with a diagram bundle without children, at 0, and a publish
    event, at 0 in the heap of publish events. *)
Definition diagram_bundle_and_event : Store :=
  store_after
    (DiagramCompositeEventCollection_ctor 1 [] ;;;
     on_heap PublishEvent (new_event (Event_ctor kPeriodic))) empty_store.

(** A diagram bundle without children, and a publish event handed to its
    [add_publish_event]. *)
Definition add_publish_event_on_diagram_bundle : M Store unit :=
  let* bundle := DiagramCompositeEventCollection_ctor 1 [] in
  let* event := on_heap PublishEvent (new_event (Event_ctor kPeriodic)) in
  add_publish_event bundle (Some event).

(** The scenario of the specification: a diagram bundle over three leaf
    bundles, where child 0 gets the publish event [A] and child 2 the
    discrete update event [B]; a second diagram bundle of the same shape,
    where child 1 gets the publish event [C]; and the merge of the second
    into the first.  It returns the first bundle. *)
Definition event_A : Event := mkEvent kPeriodic (Some 1%nat) None.
Definition event_B : Event := mkEvent kPerStep (Some 2%nat) None.
Definition event_C : Event := mkEvent kForced (Some 3%nat) None.

Definition three_leaf_bundles : M Store (list addr) :=
  let* a := LeafCompositeEventCollection_ctor in
  let* b := LeafCompositeEventCollection_ctor in
  let* c := LeafCompositeEventCollection_ctor in
  ret [a; b; c].

Definition end_to_end_scenario : M Store addr :=
  let* first_children := three_leaf_bundles in
  let* first := DiagramCompositeEventCollection_ctor 2 (Some <$> first_children) in
  let* child0 := Composite_get_mutable_subevent_collection first 0 in
  let* a := on_heap PublishEvent (new_event event_A) in
  add_publish_event child0 (Some a) ;;;
  let* child2 := Composite_get_mutable_subevent_collection first 2 in
  let* b := on_heap DiscreteUpdateEvent (new_event event_B) in
  add_discrete_update_event child2 (Some b) ;;;
  let* second_children := three_leaf_bundles in
  let* second := DiagramCompositeEventCollection_ctor 2 (Some <$> second_children) in
  let* child1 := Composite_get_mutable_subevent_collection second 1 in
  let* c := on_heap PublishEvent (new_event event_C) in
  add_publish_event child1 (Some c) ;;;
  Composite_AddToEnd 3 first second ;;;
  ret first.

(** What the kind-[k] collection of child [i] of the diagram bundle [this]
    holds. *)
Definition child_contents (k : EventKind) (this : addr) (i : Z) (s : Store)
  : option Contents :=
  match (let* child := Composite_get_subevent_collection this i in
         Leaf_get_events_of_kind k child) s with
  | Ok events _ => contents 1 (heap_of k s) events
  | _ => None
  end.

(** ** Vocabulary of the further statements *)

(** The store an outcome carries, if any. *)
Definition state_of {S A} (o : Outcome S A) : option S :=
  match o with
  | Ok _ s | Throw _ s | Abort s => Some s
  | Undefined | OutOfFuel => None
  end.

(** A heap with a diagram collection of two slots at 2, over the leaf
    collections 0 (empty) and 1 (one periodic event), the first borrowed and
    the second owned. *)
Definition diagram_over_two_leaves : Heap :=
  store_after
    (let* d := DiagramEventCollection_ctor 2 in
     set_subevent_collection d 0 (Some 0%nat) ;;;
     set_and_own_subevent_collection 1 d 1 (Some 1%nat)) two_leaves.

(** A heap with the leaf collection 0, which holds two events, and the
    diagram collection 1 of one slot, which owns the leaf 0. *)
Definition diagram_owning_a_leaf : Heap :=
  store_after
    (let* l := LeafEventCollection_ctor in
     let* e1 := new_event (Event_ctor kPeriodic) in
     add_event l (Some e1) ;;;
     let* e2 := new_event (Event_ctor kPerStep) in
     add_event l (Some e2) ;;;
     let* d := DiagramEventCollection_ctor 1 in
     set_and_own_subevent_collection 1 d 0 (Some l) ;;;
     LeafEventCollection_ctor) empty_heap.

(** A heap with the empty leaf collection 0 and two events, 0 and 1, that
    no collection owns yet. *)
Definition leaf_and_two_events : Heap :=
  store_after
    (LeafEventCollection_ctor ;;;
     new_event (Event_ctor kPeriodic) ;;;
     new_event (Event_ctor kForced)) empty_heap.

(** Whether contents include an event at all. *)
Fixpoint holds_events (t : Contents) : bool :=
  match t with
  | LeafContents evs => match evs with [] => false | _ :: _ => true end
  | DiagramContents ts => existsb holds_events ts
  end.

(** How a collection object may differ after events were appended: a leaf
    has its former vectors as prefixes of the new ones, a diagram is as it
    was. *)
Definition appended_cell (c c' : EventCollection) : Prop :=
  match c, c' with
  | LeafEventCollection owned evs, LeafEventCollection owned' evs' =>
      owned `prefix_of` owned' ∧ evs `prefix_of` evs'
  | DiagramEventCollection subs owned, DiagramEventCollection subs' owned' =>
      subs' = subs ∧ owned' = owned
  | _, _ => False
  end.

(** Nothing but additions: every event object is still there, unchanged, and
    every collection is there, appended to or as it was; no collection was
    made or deleted. *)
Definition only_appended (h h' : Heap) : Prop :=
  event_objs h ⊆ event_objs h' ∧
  ∀ x, option_Forall2 appended_cell (collections h !! x) (collections h' !! x).

(** The outcome is an error raised to the caller. *)
Definition fails {S A} (o : Outcome S A) : Prop :=
  match o with
  | Throw _ _ | Abort _ => True
  | _ => False
  end.

(** The events a leaf collection owns ([owned_events_]) and the events it
    points at ([events_]); nothing for another object. *)
Definition leaf_owned (h : Heap) (x : addr) : list addr :=
  match collections h !! x with
  | Some (LeafEventCollection owned _) => owned
  | _ => []
  end.

Definition leaf_events (h : Heap) (x : addr) : list addr :=
  match collections h !! x with
  | Some (LeafEventCollection _ evs) => evs
  | _ => []
  end.

(** The events owned, and the events pointed at, by the leaves of the
    hierarchy at [this]. *)
Definition owned_below (depth : nat) (h : Heap) (this : addr) : list addr :=
  leaves depth h this ≫= leaf_owned h.

Definition events_below (depth : nat) (h : Heap) (this : addr) : list addr :=
  leaves depth h this ≫= leaf_events h.

(** How the heap differs after the leaves [F], which owned the events [E],
    were cleared: every collection outside [F] is as it was, those in [F]
    are empty leaves, the events in [E] are gone and every other event is
    as it was. *)
Definition cleared_on (F E : list addr) (h h' : Heap) : Prop :=
  (∀ x, x ∉ F → collections h' !! x = collections h !! x) ∧
  (∀ x, x ∈ F →
     (∃ owned evs, collections h !! x = Some (LeafEventCollection owned evs)) ∧
     collections h' !! x = Some (LeafEventCollection [] [])) ∧
  (∀ e, e ∈ E → event_objs h' !! e = None) ∧
  (∀ e, e ∉ E → event_objs h' !! e = event_objs h !! e).

(** Contents of the same shape with every sequence empty. *)
Fixpoint emptied_contents (t : Contents) : Contents :=
  match t with
  | LeafContents _ => LeafContents []
  | DiagramContents ts => DiagramContents (emptied_contents <$> ts)
  end.

(** * Properties *)

(** ** Machine integers *)

Lemma static_cast_int_small (z : Z) : 0 ≤ z < 2 ^ 31 → static_cast_int z = z.
Proof.
  intros Hz. unfold static_cast_int.
  rewrite Z.mod_small by lia. lia.
Qed.

Lemma static_cast_int_le (z : Z) : 0 ≤ z → static_cast_int z ≤ z.
Proof.
  intros Hz. unfold static_cast_int.
  pose proof (Z.mod_le (z + 2 ^ 31) (2 ^ 32)). lia.
Qed.

(** ** Unfolding one level of the recursive member functions *)

Lemma Clear_S (fuel : nat) (this : addr) (h : Heap) :
  Clear (S fuel) this h =
  match collections h !! this with
  | Some (LeafEventCollection owned _) =>
      Ok tt (set_collection this (LeafEventCollection [] []) (delete_events owned h))
  | Some (DiagramEventCollection subs _) =>
      for_each subs (λ subevent,
        match subevent with
        | Some p => Clear fuel p
        | None => undefined
        end) h
  | None => Undefined
  end.
Proof. reflexivity. Qed.

Lemma HasEvents_S (fuel : nat) (this : addr) (h : Heap) :
  HasEvents (S fuel) this h =
  match collections h !! this with
  | Some (LeafEventCollection _ evs) => Ok (negb (bool_decide (evs = []))) h
  | Some (DiagramEventCollection subs _) =>
      return_true_if_any subs (λ subevent,
        match subevent with
        | Some p => HasEvents fuel p
        | None => undefined
        end) h
  | None => Undefined
  end.
Proof. reflexivity. Qed.

Lemma DoAddToEnd_S (fuel : nat) (this other : addr) (h : Heap) :
  DoAddToEnd (S fuel) this other h =
  match collections h !! this, collections h !! other with
  | Some (LeafEventCollection _ _), Some (LeafEventCollection _ other_events) =>
      for_each other_events (λ other_event,
        if decide (this = other) then undefined
        else (let* c := Clone other_event in add_event this (Some c))) h
  | Some (LeafEventCollection _ _), Some (DiagramEventCollection _ _) =>
      Throw bad_cast h
  | Some (DiagramEventCollection _ _), Some (LeafEventCollection _ _) =>
      Throw bad_cast h
  | Some (DiagramEventCollection subs _), Some (DiagramEventCollection other_subs _) =>
      let n := static_cast_int (Z.of_nat (length subs)) in
      let other_n := static_cast_int (Z.of_nat (length other_subs)) in
      (DRAKE_DEMAND (bool_decide (n = other_n)) ;;;
       for_each (seq 0 (Z.to_nat n)) (λ i,
         match subs !! i, other_subs !! i with
         | Some (Some p), Some (Some q) => DoAddToEnd fuel p q
         | _, _ => undefined
         end)) h
  | _, _ => Undefined
  end.
Proof. reflexivity. Qed.

#[local] Arguments Clear : simpl never.
#[local] Arguments HasEvents : simpl never.
#[local] Arguments DoAddToEnd : simpl never.

(** ** The forced-event factory *)

(** C9: [MakeForcedEventCollection] always returns, and what it returns is a
    new leaf collection that holds exactly one event, itself new, whose
    trigger type is [kForced] and which carries neither data nor callback;
    nothing that was in the heap before is changed. *)
Theorem MakeForcedEventCollection_spec (h : Heap) :
  ∃ r e h',
    MakeForcedEventCollection h = Ok r h' ∧
    collections h !! r = None ∧
    event_objs h !! e = None ∧
    collections h' = <[r := LeafEventCollection [e] [e]]> (collections h) ∧
    event_objs h' = <[e := mkEvent kForced None None]> (event_objs h) ∧
    get_events r h' = Ok [e] h' ∧
    (get_trigger_type <$> event_objs h' !! e) = Some kForced ∧
    (get_event_data <$> event_objs h' !! e) = Some None ∧
    (get_callback <$> event_objs h' !! e) = Some None.
Proof.
  set (r := fresh (dom (collections h))).
  set (e := fresh (dom (event_objs h))).
  assert (Hr : collections h !! r = None)
    by (apply not_elem_of_dom, is_fresh).
  assert (He : event_objs h !! e = None)
    by (apply not_elem_of_dom, is_fresh).
  exists r, e. eexists. split.
  - unfold MakeForcedEventCollection, LeafEventCollection_ctor, new_collection,
      new_event, add_event, bind, ret, DRAKE_DEMAND. cbn.
    fold r. rewrite lookup_insert_eq. cbn. fold e. reflexivity.
  - cbn. repeat split; try done.
    + by rewrite insert_insert_eq.
    + unfold get_events. cbn. by rewrite lookup_insert_eq.
    + by rewrite lookup_insert_eq.
    + by rewrite lookup_insert_eq.
    + by rewrite lookup_insert_eq.
Qed.

(** ** Adding events to diagram nodes *)

Lemma release_event_collections (p : option addr) (h : Heap) :
  collections (release_event p h) = collections h.
Proof. by destruct p. Qed.

Lemma heap_of_set_heap (k : EventKind) (h : Heap) (s : Store) :
  heap_of k (set_heap k h s) = h.
Proof. by destruct k. Qed.

Lemma heap_of_set_heap_ne (k k' : EventKind) (h : Heap) (s : Store) :
  k ≠ k' → heap_of k' (set_heap k h s) = heap_of k' s.
Proof. by destruct k, k'. Qed.

Lemma composites_set_heap (k : EventKind) (h : Heap) (s : Store) :
  composites (set_heap k h s) = composites s.
Proof. by destruct k. Qed.

Lemma set_heap_heap_of (k : EventKind) (s : Store) : set_heap k (heap_of k s) s = s.
Proof. by destruct k, s. Qed.

(** C4, as the code has it: [add_event] on a diagram collection throws
    [std::logic_error] whatever the event and the number of slots, and
    [add_event_of_kind] on a bundle whose collection of that kind is a
    diagram collection throws [std::bad_cast] for every non-null event and
    aborts on a null one.  In each case no collection of any kind and no
    bundle is changed; the only object that goes is the event handed over. *)
Theorem add_event_on_diagram_node :
  (∀ (h : Heap) (this : addr) subs owned (event : option addr),
     collections h !! this = Some (DiagramEventCollection subs owned) →
     add_event this event h = Throw logic_error (release_event event h) ∧
     collections (release_event event h) = collections h) ∧
  (∀ (k : EventKind) (s : Store) (this : addr) c subs owned (e : addr),
     composites s !! this = Some c →
     collections (heap_of k s) !! events_member k c
       = Some (DiagramEventCollection subs owned) →
     ∃ s', add_event_of_kind k this (Some e) s = Throw bad_cast s' ∧
           composites s' = composites s ∧
           (∀ k', collections (heap_of k' s') = collections (heap_of k' s)) ∧
           (∀ k', k' ≠ k → heap_of k' s' = heap_of k' s) ∧
           event_objs (heap_of k s') = delete e (event_objs (heap_of k s))) ∧
  (∀ (k : EventKind) (s : Store) (this : addr),
     add_event_of_kind k this None s = Abort s).
Proof.
  split; [|split].
  - intros h this subs owned event Hthis. unfold add_event. rewrite Hthis.
    split; [done | apply release_event_collections].
  - intros k s this c subs owned e Hc Hsub.
    eexists. split.
    + unfold add_event_of_kind, get_events_of_kind, composite_at, on_heap,
        bind, ret, DRAKE_DEMAND. cbn. rewrite Hc. cbn. rewrite Hsub. reflexivity.
    + split; [apply composites_set_heap|]. split; [|split].
      * intros k'. destruct (decide (k = k')) as [<-|Hne].
        -- by rewrite heap_of_set_heap.
        -- by rewrite heap_of_set_heap_ne.
      * intros k' Hne. by rewrite heap_of_set_heap_ne.
      * by rewrite heap_of_set_heap.
  - intros k s this. reflexivity.
Qed.

(** C4 on a diagram collection with two null slots, and on a diagram bundle
    without children: [add_event] throws [std::logic_error] and
    [add_publish_event] throws [std::bad_cast]; the event is gone. *)
Lemma add_event_on_diagram_node_witness :
  add_event 0%nat (Some 0%nat)
    (mkHeap {[0%nat := Event_ctor kPeriodic]}
            {[0%nat := DiagramEventCollection [None; None] [None; None]]})
  = Throw logic_error
      (mkHeap ∅ {[0%nat := DiagramEventCollection [None; None] [None; None]]}) ∧
  ∃ s', add_publish_event 0%nat (Some 0%nat) diagram_bundle_and_event
          = Throw bad_cast s' ∧
        composites s' = composites diagram_bundle_and_event ∧
        event_objs (publish_heap s') = ∅.
Proof.
  split.
  - destruct (proj1 add_event_on_diagram_node
      (mkHeap {[0%nat := Event_ctor kPeriodic]}
              {[0%nat := DiagramEventCollection [None; None] [None; None]]})
      0%nat [None; None] [None; None] (Some 0%nat)) as [H _]; [reflexivity|].
    rewrite H. vm_compute. reflexivity.
  - edestruct (proj1 (proj2 add_event_on_diagram_node) PublishEvent
      diagram_bundle_and_event 0%nat) as (s' & Hrun & Hcomp & _ & _ & Hev).
    + vm_compute. reflexivity.
    + vm_compute. reflexivity.
    + exists s'. split; [exact Hrun|]. split; [exact Hcomp|].
      change (publish_heap s') with (heap_of PublishEvent s').
      rewrite Hev. vm_compute. reflexivity.
Defined.

(** C4 as stated fails for bundles: [add_publish_event] on a diagram bundle
    does not throw [std::logic_error], it throws [std::bad_cast]. *)
Lemma add_publish_event_on_diagram_bundle_throws_bad_cast :
  (∃ s, add_publish_event_on_diagram_bundle empty_store = Throw bad_cast s) ∧
  (∀ s, add_publish_event_on_diagram_bundle empty_store ≠ Throw logic_error s).
Proof.
  split.
  - eexists. vm_compute. reflexivity.
  - intros s. vm_compute. discriminate.
Qed.

(** ** Merging diagram collections of different sizes *)

(** C1, as the code has it: when [num_subsystems()] differs between two
    diagram collections, [AddToEnd] ends in a failed [DRAKE_DEMAND], an abort
    and not an exception, and it has written nothing by then: the heap at
    the abort is the heap of the call. *)
Theorem AddToEnd_different_sizes_aborts (fuel : nat) (h : Heap)
    (this other : addr) (n m : Z) :
  num_subsystems this h = Ok n h →
  num_subsystems other h = Ok m h →
  n ≠ m →
  AddToEnd (S fuel) this other h = Abort h.
Proof.
  unfold num_subsystems, AddToEnd. rewrite DoAddToEnd_S.
  destruct (collections h !! this) as [[|subs owned]|]; try done.
  destruct (collections h !! other) as [[|osubs oowned]|]; try done.
  intros [= <-] [= <-] Hne.
  unfold bind, DRAKE_DEMAND. by rewrite bool_decide_eq_false_2.
Qed.

(** C1 on a diagram collection without slots and one with a single slot. *)
Lemma AddToEnd_different_sizes_aborts_witness :
  AddToEnd 1 0%nat 1%nat
    (mkHeap ∅ (<[0%nat := DiagramEventCollection [] []]>
                 {[1%nat := DiagramEventCollection [None] [None]]}))
  = Abort (mkHeap ∅ (<[0%nat := DiagramEventCollection [] []]>
                 {[1%nat := DiagramEventCollection [None] [None]]})).
Proof.
  apply (AddToEnd_different_sizes_aborts 0 _ 0%nat 1%nat 0 1);
    [reflexivity | reflexivity | lia].
Defined.

(** C1 as stated fails: the merge of a diagram collection without slots with
    one of one slot does not end in an exception. *)
Lemma merge_of_different_sizes_is_no_exception :
  (∃ h, merge_of_different_sizes empty_heap = Abort h) ∧
  (∀ e h, merge_of_different_sizes empty_heap ≠ Throw e h).
Proof.
  split.
  - eexists. vm_compute. reflexivity.
  - intros e h. vm_compute. discriminate.
Qed.

(** ** The monad and the loops *)

Lemma for_each_app {S A} (l1 l2 : list A) (body : A → M S unit) (s : S) :
  for_each (l1 ++ l2) body s = (for_each l1 body ;;; for_each l2 body) s.
Proof.
  revert s. induction l1 as [|x l1 IH]; intros s; cbn; [done|].
  unfold bind in *. destruct (body x s); done.
Qed.

Lemma for_each_ext {S A} (l : list A) (f g : A → M S unit) (s : S) :
  (∀ x s, x ∈ l → f x s = g x s) → for_each l f s = for_each l g s.
Proof.
  revert s. induction l as [|x l IH]; intros s Hfg; cbn; [done|].
  unfold bind. rewrite Hfg by left.
  destruct (g x s); try done. apply IH. intros y s' Hy. apply Hfg. by right.
Qed.

(** ** Construction and population of diagram collections *)

Lemma set_collection_twice (a : addr) (c c' : EventCollection) (h : Heap) :
  set_collection a c (set_collection a c' h) = set_collection a c h.
Proof. unfold set_collection. cbn. by rewrite insert_insert_eq. Qed.

Lemma DiagramEventCollection_ctor_ok (N : Z) (h : Heap) :
  0 ≤ N →
  let a := fresh (dom (collections h)) in
  DiagramEventCollection_ctor N h
    = Ok a (set_collection a
              (DiagramEventCollection (replicate (Z.to_nat N) None)
                                      (replicate (Z.to_nat N) None)) h) ∧
  collections h !! a = None.
Proof.
  intros HN a. split.
  - unfold DiagramEventCollection_ctor, vector_size_of_int.
    by rewrite decide_True by done.
  - apply not_elem_of_dom, is_fresh.
Qed.

Lemma set_subevent_collection_ok (h : Heap) (this : addr) subs owned
    (i : nat) (p : addr) :
  collections h !! this = Some (DiagramEventCollection subs owned) →
  Z.of_nat (length subs) < 2 ^ 31 →
  (i < length subs)%nat →
  set_subevent_collection this (Z.of_nat i) (Some p) h
    = Ok tt (set_collection this
               (DiagramEventCollection (<[i := Some p]> subs) owned) h).
Proof.
  intros Hthis Hlen Hi.
  unfold set_subevent_collection, num_subsystems, bind, DRAKE_DEMAND. cbn.
  rewrite Hthis. rewrite static_cast_int_small by lia.
  rewrite !bool_decide_eq_true_2 by lia. cbn.
  by rewrite Hthis, Nat2Z.id.
Qed.

Lemma populate_prefix (this : addr) (pre : list addr) :
  ∀ (m : nat) (h : Heap) owned,
    Z.of_nat (length pre + m) < 2 ^ 31 →
    collections h !! this
      = Some (DiagramEventCollection (replicate (length pre + m) None) owned) →
    populate this pre h
      = Ok tt (set_collection this
                 (DiagramEventCollection ((Some <$> pre) ++ replicate m None) owned) h).
Proof.
  unfold populate.
  induction pre as [|p pre IH] using rev_ind; intros m h owned Hlen Hthis.
  - cbn in *. unfold ret, set_collection. rewrite insert_id by done. by destruct h.
  - rewrite length_app in Hlen, Hthis. cbn in Hlen, Hthis.
    rewrite imap_app, for_each_app. unfold bind.
    rewrite (IH (S m) h owned) by
      (first [lia | (rewrite Hthis; do 3 f_equal; lia)]).
    cbn. unfold bind.
    erewrite set_subevent_collection_ok; cycle 1.
    + cbn. by rewrite lookup_insert_eq.
    + rewrite length_app, length_fmap. cbn. rewrite length_replicate. lia.
    + rewrite length_app, length_fmap. cbn. rewrite length_replicate. lia.
    + unfold ret. rewrite set_collection_twice. do 3 f_equal.
      rewrite Nat.add_0_r. rewrite fmap_app. cbn. rewrite <- app_assoc. cbn.
      rewrite insert_app_r_alt by (rewrite length_fmap; lia).
      rewrite length_fmap, Nat.sub_diag. reflexivity.
Qed.

Lemma make_populated_ok (N : Z) (children : list addr) (h : Heap) :
  0 ≤ N < 2 ^ 31 →
  Z.of_nat (length children) = N →
  let a := fresh (dom (collections h)) in
  make_populated N children h
    = Ok a (set_collection a
              (DiagramEventCollection (Some <$> children)
                                      (replicate (length children) None)) h) ∧
  collections h !! a = None.
Proof.
  intros HN Hlen a.
  destruct (DiagramEventCollection_ctor_ok N h) as [Hctor Hfresh]; [lia|].
  split; [|done].
  unfold make_populated, bind. rewrite Hctor. fold a.
  assert (Z.to_nat N = (length children + 0)%nat) as -> by lia.
  rewrite (populate_prefix a children 0 _ (replicate (length children + 0) None)).
  - unfold ret. rewrite set_collection_twice. cbn.
    by rewrite app_nil_r, Nat.add_0_r.
  - lia.
  - cbn. by rewrite lookup_insert_eq.
Qed.

(** ** [HasEvents] *)

Lemma return_true_if_any_const {S A} (l : list A) (test : A → M S bool)
    (bs : list bool) (s : S) :
  Forall2 (λ x b, test x s = Ok b s) l bs →
  return_true_if_any l test s = Ok (foldr orb false bs) s.
Proof.
  induction 1 as [|x b l bs Hx _ IH]; cbn; [done|].
  unfold bind. rewrite Hx. by destruct b.
Qed.

(** [HasEvents] is [const]: it returns in the heap it was called in. *)
Lemma HasEvents_const (fuel : nat) :
  ∀ (this : addr) (h h' : Heap) (b : bool),
    HasEvents fuel this h = Ok b h' → h' = h.
Proof.
  induction fuel as [|fuel IH]; intros this h h' b; [done|].
  rewrite HasEvents_S.
  destruct (collections h !! this) as [[owned evs|subs owned]|]; try done.
  - by intros [= _ <-].
  - clear owned. induction subs as [|[p|] subs IHs]; cbn.
    + by intros [= _ <-].
    + unfold bind. destruct (HasEvents fuel p h) as [b1 h1| | | |] eqn:Hp; try done.
      apply IH in Hp as ->. destruct b1; [by intros [= _ <-] | apply IHs].
    + done.
Qed.

(** A result of [HasEvents] stands in every heap that has the same collections
    and possibly more. *)
Lemma HasEvents_weaken (fuel : nat) :
  ∀ (this : addr) (h h' : Heap) (b : bool),
    collections h ⊆ collections h' →
    HasEvents fuel this h = Ok b h →
    HasEvents fuel this h' = Ok b h'.
Proof.
  induction fuel as [|fuel IH]; intros this h h' b Hsub; [done|].
  rewrite !HasEvents_S.
  destruct (collections h !! this) as [c|] eqn:Hthis; [|done].
  rewrite (lookup_weaken _ _ _ _ Hthis Hsub).
  destruct c as [owned evs|subs owned].
  - by intros [= <-].
  - clear Hthis owned. revert b. induction subs as [|[p|] subs IHs]; intros b; cbn.
    + by intros [= <-].
    + unfold bind. destruct (HasEvents fuel p h) as [b1 h1| | | |] eqn:Hp; try done.
      pose proof (HasEvents_const _ _ _ _ _ Hp) as ->.
      rewrite (IH _ _ _ _ Hsub Hp). destruct b1; [by intros [= <-] | apply IHs].
    + done.
Qed.

Lemma HasEvents_diagram (fuel : nat) (h : Heap) (this : addr)
    (children : list addr) owned (bs : list bool) :
  collections h !! this = Some (DiagramEventCollection (Some <$> children) owned) →
  Forall2 (λ p b, HasEvents fuel p h = Ok b h) children bs →
  HasEvents (S fuel) this h = Ok (foldr orb false bs) h.
Proof.
  intros Hthis Hbs. rewrite HasEvents_S, Hthis.
  apply return_true_if_any_const.
  clear Hthis. induction Hbs; cbn; constructor; auto.
Qed.

(** C7: a diagram collection made with [N] slots, for any [int] [N] that is
    not negative, and populated in every slot, reports [num_subsystems()]
    equal to [N], and its [HasEvents()] is the disjunction of what
    [HasEvents()] reports for its [N] children. *)
Theorem populated_diagram_num_subsystems_and_HasEvents
    (N : Z) (children : list addr) (bs : list bool) (fuel : nat) (h : Heap) :
  0 ≤ N < 2 ^ 31 →
  Z.of_nat (length children) = N →
  Forall2 (λ p b, HasEvents fuel p h = Ok b h) children bs →
  ∃ this h',
    make_populated N children h = Ok this h' ∧
    num_subsystems this h' = Ok N h' ∧
    Forall2 (λ p b, HasEvents fuel p h' = Ok b h') children bs ∧
    HasEvents (S fuel) this h' = Ok (foldr orb false bs) h'.
Proof.
  intros HN Hlen Hbs.
  destruct (make_populated_ok N children h HN Hlen) as [Hmake Hfresh].
  set (a := fresh (dom (collections h))) in *.
  set (h' := set_collection a (DiagramEventCollection (Some <$> children)
                 (replicate (length children) None)) h) in *.
  exists a, h'. split; [exact Hmake|].
  assert (Hthis : collections h' !! a
            = Some (DiagramEventCollection (Some <$> children)
                 (replicate (length children) None)))
    by (cbn; by rewrite lookup_insert_eq).
  assert (Hbs' : Forall2 (λ p b, HasEvents fuel p h' = Ok b h') children bs).
  { eapply Forall2_impl; [exact Hbs|]. intros p b Hp.
    eapply HasEvents_weaken; [|exact Hp]. cbn. by apply insert_subseteq. }
  split; [|split; [exact Hbs'|]].
  - unfold num_subsystems. rewrite Hthis, length_fmap.
    rewrite static_cast_int_small by lia. by rewrite Hlen.
  - eapply HasEvents_diagram; [exact Hthis | exact Hbs'].
Qed.

Lemma HasEvents_more_fuel (fuel : nat) :
  ∀ (this : addr) (h : Heap) (b : bool),
    HasEvents fuel this h = Ok b h → HasEvents (S fuel) this h = Ok b h.
Proof.
  induction fuel as [|fuel IH]; intros this h b; [done|].
  rewrite (HasEvents_S (S fuel)), (HasEvents_S fuel).
  destruct (collections h !! this) as [[owned evs|subs owned]|]; try done.
  clear owned. revert b. induction subs as [|[p|] subs IHs]; intros b; cbn; try done.
  unfold bind. destruct (HasEvents fuel p h) as [b1 h1| | | |] eqn:Hp; try done.
  pose proof (HasEvents_const _ _ _ _ _ Hp) as ->.
  rewrite (IH _ _ _ Hp). destruct b1; [done | apply IHs].
Qed.

(** ** [Clear] *)

Lemma emptied_refl (h : Heap) : emptied h h.
Proof.
  intros x. destruct (collections h !! x) as [[|]|]; constructor; cbn; auto.
Qed.

Lemma emptied_trans (h1 h2 h3 : Heap) :
  emptied h1 h2 → emptied h2 h3 → emptied h1 h3.
Proof.
  intros H12 H23 x. specialize (H12 x). specialize (H23 x).
  destruct H12 as [c1 c2 H12|]; inversion H23 as [c2' c3 H23'|]; subst;
    constructor.
  destruct c1, c2, c3; cbn in *; try done.
  - destruct H12 as [[-> ->]|[-> ->]], H23' as [[-> ->]|[-> ->]]; auto.
  - destruct H12 as [-> ->], H23' as [-> ->]. auto.
Qed.

Lemma emptied_diagram (h h' : Heap) (x : addr) subs owned :
  emptied h h' →
  collections h !! x = Some (DiagramEventCollection subs owned) →
  collections h' !! x = Some (DiagramEventCollection subs owned).
Proof.
  intros He Hx. specialize (He x). rewrite Hx in He.
  inversion He as [c c' Hc|]; subst. destruct c'; cbn in Hc; [done|].
  by destruct Hc as [-> ->].
Qed.

Lemma emptied_diagram_inv (h h' : Heap) (x : addr) subs owned :
  emptied h h' →
  collections h' !! x = Some (DiagramEventCollection subs owned) →
  collections h !! x = Some (DiagramEventCollection subs owned).
Proof.
  intros He Hx. specialize (He x). rewrite Hx in He.
  inversion He as [c c' Hc|]; subst. destruct c; cbn in Hc; [done|].
  by destruct Hc as [-> ->].
Qed.

Lemma HasEvents_emptied (fuel : nat) :
  ∀ (this : addr) (h h' : Heap),
    emptied h h' →
    HasEvents fuel this h = Ok false h →
    HasEvents fuel this h' = Ok false h'.
Proof.
  induction fuel as [|fuel IH]; intros this h h' He; [done|].
  rewrite !HasEvents_S.
  pose proof (He this) as Hthis.
  destruct Hthis as [c c' Hc|]; [|done].
  destruct c as [owned evs|subs owned], c' as [owned' evs'|subs' owned'];
    cbn in Hc; try done.
  - intros [= Hevs]. apply negb_false_iff, bool_decide_eq_true in Hevs as ->.
    by destruct Hc as [[_ ->]|[_ ->]].
  - destruct Hc as [-> _]. clear owned owned'.
    induction subs as [|[p|] subs IHs]; cbn; try done.
    unfold bind. destruct (HasEvents fuel p h) as [b1 h1| | | |] eqn:Hp; try done.
    pose proof (HasEvents_const _ _ _ _ _ Hp) as ->.
    destruct b1; [done|]. rewrite (IH _ _ _ He Hp). apply IHs.
Qed.

Lemma populated_emptied (depth : nat) :
  ∀ (this : addr) (h h' : Heap),
    emptied h h' → populated depth h this → populated depth h' this.
Proof.
  induction depth as [|depth IH]; intros this h h' He; cbn; [done|].
  pose proof (He this) as Hthis.
  destruct Hthis as [c c' Hc|]; [|done].
  destruct c as [owned evs|subs owned], c' as [owned' evs'|subs' owned'];
    cbn in Hc; try done.
  destruct Hc as [-> _]. intros Hpop. eapply Forall_impl; [exact Hpop|].
  intros [p|]; [|done]. by apply IH.
Qed.

Lemma descendant_emptied (h h' : Heap) (this d : addr) :
  emptied h h' → descendant h this d → descendant h' this d.
Proof.
  intros He. induction 1 as [|this subs owned p d Hthis Hp _ IH]; [constructor|].
  eapply descendant_step; [by eapply emptied_diagram | done | done].
Qed.

Lemma descendant_emptied_inv (h h' : Heap) (this d : addr) :
  emptied h h' → descendant h' this d → descendant h this d.
Proof.
  intros He. induction 1 as [|this subs owned p d Hthis Hp _ IH]; [constructor|].
  eapply descendant_step; [by eapply emptied_diagram_inv | done | done].
Qed.

Lemma Clear_leaf_emptied (h : Heap) (this : addr) owned evs :
  collections h !! this = Some (LeafEventCollection owned evs) →
  emptied h (set_collection this (LeafEventCollection [] []) (delete_events owned h)).
Proof.
  intros Hthis x. cbn. destruct (decide (x = this)) as [->|Hne].
  - rewrite lookup_insert_eq, Hthis. constructor. cbn. auto.
  - rewrite lookup_insert_ne by done. apply emptied_refl.
Qed.

(** What a call of [Clear] that returns has done: the heap differs from the
    one before only in leaves that are now empty, and [HasEvents] reports
    [false] for the collection and for everything below it. *)
Lemma Clear_returns (fuel : nat) :
  ∀ (this : addr) (h h' : Heap),
    Clear fuel this h = Ok tt h' →
    emptied h h' ∧
    ∀ d, descendant h this d → HasEvents fuel d h' = Ok false h'.
Proof.
  induction fuel as [|fuel IH]; intros this h h'; [done|].
  rewrite Clear_S.
  destruct (collections h !! this) as [[owned evs|subs owned]|] eqn:Hthis; try done.
  - intros [= <-]. split; [by eapply Clear_leaf_emptied|].
    intros d Hd. inversion Hd as [|? subs owned' p ? Hthis']; subst.
    + rewrite HasEvents_S. cbn. by rewrite lookup_insert_eq.
    + congruence.
  - intros Hloop.
    assert (Hall : emptied h h' ∧
      Forall (λ subevent, ∃ p, subevent = Some p ∧
                ∀ d, descendant h p d → HasEvents fuel d h' = Ok false h') subs).
    { clear Hthis. revert h Hloop.
      induction subs as [|[p|] subs IHs]; intros h; cbn.
      - intros [= <-]. split; [apply emptied_refl | constructor].
      - unfold bind. destruct (Clear fuel p h) as [[] h1| | | |] eqn:Hp; try done.
        intros Hrest. apply IH in Hp as [He1 Hp]. apply IHs in Hrest as [He2 Hrest].
        split; [by eapply emptied_trans|]. constructor.
        + exists p. split; [done|]. intros d Hd.
          eapply HasEvents_emptied; [exact He2 | by apply Hp].
        + eapply Forall_impl; [exact Hrest|]. intros sub (q & -> & Hq).
          exists q. split; [done|]. intros d Hd. apply Hq.
          by eapply descendant_emptied.
      - done. }
    destruct Hall as [He Hall]. split; [done|].
    assert (Hchild : ∀ p d, Some p ∈ subs → descendant h p d →
                       HasEvents fuel d h' = Ok false h').
    { intros p d Hp Hd. rewrite Forall_forall in Hall.
      destruct (Hall _ Hp) as (q & [= <-] & Hq). by apply Hq. }
    intros d Hd. inversion Hd as [|? subs' owned' p ? Hthis' Hp Hpd]; subst.
    + rewrite HasEvents_S, (emptied_diagram _ _ _ _ _ He Hthis).
      assert (Hself : ∀ p, Some p ∈ subs → HasEvents fuel p h' = Ok false h')
        by (intros p Hp; eapply Hchild; [done | constructor]).
      assert (Hnone : None ∉ subs).
      { intros Hin. rewrite Forall_forall in Hall.
        by destruct (Hall _ Hin) as (q & ? & _). }
      clear -Hself Hnone. induction subs as [|[p|] subs IHs]; cbn; [done| |].
      * unfold bind. rewrite Hself by left. apply IHs.
        -- intros q Hq. apply Hself. by right.
        -- intros Hin. apply Hnone. by right.
      * exfalso. apply Hnone. left.
    + apply HasEvents_more_fuel. eapply Hchild; [|exact Hpd]. congruence.
Qed.

(** A populated hierarchy is cleared by a call that returns. *)
Lemma Clear_populated (fuel : nat) :
  ∀ (this : addr) (h : Heap),
    populated fuel h this → ∃ h', Clear fuel this h = Ok tt h'.
Proof.
  induction fuel as [|fuel IH]; intros this h; [done|].
  rewrite Clear_S. cbn.
  destruct (collections h !! this) as [[owned evs|subs owned]|]; try done.
  - eauto.
  - clear owned. revert h. induction subs as [|[p|] subs IHs]; intros h Hpop; cbn.
    + by eexists.
    + apply Forall_cons in Hpop as [Hp Hpop]. unfold bind.
      destruct (IH _ _ Hp) as [h1 H1]. rewrite H1.
      apply Clear_returns in H1 as [He _]. apply IHs.
      eapply Forall_impl; [exact Hpop|]. intros [q|]; [|done].
      by apply populated_emptied.
    + by apply Forall_cons in Hpop as [? _].
Qed.

Lemma on_heap_Ok {A} (k : EventKind) (m : M Heap A) (s : Store) (a : A) (h : Heap) :
  m (heap_of k s) = Ok a h → on_heap k m s = Ok a (set_heap k h s).
Proof. unfold on_heap. by intros ->. Qed.

Lemma on_heap_const {A} (k : EventKind) (m : M Heap A) (s : Store) (a : A) :
  m (heap_of k s) = Ok a (heap_of k s) → on_heap k m s = Ok a s.
Proof. intros H. rewrite (on_heap_Ok _ _ _ _ _ H). by rewrite set_heap_heap_of. Qed.

Lemma Composite_HasEvents_false (fuel : nat) (s : Store) (b : addr) cb :
  composites s !! b = Some cb →
  (∀ k, HasEvents fuel (events_member k cb) (heap_of k s) = Ok false (heap_of k s)) →
  Composite_HasEvents fuel b s = Ok false s.
Proof.
  intros Hb Hk. unfold Composite_HasEvents, composite_at, bind. rewrite Hb.
  rewrite (on_heap_const PublishEvent
    (HasEvents fuel (publish_events_ cb)) s false (Hk PublishEvent)).
  rewrite (on_heap_const DiscreteUpdateEvent
    (HasEvents fuel (discrete_update_events_ cb)) s false (Hk DiscreteUpdateEvent)).
  by rewrite (on_heap_const UnrestrictedUpdateEvent
    (HasEvents fuel (unrestricted_update_events_ cb)) s false
    (Hk UnrestrictedUpdateEvent)).
Qed.

(** C6: [Clear] on a collection whose slots are all populated returns, and
    right after it [HasEvents] reports [false] for the collection and for
    every collection below it.  [Clear] on a bundle over such collections
    returns, and right after it [HasEvents] reports [false] for the bundle,
    for each of its three kinds, for every collection below its three
    members, and for every bundle whose members are among those. *)
Theorem Clear_then_HasEvents_false :
  (∀ (fuel : nat) (h : Heap) (this : addr),
     populated fuel h this →
     ∃ h', Clear fuel this h = Ok tt h' ∧
           ∀ d, descendant h' this d → HasEvents fuel d h' = Ok false h') ∧
  (∀ (fuel : nat) (s : Store) (this : addr) c,
     composites s !! this = Some c →
     (∀ k, populated fuel (heap_of k s) (events_member k c)) →
     ∃ s', Composite_Clear fuel this s = Ok tt s' ∧
           Composite_HasEvents fuel this s' = Ok false s' ∧
           (∀ k, has_events_of_kind k fuel this s' = Ok false s') ∧
           (∀ k d, descendant (heap_of k s') (events_member k c) d →
                   HasEvents fuel d (heap_of k s') = Ok false (heap_of k s')) ∧
           (∀ b cb, composites s' !! b = Some cb →
                    (∀ k, descendant (heap_of k s') (events_member k c)
                                     (events_member k cb)) →
                    Composite_HasEvents fuel b s' = Ok false s')).
Proof.
  split.
  - intros fuel h this Hpop.
    destruct (Clear_populated _ _ _ Hpop) as [h' Hclear].
    exists h'. split; [done|].
    apply Clear_returns in Hclear as [He Hd].
    intros d Hdesc. apply Hd. by eapply descendant_emptied_inv.
  - intros fuel s this c Hthis Hpop.
    destruct (Clear_populated _ _ _ (Hpop PublishEvent)) as [hp Hp].
    destruct (Clear_populated _ _ _ (Hpop DiscreteUpdateEvent)) as [hd Hd].
    destruct (Clear_populated _ _ _ (Hpop UnrestrictedUpdateEvent)) as [hu Hu].
    exists (mkStore hp hd hu (composites s)).
    assert (Hdesc : ∀ k d,
      descendant (heap_of k (mkStore hp hd hu (composites s))) (events_member k c) d →
      HasEvents fuel d (heap_of k (mkStore hp hd hu (composites s)))
        = Ok false (heap_of k (mkStore hp hd hu (composites s)))).
    { intros k d Hdesc.
      apply Clear_returns in Hp as [Hep Hp], Hd as [Hed Hd], Hu as [Heu Hu].
      destruct k; cbn in *;
        [apply Hp | apply Hd | apply Hu]; by eapply descendant_emptied_inv. }
    split; [|split; [|split; [|split]]].
    + unfold Composite_Clear, composite_at, bind. rewrite Hthis.
      rewrite (on_heap_Ok PublishEvent (Clear fuel (publish_events_ c)) s tt hp Hp).
      rewrite (on_heap_Ok DiscreteUpdateEvent (Clear fuel (discrete_update_events_ c))
                 _ tt hd) by exact Hd.
      by rewrite (on_heap_Ok UnrestrictedUpdateEvent
                 (Clear fuel (unrestricted_update_events_ c)) _ tt hu) by exact Hu.
    + eapply Composite_HasEvents_false; [exact Hthis|].
      intros k. apply Hdesc. constructor.
    + intros k. unfold has_events_of_kind, composite_at, bind. cbn. rewrite Hthis.
      apply on_heap_const, Hdesc. constructor.
    + exact Hdesc.
    + intros b cb Hb Hbelow. eapply Composite_HasEvents_false; [exact Hb|].
      intros k. apply Hdesc, Hbelow.
Qed.

(** ** [SetFrom] *)

(** C5: on a collection, [SetFrom(other)] is [Clear()] followed by
    [AddToEnd(other)], whatever the operands.  On a bundle, [SetFrom(other)]
    returns exactly when [Clear()] followed by [AddToEnd(other)] returns, and
    then both leave the same store: the bundle goes kind by kind where the
    sequence clears all three kinds first, and the heaps of the three event
    types are apart. *)
Theorem SetFrom_is_Clear_then_AddToEnd :
  (∀ (fuel : nat) (this other : addr) (h : Heap),
     SetFrom fuel this other h = (Clear fuel this ;;; AddToEnd fuel this other) h) ∧
  (∀ (fuel : nat) (this other : addr) (s s' : Store),
     Composite_SetFrom fuel this other s = Ok tt s' ↔
     (Composite_Clear fuel this ;;; Composite_AddToEnd fuel this other) s = Ok tt s').
Proof.
  split; [reflexivity|].
  intros fuel this other s s'.
  unfold Composite_SetFrom, Composite_Clear, Composite_AddToEnd, SetFrom, AddToEnd,
    composite_at, on_heap, bind.
  destruct s as [hp hd hu comps]. cbn.
  destruct (comps !! this) as [c|] eqn:Hthis; [|done].
  destruct (comps !! other) as [o|] eqn:Hother; cbn; rewrite ?Hthis, ?Hother;
    repeat (cbn; rewrite ?Hthis, ?Hother;
      cbv beta iota delta [publish_heap discrete_update_heap
                           unrestricted_update_heap composites];
      repeat match goal with
      | H : ?x = _ |- context [match ?x with _ => _ end] => rewrite H; cbn
      end;
      try done;
      match goal with
      | |- context [match Clear ?f ?a ?h with _ => _ end] =>
          destruct (Clear f a h) as [[] ?| | | |] eqn:?
      | |- context [match DoAddToEnd ?f ?a ?b ?h with _ => _ end] =>
          destruct (DoAddToEnd f a b h) as [[] ?| | | |] eqn:?
      end).
Qed.

(** ** Loops that cannot return *)

Lemma for_each_not_returns {S A} (l : list A) (body : A → M S unit) (x : A) :
  x ∈ l →
  (∀ s, ¬ returns (body x s)) →
  ∀ s, ¬ returns (for_each l body s).
Proof.
  intros Hx Hbody. induction l as [|y l IH]; intros s; [by apply not_elem_of_nil in Hx|].
  cbn. unfold bind. destruct (body y s) as [[] s1| | | |] eqn:Hy;
    try by intros (? & ? & ?).
  apply elem_of_cons in Hx as [->|Hx]; [|by apply IH].
  exfalso. apply (Hbody s). rewrite Hy. by eexists _, _.
Qed.

Lemma return_true_if_any_not_false {S A} (l : list A) (test : A → M S bool) (x : A) :
  x ∈ l →
  (∀ s, ¬ returns (test x s)) →
  ∀ s s', return_true_if_any l test s ≠ Ok false s'.
Proof.
  intros Hx Htest. induction l as [|y l IH]; intros s s'; [by apply not_elem_of_nil in Hx|].
  cbn. unfold bind. destruct (test y s) as [[] s1| | | |] eqn:Hy; try done.
  apply elem_of_cons in Hx as [->|Hx]; [|by apply IH].
  exfalso. apply (Htest s). rewrite Hy. by eexists _, _.
Qed.

Lemma undefined_not_returns {S A} (s : S) : ¬ returns (@undefined S A s).
Proof. by intros (? & ? & ?). Qed.

Lemma HasEvents_populated (fuel : nat) :
  ∀ (this : addr) (h : Heap),
    populated fuel h this → ∃ b, HasEvents fuel this h = Ok b h.
Proof.
  induction fuel as [|fuel IH]; intros this h; [done|].
  rewrite HasEvents_S. cbn.
  destruct (collections h !! this) as [[owned evs|subs owned]|]; try done.
  - eauto.
  - clear owned. induction subs as [|[p|] subs IHs]; intros Hpop; cbn.
    + by eexists.
    + apply Forall_cons in Hpop as [Hp Hpop]. unfold bind.
      destruct (IH _ _ Hp) as [b1 H1]. rewrite H1.
      destruct b1; [by eexists | by apply IHs].
    + by apply Forall_cons in Hpop as [? _].
Qed.

(** ** Merging leaf collections *)

(** The loop of the leaf's [DoAddToEnd], run on the events [l] of another
    collection: a clone of each, in order, goes to the end of both vectors of
    [this]. *)
Lemma leaf_DoAddToEnd_loop (this other : addr) (l : list addr) :
  this ≠ other →
  ∀ (h : Heap) owned evs,
    collections h !! this = Some (LeafEventCollection owned evs) →
    Forall (λ e, is_Some (event_objs h !! e)) l →
    ∃ clones h',
      for_each l (λ other_event,
        if decide (this = other) then undefined
        else (let* c := Clone other_event in add_event this (Some c))) h
        = Ok tt h' ∧
      collections h'
        = <[this := LeafEventCollection (owned ++ clones) (evs ++ clones)]>
            (collections h) ∧
      event_objs h ⊆ event_objs h' ∧
      Forall2 (λ c e, event_objs h !! c = None ∧
                      event_objs h' !! c = event_objs h !! e) clones l ∧
      NoDup clones.
Proof.
  intros Hne. induction l as [|e l IH]; intros h owned evs Hthis Hlive.
  - exists [], h. cbn. rewrite !app_nil_r.
    split; [done|]. split; [by rewrite insert_id|].
    split; [done|]. split; constructor.
  - apply Forall_cons in Hlive as [[ev Hev] Hlive]. cbn.
    rewrite decide_False by done. unfold bind at 1 2. unfold Clone. rewrite Hev.
    unfold new_event. set (c := fresh (dom (event_objs h))).
    assert (Hc : event_objs h !! c = None) by apply not_elem_of_dom, is_fresh.
    unfold add_event. cbn -[for_each]. rewrite Hthis. cbn -[for_each].
    set (h1 := set_collection this _ _).
    assert (Hsub1 : event_objs h ⊆ event_objs h1) by by apply insert_subseteq.
    destruct (IH h1 (owned ++ [c]) (evs ++ [c])) as (cs & h' & Hrun & Hcol & Hsub & Hcs & Hnd).
    { cbn. by rewrite lookup_insert_eq. }
    { eapply Forall_impl; [exact Hlive|]. intros e' [ev' He'].
      exists ev'. by eapply lookup_weaken. }
    exists (c :: cs), h'. split; [exact Hrun|].
    split; [|split; [|split]].
    + rewrite Hcol. cbn. rewrite insert_insert_eq.
      by rewrite <- !app_assoc.
    + by etrans.
    + constructor.
      * split; [done|]. rewrite Hev.
        eapply lookup_weaken; [|exact Hsub]. cbn. by rewrite lookup_insert_eq.
      * rewrite Forall_forall in Hlive.
        apply Forall2_same_length_lookup in Hcs as [Hlen Hcs].
        apply Forall2_same_length_lookup. split; [done|].
        intros i c' e' Hic Hie. destruct (Hcs i c' e' Hic Hie) as [Hc' Hce'].
        assert (Hine : e' ∈ l) by (apply list_elem_of_lookup; eauto).
        split.
        -- destruct (event_objs h !! c') eqn:Hold; [|done].
           by rewrite (lookup_weaken _ _ _ _ Hold Hsub1) in Hc'.
        -- rewrite Hce'. unfold h1. cbn. rewrite lookup_insert_ne; [done|].
           intros <-. destruct (Hlive _ Hine) as [? He']. congruence.
    + constructor; [|done]. intros Hin.
      apply list_elem_of_lookup in Hin as [i Hi].
      destruct (Forall2_lookup_l _ _ _ _ _ Hcs Hi) as (e' & _ & Hfresh & _).
      cbn in Hfresh. by rewrite lookup_insert_eq in Hfresh.
Qed.

(** C8: [AddToEnd] on a leaf collection, with another leaf collection whose
    events are live, returns; it has appended to [this], in order, one new
    event per event of [other], a clone made by [Clone]: an object that did
    not exist before and that has the value of the original.  [other] keeps
    its vectors, no event that existed is changed, and if every event had a
    single owner before, every event has a single owner after. *)
Theorem AddToEnd_leaf_appends_clones (fuel : nat) (h : Heap) (this other : addr)
    owned evs other_owned other_events :
  collections h !! this = Some (LeafEventCollection owned evs) →
  collections h !! other = Some (LeafEventCollection other_owned other_events) →
  this ≠ other →
  Forall (λ e, is_Some (event_objs h !! e)) other_events →
  ∃ clones h',
    AddToEnd (S fuel) this other h = Ok tt h' ∧
    collections h'
      = <[this := LeafEventCollection (owned ++ clones) (evs ++ clones)]>
          (collections h) ∧
    collections h' !! other = Some (LeafEventCollection other_owned other_events) ∧
    Forall2 (λ c e, event_objs h !! c = None ∧
                    event_objs h' !! c = event_objs h !! e) clones other_events ∧
    NoDup clones ∧
    event_objs h ⊆ event_objs h' ∧
    (single_owner h → single_owner h').
Proof.
  intros Hthis Hother Hne Hlive.
  destruct (leaf_DoAddToEnd_loop this other other_events Hne h owned evs Hthis Hlive)
    as (clones & h' & Hrun & Hcol & Hsub & Hclones & Hnd).
  exists clones, h'.
  split; [by unfold AddToEnd; rewrite DoAddToEnd_S, Hthis, Hother|].
  split; [done|]. split; [by rewrite Hcol, lookup_insert_ne|].
  split; [done|]. split; [done|]. split; [done|].
  assert (Hfresh : ∀ c, c ∈ clones → event_objs h !! c = None).
  { intros c Hc. apply list_elem_of_lookup in Hc as [i Hi].
    by destruct (Forall2_lookup_l _ _ _ _ _ Hclones Hi) as (? & _ & ? & _). }
  assert (Hlive' : ∀ c, c ∈ clones → is_Some (event_objs h' !! c)).
  { intros c Hc. apply list_elem_of_lookup in Hc as [i Hi].
    destruct (Forall2_lookup_l _ _ _ _ _ Hclones Hi) as (e & He & _ & ->).
    rewrite Forall_forall in Hlive. apply Hlive, list_elem_of_lookup. eauto. }
  intros [Hleaf Huniq]. split.
  - intros a owned_a evs_a. rewrite Hcol.
    destruct (decide (a = this)) as [->|Ha].
    + rewrite lookup_insert_eq. intros [= <- <-].
      destruct (Hleaf _ _ _ Hthis) as [Hnd0 Hlive0]. split.
      * apply NoDup_app. split; [done|]. split; [|done].
        intros e He Hc. rewrite Forall_forall in Hlive0.
        destruct (Hlive0 _ He) as [? Hsome]. rewrite (Hfresh _ Hc) in Hsome. done.
      * apply Forall_app. split.
        -- eapply Forall_impl; [exact Hlive0|]. intros e [ev He].
           exists ev. by eapply lookup_weaken.
        -- by apply Forall_forall.
    + rewrite lookup_insert_ne by done. intros Hcell.
      destruct (Hleaf _ _ _ Hcell) as [Hnd0 Hlive0]. split; [done|].
      eapply Forall_impl; [exact Hlive0|]. intros e [ev He].
      exists ev. by eapply lookup_weaken.
  - assert (Hmixed : ∀ b owned_b evs_b e,
      b ≠ this →
      collections h !! b = Some (LeafEventCollection owned_b evs_b) →
      e ∈ owned ++ clones → e ∈ owned_b → False).
    { intros b owned_b evs_b e Hb Hcell He Heb.
      apply elem_of_app in He as [He|He].
      - apply Hb. symmetry. by eapply (Huniq this b).
      - destruct (Hleaf _ _ _ Hcell) as [_ Hlive0].
        rewrite Forall_forall in Hlive0.
        destruct (Hlive0 _ Heb) as [? Hsome]. rewrite (Hfresh _ He) in Hsome. done. }
    intros a b owned_a evs_a owned_b evs_b e. rewrite Hcol.
    destruct (decide (a = this)) as [->|Ha], (decide (b = this)) as [->|Hb];
      rewrite ?lookup_insert_eq, ?lookup_insert_ne by done; try done.
    + intros [= <- <-] Hcell He Heb. exfalso. by eapply Hmixed.
    + intros Hcell [= <- <-] Hea He. exfalso. by eapply Hmixed.
    + apply Huniq.
Qed.

(** ** Contents, and what a merge leaves alone *)

Lemma contents_S (depth : nat) (h : Heap) (this : addr) :
  contents (S depth) h this =
  match collections h !! this with
  | Some (LeafEventCollection _ evs) =>
      LeafContents <$> mapM (λ e, event_objs h !! e) evs
  | Some (DiagramEventCollection subs _) =>
      DiagramContents <$> mapM (λ subevent, subevent ≫= contents depth h) subs
  | None => None
  end.
Proof. reflexivity. Qed.

Lemma leaves_S (depth : nat) (h : Heap) (this : addr) :
  leaves (S depth) h this =
  match collections h !! this with
  | Some (LeafEventCollection _ _) => [this]
  | Some (DiagramEventCollection subs _) =>
      concat ((λ subevent, from_option (leaves depth h) [] subevent) <$> subs)
  | None => []
  end.
Proof. reflexivity. Qed.

#[local] Arguments contents : simpl never.
#[local] Arguments leaves : simpl never.

Lemma zip_mapM_Some {A B C} (f : A → B → option C) (l1 : list A) (l2 : list B)
    (l : list C) :
  zip_mapM f l1 l2 = Some l → Forall3 (λ x y z, f x y = Some z) l1 l2 l.
Proof.
  revert l2 l. induction l1 as [|x l1 IH]; intros [|y l2] l; cbn; try done.
  - intros [= <-]. constructor.
  - destruct (f x y) as [z|] eqn:Hz; [|done].
    destruct (zip_mapM f l1 l2) as [l'|] eqn:Hl'; [|done].
    intros [= <-]. constructor; [done | by apply IH].
Qed.

Lemma Forall3_zip_mapM {A B C} (f : A → B → option C) (l1 : list A) (l2 : list B)
    (l : list C) :
  Forall3 (λ x y z, f x y = Some z) l1 l2 l → zip_mapM f l1 l2 = Some l.
Proof. induction 1 as [|x y z l1 l2 l Hz _ IH]; cbn; [done|]. by rewrite Hz, IH. Qed.

Lemma grown_on_refl (F : list addr) (h : Heap) :
  (∀ x, x ∈ F → ∃ owned evs, collections h !! x = Some (LeafEventCollection owned evs)) →
  grown_on F h h.
Proof.
  intros HF. split; [done|]. split; [done|].
  intros x Hx. destruct (HF x Hx) as (owned & evs & ?). by exists owned, evs, owned, evs.
Qed.

Lemma grown_on_nil (h : Heap) : grown_on [] h h.
Proof. apply grown_on_refl. intros x Hx. by apply not_elem_of_nil in Hx. Qed.

Lemma grown_on_diagram (F : list addr) (h h' : Heap) (x : addr) subs owned :
  grown_on F h h' →
  collections h !! x = Some (DiagramEventCollection subs owned) ↔
  collections h' !! x = Some (DiagramEventCollection subs owned).
Proof.
  intros (_ & Hout & Hin). destruct (decide (x ∈ F)) as [Hx|Hx].
  - destruct (Hin x Hx) as (? & ? & ? & ? & -> & ->). done.
  - by rewrite (Hout x Hx).
Qed.

Lemma grown_on_leaf (F : list addr) (h h' : Heap) (x : addr) :
  grown_on F h h' →
  (∃ owned evs, collections h !! x = Some (LeafEventCollection owned evs)) ↔
  (∃ owned evs, collections h' !! x = Some (LeafEventCollection owned evs)).
Proof.
  intros (_ & Hout & Hin). destruct (decide (x ∈ F)) as [Hx|Hx].
  - destruct (Hin x Hx) as (? & ? & ? & ? & -> & ->). split; eauto.
  - by rewrite (Hout x Hx).
Qed.

Lemma grown_on_trans (F1 F2 : list addr) (h1 h2 h3 : Heap) :
  grown_on F1 h1 h2 → grown_on F2 h2 h3 → grown_on (F1 ++ F2) h1 h3.
Proof.
  intros H12 H23.
  pose proof H12 as (Hsub12 & Hout12 & Hin12).
  pose proof H23 as (Hsub23 & Hout23 & Hin23).
  split; [by etrans|]. split.
  - intros x Hx. apply not_elem_of_app in Hx as [Hx1 Hx2].
    by rewrite Hout23, Hout12.
  - intros x Hx.
    assert (Hleaf : ∃ owned evs,
              collections h1 !! x = Some (LeafEventCollection owned evs)).
    { apply elem_of_app in Hx as [Hx|Hx].
      - destruct (Hin12 x Hx) as (? & ? & ? & ? & ? & ?). eauto.
      - apply (grown_on_leaf _ _ _ x H12).
        destruct (Hin23 x Hx) as (? & ? & ? & ? & ? & ?). eauto. }
    destruct Hleaf as (owned & evs & Hleaf). exists owned, evs.
    assert (Hleaf3 : ∃ owned' evs',
              collections h3 !! x = Some (LeafEventCollection owned' evs')).
    { apply (grown_on_leaf _ _ _ x H23), (grown_on_leaf _ _ _ x H12). eauto. }
    destruct Hleaf3 as (owned' & evs' & Hleaf3). by exists owned', evs'.
Qed.

Lemma int_sized_lookup (h : Heap) (x : addr) subs owned :
  int_sized h →
  collections h !! x = Some (DiagramEventCollection subs owned) →
  Z.of_nat (length subs) < 2 ^ 31.
Proof. intros Hint Hx. exact (map_Forall_lookup_1 _ _ _ _ Hint Hx). Qed.

Lemma int_sized_grown (F : list addr) (h h' : Heap) :
  grown_on F h h' → int_sized h → int_sized h'.
Proof.
  intros Hg Hint x [owned evs|subs owned] Hx; [done|]. cbn.
  eapply int_sized_lookup; [exact Hint|].
  by apply (grown_on_diagram _ _ _ _ _ _ Hg).
Qed.

Lemma leaves_grown (F : list addr) (h h' : Heap) (depth : nat) :
  grown_on F h h' → ∀ y, leaves depth h' y = leaves depth h y.
Proof.
  intros Hg. induction depth as [|depth IH]; intros y; [done|].
  rewrite !leaves_S.
  destruct (collections h !! y) as [[owned evs|subs owned]|] eqn:Hy.
  - destruct (proj1 (grown_on_leaf _ _ _ y Hg)) as (? & ? & ->); [eauto|done].
  - rewrite (proj1 (grown_on_diagram _ _ _ y _ _ Hg) Hy).
    f_equal. apply list_fmap_ext. intros i [p|] Hi; [apply IH | done].
  - destruct (collections h' !! y) as [[owned evs|subs owned]|] eqn:Hy'; [| |done].
    + destruct (proj2 (grown_on_leaf _ _ _ y Hg)) as (? & ? & ?); [eauto|congruence].
    + apply (grown_on_diagram _ _ _ _ _ _ Hg) in Hy'. congruence.
Qed.

(** A merge into the leaves [F] leaves the contents of every hierarchy that
    has no leaf in [F] as they were. *)
Lemma contents_grown (F : list addr) (h h' : Heap) (depth : nat) :
  grown_on F h h' →
  ∀ y t,
    contents depth h y = Some t →
    (∀ x, x ∈ leaves depth h y → x ∉ F) →
    contents depth h' y = Some t.
Proof.
  intros Hg. pose proof Hg as (Hsub & Hout & Hin).
  induction depth as [|depth IH]; intros y t; [done|].
  rewrite !contents_S, leaves_S.
  destruct (collections h !! y) as [[owned evs|subs owned]|] eqn:Hy; [| |done].
  - intros Ht Hdisj. rewrite Hout by (apply Hdisj; left). rewrite Hy.
    apply fmap_Some in Ht as (A & HA & ->). apply fmap_Some. exists A. split; [|done].
    apply mapM_Some in HA. apply mapM_Some.
    eapply Forall2_impl; [exact HA|]. intros e ev He.
    exact (lookup_weaken _ _ _ _ He Hsub).
  - intros Ht Hdisj. rewrite (proj1 (grown_on_diagram _ _ _ y _ _ Hg) Hy).
    apply fmap_Some in Ht as (ts & Hts & ->). apply fmap_Some. exists ts. split; [|done].
    apply mapM_Some in Hts. apply mapM_Some.
    clear Hy. induction Hts as [|sub t subs ts Ht _ IHs]; constructor.
    + destruct sub as [p|]; [|done]. cbn in *. apply IH; [done|].
      intros x Hx. apply Hdisj. cbn. apply elem_of_app. by left.
    + apply IHs. intros x Hx. apply Hdisj. cbn. apply elem_of_app. by right.
Qed.

(** ** Merging hierarchies *)

Lemma merge_spec_leaf_inv (A : list Event) (u r : Contents) :
  merge_spec (LeafContents A) u = Some r →
  ∃ B, u = LeafContents B ∧ r = LeafContents (A ++ B).
Proof. destruct u as [B|us]; cbn; [|done]. intros [= <-]. eauto. Qed.

Lemma merge_spec_diagram_inv (ts : list Contents) (u r : Contents) :
  merge_spec (DiagramContents ts) u = Some r →
  ∃ us rs, u = DiagramContents us ∧ r = DiagramContents rs ∧
           Forall3 (λ t u r, merge_spec t u = Some r) ts us rs.
Proof.
  destruct u as [B|us]; cbn; [done|].
  intros H. apply fmap_Some in H as (rs & Hrs & ->).
  exists us, rs. split; [done|]. split; [done|]. by apply zip_mapM_Some.
Qed.

Lemma contents_slots_grown (F : list addr) (h h' : Heap) (depth : nat)
    (subs : list (option addr)) (ts : list Contents) :
  grown_on F h h' →
  Forall2 (λ sub t, sub ≫= contents depth h = Some t) subs ts →
  (∀ x, x ∈ concat (from_option (leaves depth h) [] <$> subs) → x ∉ F) →
  Forall2 (λ sub t, sub ≫= contents depth h' = Some t) subs ts.
Proof.
  intros Hg. induction 1 as [|sub t subs ts Ht _ IH]; intros Hdisj; constructor.
  - destruct sub as [p|]; [|done]. cbn in *.
    eapply contents_grown; [exact Hg | exact Ht |].
    intros x Hx. apply Hdisj. apply elem_of_app. by left.
  - apply IH. intros x Hx. apply Hdisj. cbn. apply elem_of_app. by right.
Qed.

Section diagram_loop.
Variable fuel : nat.

(** The merge of the children, assumed for the recursive calls. *)
Hypothesis merge_children :
  ∀ h this other t u r,
    int_sized h →
    contents fuel h this = Some t →
    contents fuel h other = Some u →
    merge_spec t u = Some r →
    NoDup (leaves fuel h this) →
    (∀ x, x ∈ leaves fuel h this → x ∉ leaves fuel h other) →
    ∃ h', DoAddToEnd fuel this other h = Ok tt h' ∧
          contents fuel h' this = Some r ∧
          grown_on (leaves fuel h this) h h'.

Lemma diagram_DoAddToEnd_loop (ts us rs : list Contents) :
  Forall3 (λ t u r, merge_spec t u = Some r) ts us rs →
  ∀ (subs other_subs pre pre' : list (option addr)) (h : Heap),
    length pre = length pre' →
    int_sized h →
    Forall2 (λ sub t, sub ≫= contents fuel h = Some t) subs ts →
    Forall2 (λ sub u, sub ≫= contents fuel h = Some u) other_subs us →
    NoDup (concat (from_option (leaves fuel h) [] <$> subs)) →
    (∀ x, x ∈ concat (from_option (leaves fuel h) [] <$> subs) →
          x ∉ concat (from_option (leaves fuel h) [] <$> other_subs)) →
    ∃ h',
      for_each (seq (length pre) (length subs)) (λ i,
        match (pre ++ subs) !! i, (pre' ++ other_subs) !! i with
        | Some (Some p), Some (Some q) => DoAddToEnd fuel p q
        | _, _ => undefined
        end) h = Ok tt h' ∧
      Forall2 (λ sub r, sub ≫= contents fuel h' = Some r) subs rs ∧
      grown_on (concat (from_option (leaves fuel h) [] <$> subs)) h h'.
Proof.
  induction 1 as [|t u r ts us rs Hm _ IHl];
    intros subs other_subs pre pre' h Hpre Hint Hs Ho Hnd Hdisj.
  - inversion Hs; inversion Ho; subst. exists h. cbn.
    split; [done|]. split; [constructor | apply grown_on_nil].
  - inversion Hs as [|sub ? subs' ? Hsub Hs']; subst.
    inversion Ho as [|osub ? osubs' ? Hosub Ho']; subst.
    destruct sub as [p|]; [|done]. destruct osub as [q|]; [|done].
    cbn in Hsub, Hosub.
    change (from_option (leaves fuel h) [] <$> Some p :: subs')
      with (leaves fuel h p :: (from_option (leaves fuel h) [] <$> subs')) in *.
    change (from_option (leaves fuel h) [] <$> Some q :: osubs')
      with (leaves fuel h q :: (from_option (leaves fuel h) [] <$> osubs')) in *.
    cbn [concat] in *.
    apply NoDup_app in Hnd as (Hndp & Hprest & Hndrest).
    destruct (merge_children h p q t u r) as (h1 & Hrun1 & Hc1 & Hg1); try done.
    { intros x Hx. specialize (Hdisj x). rewrite !elem_of_app in Hdisj. tauto. }
    assert (Hleaves : ∀ l : list (option addr),
      from_option (leaves fuel h1) [] <$> l = from_option (leaves fuel h) [] <$> l).
    { intros l. apply list_fmap_ext. intros i [y|] _; [|done].
      apply (leaves_grown _ _ _ _ Hg1). }
    destruct (IHl subs' osubs' (pre ++ [Some p]) (pre' ++ [Some q]) h1)
      as (h' & Hrun & Hc & Hg).
    { rewrite !length_app. cbn. lia. }
    { by eapply int_sized_grown. }
    { eapply contents_slots_grown; [exact Hg1 | exact Hs' |].
      intros x Hx Hxp. by apply (Hprest x Hxp). }
    { eapply contents_slots_grown; [exact Hg1 | exact Ho' |].
      intros x Hx Hxp. apply (Hdisj x); rewrite elem_of_app; auto. }
    { by rewrite Hleaves. }
    { rewrite !Hleaves. intros x Hx. specialize (Hdisj x).
      rewrite !elem_of_app in Hdisj. tauto. }
    exists h'. split; [|split].
    + cbn [length seq for_each]. unfold bind at 1.
      rewrite (list_lookup_middle pre _ (Some p)) by done.
      rewrite (list_lookup_middle pre' _ (Some q)) by done.
      rewrite Hrun1.
      rewrite (cons_middle (Some p) pre subs'), (cons_middle (Some q) pre' osubs').
      rewrite !app_assoc.
      replace (S (length pre)) with (length (pre ++ [Some p]))
        by (rewrite length_app; cbn; lia).
      exact Hrun.
    + constructor; [|done]. cbn.
      eapply contents_grown; [exact Hg | exact Hc1 |].
      rewrite Hleaves, (leaves_grown _ _ _ _ Hg1).
      intros x Hxp Hx. by apply (Hprest x Hxp).
    + rewrite Hleaves in Hg. by eapply grown_on_trans.
Qed.
End diagram_loop.

Lemma contents_slots (depth : nat) (h : Heap) (subs : list (option addr))
    (ts : list Contents) :
  mapM (λ subevent, subevent ≫= contents depth h) subs = Some ts ↔
  Forall2 (λ sub t, sub ≫= contents depth h = Some t) subs ts.
Proof. apply mapM_Some. Qed.

(** The merge of two leaves: the sequence of [this], then that of [other]. *)
Lemma DoAddToEnd_leaf_merges (fuel : nat) (h : Heap) (this other : addr)
    owned evs other_owned other_events (A B : list Event) :
  collections h !! this = Some (LeafEventCollection owned evs) →
  collections h !! other = Some (LeafEventCollection other_owned other_events) →
  this ≠ other →
  mapM (λ e, event_objs h !! e) evs = Some A →
  mapM (λ e, event_objs h !! e) other_events = Some B →
  ∃ h', DoAddToEnd (S fuel) this other h = Ok tt h' ∧
        contents (S fuel) h' this = Some (LeafContents (A ++ B)) ∧
        grown_on [this] h h'.
Proof.
  intros Hthis Hother Hne HA HB. rewrite DoAddToEnd_S, Hthis, Hother.
  apply mapM_Some in HA, HB.
  destruct (leaf_DoAddToEnd_loop this other other_events Hne h owned evs Hthis)
    as (clones & h' & Hrun & Hcol & Hsub & Hclones & Hnd).
  { eapply Forall2_Forall_l; [exact HB|]. apply Forall_true. eauto. }
  exists h'. split; [done|]. split; [|split; [done|split]].
  - rewrite contents_S, Hcol, lookup_insert_eq.
    apply fmap_Some. eexists. split; [|done].
    apply mapM_Some, Forall2_app.
    + eapply Forall2_impl; [exact HA|]. intros e ev He.
      exact (lookup_weaken _ _ _ _ He Hsub).
    + apply Forall2_same_length_lookup. split.
      * rewrite (Forall2_length _ _ _ Hclones). by eapply Forall2_length.
      * intros i c ev Hc Hev.
        destruct (Forall2_lookup_l _ _ _ _ _ Hclones Hc) as (e & He & _ & ->).
        destruct (Forall2_lookup_l _ _ _ _ _ HB He) as (ev' & Hev' & ->).
        congruence.
  - intros x Hx. rewrite Hcol, lookup_insert_ne; [done|].
    intros <-. apply Hx. left.
  - intros x Hx. apply list_elem_of_singleton in Hx as ->.
    rewrite Hcol, lookup_insert_eq, Hthis. eauto 10.
Qed.

(** [DoAddToEnd] realises the merge of the specification: when the two
    hierarchies hold [t] and [u], [this] shares no leaf with [other] and has
    no leaf twice, the call returns and [this] holds the merge of [t] and
    [u]; only leaves of [this] were written. *)
Lemma DoAddToEnd_merges (fuel : nat) :
  ∀ (h : Heap) (this other : addr) (t u r : Contents),
    int_sized h →
    contents fuel h this = Some t →
    contents fuel h other = Some u →
    merge_spec t u = Some r →
    NoDup (leaves fuel h this) →
    (∀ x, x ∈ leaves fuel h this → x ∉ leaves fuel h other) →
    ∃ h', DoAddToEnd fuel this other h = Ok tt h' ∧
          contents fuel h' this = Some r ∧
          grown_on (leaves fuel h this) h h'.
Proof.
  induction fuel as [|fuel IH]; intros h this other t u r Hint; [done|].
  rewrite !contents_S, !leaves_S, DoAddToEnd_S.
  destruct (collections h !! this) as [[owned evs|subs owned]|] eqn:Hthis; [| |done].
  - intros Ht Hu Hm _ Hdisj.
    apply fmap_Some in Ht as (A & HA & ->).
    apply merge_spec_leaf_inv in Hm as (B & -> & ->).
    destruct (collections h !! other) as [[oowned oevs|osubs oowned]|] eqn:Hother;
      [| |done].
    2:{ apply fmap_Some in Hu as (? & _ & ?). done. }
    apply fmap_Some in Hu as (B' & HB & [= <-]).
    assert (Hne : this ≠ other).
    { intros ->. apply (Hdisj other); left. }
    destruct (DoAddToEnd_leaf_merges fuel h this other _ _ _ _ A B Hthis Hother Hne HA HB)
      as (h' & Hrun & Hc & Hg).
    rewrite DoAddToEnd_S, Hthis, Hother in Hrun. by exists h'.
  - intros Ht Hu Hm Hnd Hdisj.
    apply fmap_Some in Ht as (ts & Hts & ->).
    apply merge_spec_diagram_inv in Hm as (us & rs & -> & -> & Hm).
    destruct (collections h !! other) as [[oowned oevs|osubs oowned]|] eqn:Hother;
      [| |done].
    1:{ apply fmap_Some in Hu as (? & _ & ?). done. }
    apply fmap_Some in Hu as (us' & Hus & [= <-]).
    apply contents_slots in Hts, Hus.
    assert (Hlen : length subs = length osubs).
    { rewrite (Forall2_length _ _ _ Hts), (Forall2_length _ _ _ Hus).
      clear -Hm. induction Hm; cbn; auto. }
    unfold bind, DRAKE_DEMAND. rewrite Hlen, bool_decide_eq_true_2 by done.
    rewrite <- Hlen. rewrite static_cast_int_small by
      (pose proof (int_sized_lookup _ _ _ _ Hint Hthis); lia).
    rewrite Nat2Z.id.
    destruct (diagram_DoAddToEnd_loop fuel IH ts us rs Hm subs osubs [] [] h)
      as (h' & Hrun & Hc & Hg); try done.
    exists h'. split; [exact Hrun|]. split; [|done].
    rewrite contents_S, (proj1 (grown_on_diagram _ _ _ this _ _ Hg) Hthis).
    apply fmap_Some. exists rs. split; [|done]. by apply contents_slots.
Qed.

(** After a merge the operand holds what it held. *)
Lemma AddToEnd_merges (fuel : nat) (h : Heap) (this other : addr)
    (t u r : Contents) :
  int_sized h →
  contents fuel h this = Some t →
  contents fuel h other = Some u →
  merge_spec t u = Some r →
  NoDup (leaves fuel h this) →
  (∀ x, x ∈ leaves fuel h this → x ∉ leaves fuel h other) →
  ∃ h', AddToEnd fuel this other h = Ok tt h' ∧
        contents fuel h' this = Some r ∧
        contents fuel h' other = Some u.
Proof.
  intros Hint Ht Hu Hm Hnd Hdisj.
  destruct (DoAddToEnd_merges fuel h this other t u r) as (h' & Hrun & Hc & Hg);
    try done.
  exists h'. split; [done|]. split; [done|].
  eapply contents_grown; [exact Hg | exact Hu |].
  intros x Hx Hx'. by apply (Hdisj x).
Qed.

(** Induction on contents, through the lists of children. *)
Lemma Contents_nested_ind (P : Contents → Prop) :
  (∀ A, P (LeafContents A)) →
  (∀ ts, Forall P ts → P (DiagramContents ts)) →
  ∀ t, P t.
Proof.
  intros Hleaf Hdiagram. fix IH 1. intros [A|ts]; [apply Hleaf|].
  apply Hdiagram.
  exact ((fix go (l : list Contents) : Forall P l :=
            match l with
            | [] => Forall_nil_2 P
            | t :: l' => Forall_cons_2 P t l' (IH t) (go l')
            end) ts).
Qed.

Lemma zip_mapM_assoc {A} (f : A → A → option A) (ts : list A) :
  Forall (λ t, ∀ u v, (f t u ≫= λ tu, f tu v) = (f u v ≫= f t)) ts →
  ∀ us vs,
    (zip_mapM f ts us ≫= λ rs, zip_mapM f rs vs)
    = (zip_mapM f us vs ≫= zip_mapM f ts).
Proof.
  induction 1 as [|t ts Ht _ IH]; intros [|u us] [|v vs]; cbn; try done.
  - destruct (f u v); [|done]. by destruct (zip_mapM f us vs).
  - destruct (f t u); [|done]. by destruct (zip_mapM f ts us).
  - specialize (Ht u v). specialize (IH us vs).
    destruct (f t u) as [tu|] eqn:Htu; cbn in Ht.
    + destruct (zip_mapM f ts us) as [rs|] eqn:Hrs; cbn in *.
      * rewrite Ht, IH.
        destruct (f u v) as [uv|]; cbn; [|done].
        by destruct (zip_mapM f us vs) as [ws|]; cbn;
          [|destruct (f t uv)].
      * destruct (f u v) as [uv|]; cbn in *; [|done].
        destruct (zip_mapM f us vs) as [ws|]; cbn in *; [|done].
        rewrite <- IH. by destruct (f t uv).
    + destruct (f u v) as [uv|]; cbn in *; [|done].
      destruct (zip_mapM f us vs) as [ws|]; cbn in *; [|done].
      by rewrite <- Ht.
Qed.

Lemma merge_spec_assoc (t : Contents) :
  ∀ u v, (merge_spec t u ≫= λ tu, merge_spec tu v) = (merge_spec u v ≫= merge_spec t).
Proof.
  induction t as [A|ts IH] using Contents_nested_ind; intros [B|us] [C|vs]; cbn;
    try done.
  - by rewrite app_assoc.
  - by destruct (zip_mapM merge_spec us vs).
  - by destruct (zip_mapM merge_spec ts us).
  - pose proof (zip_mapM_assoc merge_spec ts IH us vs) as Hassoc.
    destruct (zip_mapM merge_spec ts us) as [rs|],
      (zip_mapM merge_spec us vs) as [ws|]; cbn in *;
      first [done | by rewrite Hassoc | by rewrite <- Hassoc].
Qed.

(** C3: merging a leaf that holds the sequence [A] with another leaf that
    holds [B] leaves [A] followed by [B] in the first and [B] in the second;
    merging two hierarchies that hold [t] and [u] leaves in the first the
    merge of [t] and [u], which for diagrams of the same number of children
    is the merge child by child, and [u] in the second; a bundle is merged
    kind by kind; and the merge of sequences is associative:
    [[e1; e2]] with [[e3]] is [[e1; e2; e3]].  The hierarchy merged into
    shares no leaf with the operand and has no leaf twice. *)
Theorem AddToEnd_concatenates :
  (∀ (fuel : nat) (h : Heap) (this other : addr) owned evs other_owned other_events
     (A B : list Event),
     collections h !! this = Some (LeafEventCollection owned evs) →
     collections h !! other = Some (LeafEventCollection other_owned other_events) →
     this ≠ other →
     mapM (λ e, event_objs h !! e) evs = Some A →
     mapM (λ e, event_objs h !! e) other_events = Some B →
     ∃ h', AddToEnd (S fuel) this other h = Ok tt h' ∧
           contents (S fuel) h' this = Some (LeafContents (A ++ B)) ∧
           contents (S fuel) h' other = Some (LeafContents B)) ∧
  (∀ (fuel : nat) (h : Heap) (this other : addr) (t u r : Contents),
     int_sized h →
     contents fuel h this = Some t →
     contents fuel h other = Some u →
     merge_spec t u = Some r →
     NoDup (leaves fuel h this) →
     (∀ x, x ∈ leaves fuel h this → x ∉ leaves fuel h other) →
     ∃ h', AddToEnd fuel this other h = Ok tt h' ∧
           contents fuel h' this = Some r ∧
           contents fuel h' other = Some u) ∧
  (∀ (fuel : nat) (s : Store) (this other : addr) c o
     (t u r : EventKind → Contents),
     composites s !! this = Some c →
     composites s !! other = Some o →
     (∀ k, int_sized (heap_of k s) ∧
           contents fuel (heap_of k s) (events_member k c) = Some (t k) ∧
           contents fuel (heap_of k s) (events_member k o) = Some (u k) ∧
           merge_spec (t k) (u k) = Some (r k) ∧
           NoDup (leaves fuel (heap_of k s) (events_member k c)) ∧
           (∀ x, x ∈ leaves fuel (heap_of k s) (events_member k c) →
                 x ∉ leaves fuel (heap_of k s) (events_member k o))) →
     ∃ s', Composite_AddToEnd fuel this other s = Ok tt s' ∧
           ∀ k, contents fuel (heap_of k s') (events_member k c) = Some (r k) ∧
                contents fuel (heap_of k s') (events_member k o) = Some (u k)) ∧
  (∀ e1 e2 e3 : Event,
     merge_spec (LeafContents [e1; e2]) (LeafContents [e3])
       = Some (LeafContents [e1; e2; e3])) ∧
  (∀ t u v : Contents,
     (merge_spec t u ≫= λ tu, merge_spec tu v) = (merge_spec u v ≫= merge_spec t)).
Proof.
  split; [|split; [|split; [|split]]].
  - intros fuel h this other owned evs oowned oevs A B Hthis Hother Hne HA HB.
    destruct (DoAddToEnd_leaf_merges fuel h this other _ _ _ _ A B Hthis Hother Hne HA HB)
      as (h' & Hrun & Hc & Hg).
    exists h'. split; [done|]. split; [done|].
    eapply contents_grown; [exact Hg | by rewrite contents_S, Hother, HB |].
    rewrite leaves_S, Hother. intros x Hx Hx'.
    apply list_elem_of_singleton in Hx, Hx'. congruence.
  - intros fuel h this other t u r. apply AddToEnd_merges.
  - intros fuel s this other c o t u r Hthis Hother Hk.
    destruct (Hk PublishEvent) as (Hip & Htp & Hup & Hmp & Hnp & Hdp).
    destruct (Hk DiscreteUpdateEvent) as (Hid & Htd & Hud & Hmd & Hnd & Hdd).
    destruct (Hk UnrestrictedUpdateEvent) as (Hiu & Htu & Huu & Hmu & Hnu & Hdu).
    destruct (AddToEnd_merges fuel _ _ _ _ _ _ Hip Htp Hup Hmp Hnp Hdp)
      as (hp & Hrp & Hcp & Hop).
    destruct (AddToEnd_merges fuel _ _ _ _ _ _ Hid Htd Hud Hmd Hnd Hdd)
      as (hd & Hrd & Hcd & Hod).
    destruct (AddToEnd_merges fuel _ _ _ _ _ _ Hiu Htu Huu Hmu Hnu Hdu)
      as (hu & Hru & Hcu & Hou).
    exists (mkStore hp hd hu (composites s)). split.
    + unfold Composite_AddToEnd, composite_at, bind. rewrite Hthis, Hother.
      rewrite (on_heap_Ok PublishEvent
        (AddToEnd fuel (publish_events_ c) (publish_events_ o)) s tt hp Hrp).
      rewrite (on_heap_Ok DiscreteUpdateEvent
        (AddToEnd fuel (discrete_update_events_ c) (discrete_update_events_ o))
        _ tt hd) by exact Hrd.
      by rewrite (on_heap_Ok UnrestrictedUpdateEvent
        (AddToEnd fuel (unrestricted_update_events_ c) (unrestricted_update_events_ o))
        _ tt hu) by exact Hru.
    + by intros [].
  - reflexivity.
  - intros t. apply merge_spec_assoc.
Qed.

(** ** Slots that were never populated *)

(** C10: the constructor of a diagram collection leaves every one of its
    [N] slots null, and no member function checks a slot before it goes
    through it.  On the collection as constructed, for [N > 0], [Clear],
    [HasEvents] and [AddToEnd] (with a diagram collection of the same size)
    dereference the null slot: the behaviour is undefined, there is neither
    an abort nor an exception.  As long as any slot is null, [Clear] and
    [AddToEnd] cannot return and [HasEvents] cannot report [false].  A
    slot is populated by [set_subevent_collection] or by
    [set_and_own_subevent_collection], and with every slot of the hierarchy
    populated [Clear] and [HasEvents] return, and so does [AddToEnd] with an
    operand of the same shape. *)
Theorem operations_need_populated_slots :
  (∀ (N : Z) (h : Heap), 0 ≤ N →
     ∃ this h' subs owned,
       DiagramEventCollection_ctor N h = Ok this h' ∧
       collections h' !! this = Some (DiagramEventCollection subs owned) ∧
       length subs = Z.to_nat N ∧
       ∀ i, (i < Z.to_nat N)%nat → subs !! i = Some None) ∧
  (∀ (N : Z) (h : Heap) (fuel : nat), 0 < N < 2 ^ 31 →
     ∃ this h',
       DiagramEventCollection_ctor N h = Ok this h' ∧
       Clear (S fuel) this h' = Undefined ∧
       HasEvents (S fuel) this h' = Undefined ∧
       ∀ other m, num_subsystems other h' = Ok m h' → m = N →
                  AddToEnd (S fuel) this other h' = Undefined) ∧
  (∀ (fuel : nat) (h : Heap) (this : addr) subs owned,
     collections h !! this = Some (DiagramEventCollection subs owned) →
     None ∈ subs →
     ¬ returns (Clear fuel this h) ∧
     (∀ h', HasEvents fuel this h ≠ Ok false h') ∧
     (Z.of_nat (length subs) < 2 ^ 31 →
      ∀ other, ¬ returns (AddToEnd fuel this other h))) ∧
  (∀ (fuel : nat) (h : Heap) (this : addr) subs owned (i : nat) (p : addr),
     collections h !! this = Some (DiagramEventCollection subs owned) →
     Z.of_nat (length subs) < 2 ^ 31 →
     (i < length subs)%nat →
     set_subevent_collection this (Z.of_nat i) (Some p) h
       = Ok tt (set_collection this
                  (DiagramEventCollection (<[i := Some p]> subs) owned) h) ∧
     (owned !! i = Some None →
      set_and_own_subevent_collection fuel this (Z.of_nat i) (Some p) h
        = Ok tt (set_collection this
                   (DiagramEventCollection (<[i := Some p]> subs)
                                           (<[i := Some p]> owned)) h))) ∧
  (∀ (fuel : nat) (h : Heap) (this : addr),
     populated fuel h this →
     returns (Clear fuel this h) ∧ returns (HasEvents fuel this h)) ∧
  (∀ (fuel : nat) (h : Heap) (this other : addr) (t u r : Contents),
     int_sized h →
     contents fuel h this = Some t →
     contents fuel h other = Some u →
     merge_spec t u = Some r →
     NoDup (leaves fuel h this) →
     (∀ x, x ∈ leaves fuel h this → x ∉ leaves fuel h other) →
     returns (AddToEnd fuel this other h)).
Proof.
  split; [|split; [|split; [|split; [|split]]]].
  - intros N h HN. destruct (DiagramEventCollection_ctor_ok N h HN) as [Hctor _].
    eexists _, _, _, _. split; [exact Hctor|]. cbn. rewrite lookup_insert_eq.
    split; [done|]. split; [apply length_replicate|].
    intros i Hi. by apply lookup_replicate_2.
  - intros N h fuel HN.
    destruct (DiagramEventCollection_ctor_ok N h) as [Hctor _]; [lia|].
    eexists _, _. split; [exact Hctor|].
    destruct (Z.to_nat N) as [|n] eqn:HNn; [lia|].
    rewrite Clear_S, HasEvents_S. cbn. rewrite lookup_insert_eq. cbn.
    split; [done|]. split; [done|].
    intros other m Hm ->. unfold AddToEnd. rewrite DoAddToEnd_S.
    unfold num_subsystems in Hm. cbn in *. rewrite lookup_insert_eq.
    destruct (<[_ := _]> (collections h) !! other) as [[|osubs oowned]|]; try done.
    injection Hm as Hm. cbn [length] in *. rewrite length_replicate. cbn.
    unfold bind, DRAKE_DEMAND.
    rewrite static_cast_int_small in * by lia.
    rewrite bool_decide_eq_true_2 by lia.
    replace (Z.to_nat (Z.of_nat (S n))) with (S n) by lia. reflexivity.
  - intros fuel h this subs owned Hthis Hnone.
    destruct fuel as [|fuel];
      [by repeat split; [intros (? & ? & ?) | | intros _ ? (? & ? & ?)]|].
    split; [|split].
    + rewrite Clear_S, Hthis.
      eapply for_each_not_returns; [exact Hnone|]. apply undefined_not_returns.
    + intros h'. rewrite HasEvents_S, Hthis.
      eapply return_true_if_any_not_false; [exact Hnone|]. apply undefined_not_returns.
    + intros Hlen other. unfold AddToEnd. rewrite DoAddToEnd_S, Hthis.
      destruct (collections h !! other) as [[|osubs oowned]|];
        try by intros (? & ? & ?).
      cbn. unfold bind, DRAKE_DEMAND. case_bool_decide; [|by intros (? & ? & ?)].
      apply list_elem_of_lookup in Hnone as [i Hi].
      eapply for_each_not_returns with (x := i).
      * apply elem_of_seq. apply lookup_lt_Some in Hi.
        rewrite static_cast_int_small by lia. lia.
      * intros s. rewrite Hi. apply undefined_not_returns.
  - intros fuel h this subs owned i p Hthis Hlen Hi.
    split; [by apply set_subevent_collection_ok|]. intros Howned.
    unfold set_and_own_subevent_collection, num_subsystems, bind, DRAKE_DEMAND, ret.
    cbn. rewrite Hthis, static_cast_int_small by lia.
    rewrite !bool_decide_eq_true_2 by lia. cbn.
    rewrite Hthis, Nat2Z.id, Howned. cbn.
    by rewrite lookup_insert_eq, set_collection_twice.
  - intros fuel h this Hpop. split.
    + destruct (Clear_populated _ _ _ Hpop) as [h' H]. by exists tt, h'.
    + destruct (HasEvents_populated _ _ _ Hpop) as [b H]. by exists b, h.
  - intros fuel h this other t u r Hint Ht Hu Hm Hnd Hdisj.
    destruct (AddToEnd_merges fuel h this other t u r) as (h' & H & _); try done.
    by exists tt, h'.
Qed.

(** ** Construction of a diagram bundle *)

Lemma insert_next_slot {A} (g : addr → A) (pre : list addr) (child : addr)
    (m : nat) (d : A) :
  <[length pre := g child]> ((g <$> pre) ++ replicate (S m) d)
  = (g <$> (pre ++ [child])) ++ replicate m d.
Proof.
  rewrite fmap_app. cbn. rewrite <- app_assoc. cbn.
  rewrite insert_app_r_alt by (rewrite length_fmap; lia).
  by rewrite length_fmap, Nat.sub_diag.
Qed.

Lemma with_diagram_bundle_heap (s : Store) (this : addr) c owned slots k :
  heap_of k (with_diagram_bundle s this c owned slots)
  = set_collection (events_member k c)
      (DiagramEventCollection (slots k) owned) (heap_of k s).
Proof. by destruct k. Qed.

Lemma alias_slot_ok (s : Store) (this : addr) c owned (pre : list addr) (m : nat)
    (k : EventKind) (child : addr) (slots slots' : EventKind → list (option addr)) :
  composites s !! this = None →
  is_Some (composites s !! child) →
  Z.of_nat (length pre + S m) < 2 ^ 31 →
  slots k = aliased_slots s pre (S m) k →
  slots' k = aliased_slots s (pre ++ [child]) m k →
  (∀ k', k' ≠ k → slots' k' = slots k') →
  alias_slot k this (length pre) (Some child)
    (with_diagram_bundle s this c owned slots)
  = Ok tt (with_diagram_bundle s this c owned slots').
Proof.
  intros Hfresh [cc Hchild] Hlen Hslots Hslots' Hother.
  assert (Hne : this ≠ child) by congruence.
  unfold alias_slot, get_events_of_kind, composite_at, bind, ret.
  cbn [composites with_diagram_bundle].
  rewrite lookup_insert_eq. cbn [composites with_diagram_bundle].
  rewrite lookup_insert_ne, Hchild by done.
  assert (Hlen' : length (slots k) = (length pre + S m)%nat).
  { rewrite Hslots. unfold aliased_slots.
    by rewrite length_app, length_fmap, length_replicate. }
  erewrite on_heap_Ok; cycle 1.
  { rewrite with_diagram_bundle_heap.
    rewrite static_cast_int_small by lia.
    apply set_subevent_collection_ok.
    - cbn. by rewrite lookup_insert_eq.
    - lia.
    - lia. }
  f_equal. rewrite set_collection_twice.
  assert (Hk : <[length pre := Some (events_member k cc)]> (slots k) = slots' k).
  { rewrite Hslots, Hslots'. unfold aliased_slots.
    replace (events_member k cc) with (slot_target s k child)
      by (unfold slot_target; by rewrite Hchild).
    apply (insert_next_slot (λ child, Some (slot_target s k child))). }
  rewrite Hk.
  destruct k; unfold with_diagram_bundle, set_heap; cbn;
    rewrite ?(Hother PublishEvent), ?(Hother DiscreteUpdateEvent),
      ?(Hother UnrestrictedUpdateEvent) by done; done.
Qed.

Lemma alias_loop (s : Store) (this : addr) c owned (pre : list addr) :
  composites s !! this = None →
  ∀ m : nat,
    Forall (λ b, is_Some (composites s !! b)) pre →
    Z.of_nat (length pre + m) < 2 ^ 31 →
    for_each (imap pair (Some <$> pre)) (λ '(i, child),
      alias_slot PublishEvent this i child ;;;
      alias_slot DiscreteUpdateEvent this i child ;;;
      alias_slot UnrestrictedUpdateEvent this i child)
      (with_diagram_bundle s this c owned (aliased_slots s [] (length pre + m)))
    = Ok tt (with_diagram_bundle s this c owned (aliased_slots s pre m)).
Proof.
  intros Hfresh.
  induction pre as [|child pre IH] using rev_ind; intros m Hlive Hlen.
  - done.
  - apply Forall_app in Hlive as [Hlive Hchild].
    apply Forall_cons in Hchild as [Hchild _].
    rewrite length_app in *. cbn [length] in *.
    rewrite fmap_app, imap_app, for_each_app. unfold bind at 1.
    replace (length pre + 1 + m)%nat with (length pre + S m)%nat by lia.
    rewrite (IH (S m)) by (first [done | lia]).
    cbn. rewrite length_fmap, Nat.add_0_r. unfold bind.
    assert (Hlen' : Z.of_nat (length pre + S m) < 2 ^ 31) by lia.
    set (slots1 := λ k, if decide (k = PublishEvent)
                        then aliased_slots s (pre ++ [child]) m k
                        else aliased_slots s pre (S m) k).
    set (slots2 := λ k, if decide (k = UnrestrictedUpdateEvent)
                        then aliased_slots s pre (S m) k
                        else aliased_slots s (pre ++ [child]) m k).
    rewrite (alias_slot_ok s this c owned pre m PublishEvent child
               (aliased_slots s pre (S m)) slots1 Hfresh Hchild Hlen' eq_refl eq_refl)
      by (by intros [] ?).
    rewrite (alias_slot_ok s this c owned pre m DiscreteUpdateEvent child
               slots1 slots2 Hfresh Hchild Hlen' eq_refl eq_refl)
      by (by intros [] ?).
    rewrite (alias_slot_ok s this c owned pre m UnrestrictedUpdateEvent child
               slots2 (aliased_slots s (pre ++ [child]) m) Hfresh Hchild Hlen'
               eq_refl eq_refl)
      by (by intros [] ?).
    done.
Qed.

Lemma DiagramCompositeEventCollection_ctor_ok (fuel : nat) (children : list addr)
    (s : Store) :
  Z.of_nat (length children) < 2 ^ 31 →
  Forall (λ b, is_Some (composites s !! b)) children →
  let this := fresh (dom (composites s)) in
  let c := mkComposite
             (fresh (dom (collections (publish_heap s))))
             (fresh (dom (collections (discrete_update_heap s))))
             (fresh (dom (collections (unrestricted_update_heap s))))
             (DiagramCompositeEventCollection (Some <$> children)) in
  DiagramCompositeEventCollection_ctor fuel (Some <$> children) s
  = Ok this (with_diagram_bundle s this c (replicate (length children) None)
               (aliased_slots s children 0)).
Proof.
  intros Hlen Hlive this c.
  assert (Hfresh : composites s !! this = None) by apply not_elem_of_dom, is_fresh.
  unfold DiagramCompositeEventCollection_ctor.
  rewrite length_fmap, static_cast_int_small by lia.
  unfold vector_size_of_int, DiagramEventCollection_ctor, vector_size_of_int.
  rewrite decide_True by lia. rewrite Nat2Z.id.
  unfold bind at 1. unfold on_heap at 1, new_collection at 1.
  unfold bind at 1. unfold on_heap at 1, new_collection at 1.
  unfold bind at 1. unfold on_heap at 1, new_collection at 1.
  cbn [heap_of set_heap publish_heap discrete_update_heap unrestricted_update_heap
       composites].
  unfold bind at 1. unfold CompositeEventCollection_ctor, DRAKE_DEMAND, bind at 1 2 3.
  cbn [bool_decide decide_rel]. rewrite !bool_decide_eq_true_2 by done.
  unfold new_composite.
  cbn [heap_of set_heap publish_heap discrete_update_heap unrestricted_update_heap
       composites set_composites].
  fold this. fold c.
  pose proof (alias_loop s this c (replicate (length children) None) children
                Hfresh 0 Hlive) as Hloop.
  rewrite Nat.add_0_r in Hloop. unfold bind, ret in Hloop |- *.
  change (set_composites _ _) with
    (with_diagram_bundle s this c (replicate (length children) None)
       (aliased_slots s [] (length children))).
  rewrite Hloop by lia. reflexivity.
Qed.

(** C2: the constructor of a diagram bundle over [N] child bundles returns;
    it has made the bundle and three diagram collections of [N] slots, and
    nothing else: no event and no other collection is made or changed.  For
    every child index [i] and every kind [k], slot [i] of the bundle's
    collection of kind [k] and the collection of kind [k] of child bundle
    [i] are the same object of the same heap, so that each event is stored
    once and an event added through the child bundle is there when read
    through the slot. *)
Theorem DiagramCompositeEventCollection_aliases_children
    (fuel : nat) (children : list addr) (s : Store) :
  Z.of_nat (length children) < 2 ^ 31 →
  Forall (λ b, is_Some (composites s !! b)) children →
  ∃ this c s',
    DiagramCompositeEventCollection_ctor fuel (Some <$> children) s = Ok this s' ∧
    composites s !! this = None ∧
    composites s' = <[this := c]> (composites s) ∧
    derived_class c = DiagramCompositeEventCollection (Some <$> children) ∧
    (∀ k,
       collections (heap_of k s) !! events_member k c = None ∧
       event_objs (heap_of k s') = event_objs (heap_of k s) ∧
       collections (heap_of k s')
         = <[events_member k c :=
               DiagramEventCollection
                 ((λ child, Some (slot_target s k child)) <$> children)
                 (replicate (length children) None)]>
             (collections (heap_of k s))) ∧
    (∀ k (i : nat) child,
       children !! i = Some child →
       ∃ a,
         (let* sub := get_events_of_kind k this in
          on_heap k (get_subevent_collection sub (Z.of_nat i))) s' = Ok a s' ∧
         (let* b := Composite_get_subevent_collection this (Z.of_nat i) in
          get_events_of_kind k b) s' = Ok a s' ∧
         ∀ e s2,
           add_event_of_kind k child (Some e) s' = Ok tt s2 →
           ∃ owned evs,
             collections (heap_of k s') !! a = Some (LeafEventCollection owned evs) ∧
             (let* sub := get_events_of_kind k this in
              let* slot := on_heap k (get_subevent_collection sub (Z.of_nat i)) in
              on_heap k (get_events slot)) s2 = Ok (evs ++ [e]) s2).
Proof.
  intros Hlen Hlive.
  pose proof (DiagramCompositeEventCollection_ctor_ok fuel children s Hlen Hlive)
    as Hctor. cbn zeta in Hctor.
  set (this := fresh (dom (composites s))) in *.
  set (c := mkComposite _ _ _ _) in *.
  set (s' := with_diagram_bundle _ _ _ _ _) in *.
  assert (Hfresh : composites s !! this = None) by apply not_elem_of_dom, is_fresh.
  assert (Hfreshk : ∀ k, collections (heap_of k s) !! events_member k c = None)
    by (intros []; apply not_elem_of_dom, is_fresh).
  assert (Hslots : ∀ k, aliased_slots s children 0 k
            = (λ child, Some (slot_target s k child)) <$> children)
    by (intros k; unfold aliased_slots; cbn; by rewrite app_nil_r).
  assert (Hcell : ∀ k, collections (heap_of k s') !! events_member k c
            = Some (DiagramEventCollection
                      ((λ child, Some (slot_target s k child)) <$> children)
                      (replicate (length children) None))).
  { intros k. unfold s'. rewrite with_diagram_bundle_heap. cbn.
    by rewrite lookup_insert_eq, Hslots. }
  exists this, c, s'. split; [exact Hctor|]. split; [exact Hfresh|].
  split; [done|]. split; [done|]. split.
  { intros k. split; [apply Hfreshk|]. unfold s'.
    rewrite with_diagram_bundle_heap. cbn. by rewrite Hslots. }
  assert (Hcomps : composites s' = <[this := c]> (composites s)) by done.
  clearbody s'.
  intros k i child Hi.
  assert (Hilt : (i < length children)%nat) by by eapply lookup_lt_Some.
  assert (Hchild : is_Some (composites s !! child)).
  { rewrite Forall_forall in Hlive. apply Hlive, list_elem_of_lookup. eauto. }
  destruct Hchild as [cc Hcc].
  assert (Hne : this ≠ child) by congruence.
  assert (Hcc' : composites s' !! child = Some cc)
    by (by rewrite Hcomps, lookup_insert_ne).
  assert (Hthis' : composites s' !! this = Some c)
    by (by rewrite Hcomps, lookup_insert_eq).
  assert (Htarget : slot_target s k child = events_member k cc)
    by (unfold slot_target; by rewrite Hcc).
  assert (Hslot : ∀ h,
    collections h !! events_member k c
      = Some (DiagramEventCollection
                ((λ child, Some (slot_target s k child)) <$> children)
                (replicate (length children) None)) →
    get_subevent_collection (events_member k c) (Z.of_nat i) h
      = Ok (events_member k cc) h).
  { intros h Hh. unfold get_subevent_collection, num_subsystems, bind, DRAKE_DEMAND.
    rewrite Hh, length_fmap, static_cast_int_small by lia.
    rewrite !bool_decide_eq_true_2 by lia. cbn. rewrite Hh, Nat2Z.id.
    by rewrite list_lookup_fmap, Hi, <- Htarget. }
  exists (events_member k cc). split; [|split].
  - unfold get_events_of_kind, composite_at, bind, ret. rewrite Hthis'.
    apply on_heap_const, Hslot, Hcell.
  - unfold Composite_get_subevent_collection, Composite_num_subsystems,
      get_events_of_kind, composite_at, bind, ret, DRAKE_DEMAND.
    rewrite Hthis'. cbn [derived_class c]. rewrite length_fmap.
    rewrite static_cast_int_small by lia.
    rewrite !bool_decide_eq_true_2 by lia. cbn. rewrite Hthis'. cbn.
    rewrite Nat2Z.id, list_lookup_fmap, Hi. cbn. by rewrite Hcc'.
  - intros e s2.
    unfold add_event_of_kind, get_events_of_kind, composite_at, bind, ret,
      DRAKE_DEMAND. cbn. rewrite Hcc'. unfold on_heap at 1.
    destruct (collections (heap_of k s') !! events_member k cc)
      as [[owned evs|? ?]|] eqn:Hleaf; [|done..].
    unfold add_event. rewrite Hleaf. cbn. intros [= <-].
    exists owned, evs. split; [done|].
    rewrite composites_set_heap, Hthis'. cbn.
    assert (Hnek : events_member k c ≠ events_member k cc).
    { intros Heq. rewrite <- Heq, Hcell in Hleaf. done. }
    set (h2 := set_collection (events_member k cc) _ (heap_of k s')).
    rewrite (on_heap_Ok k _ _ (events_member k cc) h2); cycle 1.
    { rewrite heap_of_set_heap. apply Hslot. unfold h2. cbn.
      rewrite lookup_insert_ne by done. apply Hcell. }
    rewrite (on_heap_Ok k _ _ (evs ++ [e]) h2); cycle 1.
    { rewrite heap_of_set_heap. unfold get_events, h2. cbn.
      by rewrite lookup_insert_eq. }
    f_equal. destruct k; reflexivity.
Qed.

(** * Instances *)

(** C2 on the two leaf bundles: the diagram bundle over them is made, and
    slot 0 of its collection of publish events is the collection of publish
    events of the first leaf bundle. *)
Lemma DiagramCompositeEventCollection_aliases_children_witness :
  Z.of_nat (length [0%nat; 1%nat]) < 2 ^ 31 ∧
  Forall (λ b, is_Some (composites two_leaf_bundles !! b)) [0%nat; 1%nat] ∧
  ∃ this s',
    DiagramCompositeEventCollection_ctor 1 [Some 0%nat; Some 1%nat] two_leaf_bundles
      = Ok this s' ∧
    ∃ a,
      (let* sub := get_publish_events this in
       on_heap PublishEvent (get_subevent_collection sub 0)) s' = Ok a s' ∧
      (let* b := Composite_get_subevent_collection this 0 in
       get_publish_events b) s' = Ok a s'.
Proof.
  assert (H1 : Z.of_nat (length [0%nat; 1%nat]) < 2 ^ 31) by (cbn; lia).
  assert (H2 : Forall (λ b, is_Some (composites two_leaf_bundles !! b)) [0%nat; 1%nat])
    by (repeat constructor; vm_compute; eauto).
  split; [exact H1|]. split; [exact H2|].
  destruct (DiagramCompositeEventCollection_aliases_children 1 [0%nat; 1%nat]
              two_leaf_bundles H1 H2)
    as (this & c & s' & Hctor & _ & _ & _ & _ & Halias).
  exists this, s'. split; [exact Hctor|].
  destruct (Halias PublishEvent 0%nat 0%nat eq_refl) as (a & Ha & Hb & _).
  exists a. split; [exact Ha | exact Hb].
Defined.

(** C3 on the two diagram collections: 4, over leaves that hold one event
    each, is merged with 5, of the same shape. *)
Lemma AddToEnd_concatenates_witness :
  int_sized two_diagrams ∧
  NoDup (leaves 2 two_diagrams 4%nat) ∧
  (∀ x, x ∈ leaves 2 two_diagrams 4%nat → x ∉ leaves 2 two_diagrams 5%nat) ∧
  ∃ h',
    AddToEnd 2 4%nat 5%nat two_diagrams = Ok tt h' ∧
    contents 2 h' 4%nat
      = Some (DiagramContents
                [LeafContents [mkEvent kPeriodic (Some 1%nat) None;
                               mkEvent kForced (Some 3%nat) None];
                 LeafContents [mkEvent kPerStep (Some 2%nat) None;
                               mkEvent kPeriodic (Some 4%nat) None]]) ∧
    contents 2 h' 5%nat
      = Some (DiagramContents
                [LeafContents [mkEvent kForced (Some 3%nat) None];
                 LeafContents [mkEvent kPeriodic (Some 4%nat) None]]).
Proof.
  assert (H1 : int_sized two_diagrams)
    by (apply (bool_decide_unpack _); vm_compute; reflexivity).
  assert (E4 : leaves 2 two_diagrams 4%nat = [0%nat; 1%nat])
    by (vm_compute; reflexivity).
  assert (E5 : leaves 2 two_diagrams 5%nat = [2%nat; 3%nat])
    by (vm_compute; reflexivity).
  assert (H2 : NoDup (leaves 2 two_diagrams 4%nat)).
  { rewrite E4. apply (bool_decide_unpack _). vm_compute. reflexivity. }
  assert (H3 : ∀ x, x ∈ leaves 2 two_diagrams 4%nat → x ∉ leaves 2 two_diagrams 5%nat).
  { rewrite E4, E5. apply Forall_forall.
    apply (bool_decide_unpack _). vm_compute. reflexivity. }
  split; [exact H1|]. split; [exact H2|]. split; [exact H3|].
  eapply (proj1 (proj2 AddToEnd_concatenates) 2%nat two_diagrams 4%nat 5%nat);
    [exact H1 | vm_compute; reflexivity | vm_compute; reflexivity
    | vm_compute; reflexivity | exact H2 | exact H3].
Defined.

(** C5 on the two leaf bundles: [SetFrom] returns, and so does [Clear]
    followed by [AddToEnd], with the same store. *)
Lemma SetFrom_is_Clear_then_AddToEnd_witness :
  ∃ s',
    Composite_SetFrom 1 0%nat 1%nat two_leaf_bundles = Ok tt s' ∧
    (Composite_Clear 1 0%nat ;;; Composite_AddToEnd 1 0%nat 1%nat) two_leaf_bundles
      = Ok tt s'.
Proof.
  eexists. split; [vm_compute; reflexivity|].
  apply (proj1 (proj2 SetFrom_is_Clear_then_AddToEnd 1%nat 0%nat 1%nat
                  two_leaf_bundles _)).
  vm_compute. reflexivity.
Defined.

(** C6 on the diagram collection 4 of [two_diagrams]. *)
Lemma Clear_then_HasEvents_false_witness :
  populated 2 two_diagrams 4%nat ∧
  ∃ h', Clear 2 4%nat two_diagrams = Ok tt h' ∧
        ∀ d, descendant h' 4%nat d → HasEvents 2 d h' = Ok false h'.
Proof.
  assert (H : populated 2 two_diagrams 4%nat) by (vm_compute; repeat constructor).
  split; [exact H|].
  exact (proj1 Clear_then_HasEvents_false 2%nat two_diagrams 4%nat H).
Defined.

(** C7 on the two leaves: a diagram collection of two slots over an empty
    leaf and a leaf with one event. *)
Lemma populated_diagram_num_subsystems_and_HasEvents_witness :
  0 ≤ 2 < 2 ^ 31 ∧
  Z.of_nat (length [0%nat; 1%nat]) = 2 ∧
  Forall2 (λ p b, HasEvents 1 p two_leaves = Ok b two_leaves)
    [0%nat; 1%nat] [false; true] ∧
  ∃ this h',
    make_populated 2 [0%nat; 1%nat] two_leaves = Ok this h' ∧
    num_subsystems this h' = Ok 2 h' ∧
    Forall2 (λ p b, HasEvents 1 p h' = Ok b h') [0%nat; 1%nat] [false; true] ∧
    HasEvents 2 this h' = Ok true h'.
Proof.
  assert (H1 : 0 ≤ 2 < 2 ^ 31) by lia.
  assert (H2 : Z.of_nat (length [0%nat; 1%nat]) = 2) by reflexivity.
  assert (H3 : Forall2 (λ p b, HasEvents 1 p two_leaves = Ok b two_leaves)
                 [0%nat; 1%nat] [false; true])
    by (repeat constructor; vm_compute; reflexivity).
  split; [exact H1|]. split; [exact H2|]. split; [exact H3|].
  exact (populated_diagram_num_subsystems_and_HasEvents 2 [0%nat; 1%nat]
           [false; true] 1%nat two_leaves H1 H2 H3).
Defined.

(** C8 on the two leaves: the empty leaf 0 is merged with the leaf 1. *)
Lemma AddToEnd_leaf_appends_clones_witness :
  collections two_leaves !! 0%nat = Some (LeafEventCollection [] []) ∧
  collections two_leaves !! 1%nat = Some (LeafEventCollection [0%nat] [0%nat]) ∧
  0%nat ≠ 1%nat ∧
  Forall (λ e, is_Some (event_objs two_leaves !! e)) [0%nat] ∧
  ∃ clones h',
    AddToEnd 1 0%nat 1%nat two_leaves = Ok tt h' ∧
    collections h' !! 0%nat = Some (LeafEventCollection clones clones) ∧
    collections h' !! 1%nat = Some (LeafEventCollection [0%nat] [0%nat]) ∧
    Forall2 (λ c e, event_objs two_leaves !! c = None ∧
                    event_objs h' !! c = event_objs two_leaves !! e) clones [0%nat].
Proof.
  assert (H1 : collections two_leaves !! 0%nat = Some (LeafEventCollection [] []))
    by (vm_compute; reflexivity).
  assert (H2 : collections two_leaves !! 1%nat
               = Some (LeafEventCollection [0%nat] [0%nat]))
    by (vm_compute; reflexivity).
  assert (H3 : 0%nat ≠ 1%nat) by lia.
  assert (H4 : Forall (λ e, is_Some (event_objs two_leaves !! e)) [0%nat])
    by (repeat constructor; vm_compute; eauto).
  split; [exact H1|]. split; [exact H2|]. split; [exact H3|]. split; [exact H4|].
  destruct (AddToEnd_leaf_appends_clones 0 two_leaves 0%nat 1%nat [] [] [0%nat] [0%nat]
              H1 H2 H3 H4)
    as (clones & h' & Hrun & Hcol & Hother & Hclones & _).
  exists clones, h'. split; [exact Hrun|]. split; [|split; [exact Hother | exact Hclones]].
  rewrite Hcol. apply lookup_insert_eq.
Defined.

(** C10 for [N = 2]: the collection as constructed, on which [Clear],
    [HasEvents] and [AddToEnd] with itself are undefined. *)
Lemma operations_need_populated_slots_witness :
  0 < 2 < 2 ^ 31 ∧
  ∃ this h',
    DiagramEventCollection_ctor 2 empty_heap = Ok this h' ∧
    Clear 1 this h' = Undefined ∧
    HasEvents 1 this h' = Undefined ∧
    AddToEnd 1 this this h' = Undefined.
Proof.
  assert (H : 0 < 2 < 2 ^ 31) by lia.
  split; [exact H|].
  destruct (proj1 (proj2 operations_need_populated_slots) 2 empty_heap 0%nat H)
    as (this & h' & Hctor & Hclear & Hhas & Hadd).
  exists this, h'. split; [exact Hctor|]. split; [exact Hclear|]. split; [exact Hhas|].
  injection Hctor as <- <-. apply (Hadd _ 2); [vm_compute; reflexivity | reflexivity].
Defined.

(** The scenario of the specification, run: the merged bundle has publish
    events and no unrestricted update event; child 0 holds [A] and child 1
    holds [C] as publish events, child 2 holds no publish event and holds [B]
    as discrete update event. *)
Lemma end_to_end_scenario_runs :
  ∃ first s,
    end_to_end_scenario empty_store = Ok first s ∧
    HasPublishEvents 2 first s = Ok true s ∧
    HasUnrestrictedUpdateEvents 2 first s = Ok false s ∧
    child_contents PublishEvent first 0 s = Some (LeafContents [event_A]) ∧
    child_contents PublishEvent first 1 s = Some (LeafContents [event_C]) ∧
    child_contents PublishEvent first 2 s = Some (LeafContents []) ∧
    child_contents DiscreteUpdateEvent first 2 s = Some (LeafContents [event_B]).
Proof.
  eexists _, _. split; [vm_compute; reflexivity|].
  repeat split; vm_compute; reflexivity.
Qed.

(** * Further properties of the code *)

(** ** Merging collections of different classes *)

(** X1: [AddToEnd] between a leaf collection and a diagram collection, in
    either order, throws [std::bad_cast] and has written nothing; so does
    the bundle's [AddToEnd] when the collections of publish events of the two
    bundles are of different classes, as for a leaf bundle and a diagram
    bundle. *)
Theorem AddToEnd_class_mismatch_throws :
  (∀ (fuel : nat) (h : Heap) (this other : addr) owned evs subs sowned,
     (collections h !! this = Some (LeafEventCollection owned evs) ∧
      collections h !! other = Some (DiagramEventCollection subs sowned)) ∨
     (collections h !! this = Some (DiagramEventCollection subs sowned) ∧
      collections h !! other = Some (LeafEventCollection owned evs)) →
     AddToEnd (S fuel) this other h = Throw bad_cast h) ∧
  (∀ (fuel : nat) (s : Store) (this other : addr) c o owned evs subs sowned,
     composites s !! this = Some c →
     composites s !! other = Some o →
     (collections (publish_heap s) !! publish_events_ c
        = Some (LeafEventCollection owned evs) ∧
      collections (publish_heap s) !! publish_events_ o
        = Some (DiagramEventCollection subs sowned)) ∨
     (collections (publish_heap s) !! publish_events_ c
        = Some (DiagramEventCollection subs sowned) ∧
      collections (publish_heap s) !! publish_events_ o
        = Some (LeafEventCollection owned evs)) →
     Composite_AddToEnd (S fuel) this other s = Throw bad_cast s).
Proof.
  assert (Hhom : ∀ (fuel : nat) (h : Heap) (this other : addr) owned evs subs sowned,
     (collections h !! this = Some (LeafEventCollection owned evs) ∧
      collections h !! other = Some (DiagramEventCollection subs sowned)) ∨
     (collections h !! this = Some (DiagramEventCollection subs sowned) ∧
      collections h !! other = Some (LeafEventCollection owned evs)) →
     AddToEnd (S fuel) this other h = Throw bad_cast h).
  { intros fuel h this other owned evs subs sowned [[Ht Ho]|[Ht Ho]];
      unfold AddToEnd; by rewrite DoAddToEnd_S, Ht, Ho. }
  split; [exact Hhom|].
  intros fuel s this other c o owned evs subs sowned Hc Ho Hcells.
  unfold Composite_AddToEnd, composite_at, bind. rewrite Hc, Ho.
  unfold on_heap at 1. cbn [heap_of].
  rewrite (Hhom fuel (publish_heap s) _ _ owned evs subs sowned Hcells).
  by destruct s.
Qed.

Lemma AddToEnd_class_mismatch_throws_witness :
  AddToEnd 1 0%nat 2%nat diagram_over_two_leaves
    = Throw bad_cast diagram_over_two_leaves ∧
  AddToEnd 1 2%nat 0%nat diagram_over_two_leaves
    = Throw bad_cast diagram_over_two_leaves.
Proof.
  split.
  - eapply (proj1 AddToEnd_class_mismatch_throws 0%nat diagram_over_two_leaves
              0%nat 2%nat).
    left. split; vm_compute; reflexivity.
  - eapply (proj1 AddToEnd_class_mismatch_throws 0%nat diagram_over_two_leaves
              2%nat 0%nat).
    right. split; vm_compute; reflexivity.
Defined.

(** ** The slots of a diagram collection *)

Lemma get_subevent_collection_ok (h : Heap) (this : addr) subs owned (i : nat)
    (p : addr) :
  collections h !! this = Some (DiagramEventCollection subs owned) →
  Z.of_nat (length subs) < 2 ^ 31 →
  subs !! i = Some (Some p) →
  get_subevent_collection this (Z.of_nat i) h = Ok p h.
Proof.
  intros Hthis Hlen Hi. pose proof (lookup_lt_Some _ _ _ Hi).
  unfold get_subevent_collection, num_subsystems, bind, DRAKE_DEMAND.
  rewrite Hthis, static_cast_int_small by lia.
  rewrite !bool_decide_eq_true_2 by lia. cbn.
  by rewrite Hthis, Nat2Z.id, Hi.
Qed.

(** X2: what [set_subevent_collection] stores in slot [i], at an index in
    range, is what [get_subevent_collection] returns for [i]; the other slots
    return what they returned, [num_subsystems()] is the same, and no other
    collection and no event is touched. *)
Theorem set_then_get_subevent_collection (h : Heap) (this : addr) subs owned
    (i : nat) (p : addr) :
  collections h !! this = Some (DiagramEventCollection subs owned) →
  Z.of_nat (length subs) < 2 ^ 31 →
  (i < length subs)%nat →
  ∃ h',
    set_subevent_collection this (Z.of_nat i) (Some p) h = Ok tt h' ∧
    get_subevent_collection this (Z.of_nat i) h' = Ok p h' ∧
    get_mutable_subevent_collection this (Z.of_nat i) h' = Ok p h' ∧
    (∀ (j : nat) q, j ≠ i →
       get_subevent_collection this (Z.of_nat j) h = Ok q h →
       get_subevent_collection this (Z.of_nat j) h' = Ok q h') ∧
    (∀ n, num_subsystems this h = Ok n h → num_subsystems this h' = Ok n h') ∧
    (∀ x, x ≠ this → collections h' !! x = collections h !! x) ∧
    event_objs h' = event_objs h.
Proof.
  intros Hthis Hlen Hi.
  eexists. split; [by apply set_subevent_collection_ok|].
  set (h' := set_collection _ _ _).
  assert (Hthis' : collections h' !! this
            = Some (DiagramEventCollection (<[i := Some p]> subs) owned))
    by (unfold h'; cbn; by rewrite lookup_insert_eq).
  assert (Hframe : ∀ x, x ≠ this → collections h' !! x = collections h !! x)
    by (intros x Hx; unfold h'; cbn; by rewrite lookup_insert_ne).
  assert (Hev : event_objs h' = event_objs h) by done.
  clearbody h'.
  assert (Hget : get_subevent_collection this (Z.of_nat i) h' = Ok p h').
  { eapply get_subevent_collection_ok; [exact Hthis' | by rewrite length_insert |].
    by apply list_lookup_insert_eq. }
  split; [exact Hget|]. split; [exact Hget|]. split; [|split; [|split]].
  - intros j q Hj.
    unfold get_subevent_collection, num_subsystems, bind, DRAKE_DEMAND. cbn.
    rewrite Hthis, Hthis', length_insert.
    destruct (bool_decide (0 ≤ Z.of_nat j) &&
              bool_decide (Z.of_nat j < static_cast_int (Z.of_nat (length subs))));
      [|done].
    cbn. rewrite Hthis, Hthis', Nat2Z.id, list_lookup_insert_ne by done.
    by destruct (subs !! j) as [[?|]|]; [intros [= ->]|..].
  - intros n. unfold num_subsystems. rewrite Hthis, Hthis', length_insert.
    by intros [= ->].
  - exact Hframe.
  - exact Hev.
Qed.

Lemma set_then_get_subevent_collection_witness :
  ∃ h',
    set_subevent_collection 2%nat 0 (Some 1%nat) diagram_over_two_leaves = Ok tt h' ∧
    get_subevent_collection 2%nat 0 h' = Ok 1%nat h' ∧
    get_subevent_collection 2%nat 1 h' = Ok 1%nat h'.
Proof.
  destruct (set_then_get_subevent_collection diagram_over_two_leaves 2%nat
              [Some 0%nat; Some 1%nat] [None; Some 1%nat] 0%nat 1%nat)
    as (h' & Hset & Hget & _ & Hothers & _).
  - vm_compute. reflexivity.
  - cbn. lia.
  - cbn. lia.
  - exists h'. split; [exact Hset|]. split; [exact Hget|].
    apply (Hothers 1%nat 1%nat); [lia|]. vm_compute. reflexivity.
Defined.

(** X3: the slot operations check their arguments before they touch
    anything: a null collection makes [set_subevent_collection] and
    [set_and_own_subevent_collection] abort, and an index outside
    [0, num_subsystems()) makes these two and [get_subevent_collection]
    abort; the heap at the abort is the heap of the call. *)
Theorem slot_operations_demand_their_arguments (fuel : nat) (h : Heap)
    (this : addr) (n : Z) :
  num_subsystems this h = Ok n h →
  (∀ index, set_subevent_collection this index None h = Abort h ∧
            set_and_own_subevent_collection fuel this index None h = Abort h) ∧
  (∀ index p, ¬ (0 ≤ index < n) →
     set_subevent_collection this index (Some p) h = Abort h ∧
     set_and_own_subevent_collection fuel this index (Some p) h = Abort h ∧
     get_subevent_collection this index h = Abort h).
Proof.
  intros Hn. split.
  - intros index. split; reflexivity.
  - intros index p Hout.
    assert (Hdemand : bool_decide (0 ≤ index) && bool_decide (index < n) = false).
    { apply andb_false_iff. destruct (decide (0 ≤ index)).
      - right. apply bool_decide_eq_false_2. lia.
      - left. by apply bool_decide_eq_false_2. }
    unfold set_subevent_collection, set_and_own_subevent_collection,
      get_subevent_collection, bind, DRAKE_DEMAND. cbn.
    by rewrite Hn, Hdemand.
Qed.

Lemma slot_operations_demand_their_arguments_witness :
  num_subsystems 2%nat diagram_over_two_leaves = Ok 2 diagram_over_two_leaves ∧
  set_subevent_collection 2%nat 2 (Some 0%nat) diagram_over_two_leaves
    = Abort diagram_over_two_leaves ∧
  get_subevent_collection 2%nat (-1) diagram_over_two_leaves
    = Abort diagram_over_two_leaves.
Proof.
  assert (H : num_subsystems 2%nat diagram_over_two_leaves
              = Ok 2 diagram_over_two_leaves) by (vm_compute; reflexivity).
  split; [exact H|].
  destruct (slot_operations_demand_their_arguments 0 _ _ _ H) as [_ Hout].
  split.
  - apply (Hout 2 0%nat). lia.
  - apply (Hout (-1) 0%nat). lia.
Defined.

(** X4: [set_and_own_subevent_collection] on a slot that already owns a leaf
    collection destroys that collection and the events it owns, and installs
    the new collection as the owned one and as the one
    [get_subevent_collection] returns; every other collection and every
    other event is as it was. *)
Theorem set_and_own_subevent_collection_replaces (fuel : nat) (h : Heap)
    (this : addr) subs owned (i : nat) (p q : addr) q_owned q_events :
  collections h !! this = Some (DiagramEventCollection subs owned) →
  Z.of_nat (length subs) < 2 ^ 31 →
  (i < length subs)%nat →
  owned !! i = Some (Some q) →
  q ≠ this →
  collections h !! q = Some (LeafEventCollection q_owned q_events) →
  ∃ h',
    set_and_own_subevent_collection (S fuel) this (Z.of_nat i) (Some p) h = Ok tt h' ∧
    collections h' !! this
      = Some (DiagramEventCollection (<[i := Some p]> subs) (<[i := Some p]> owned)) ∧
    get_subevent_collection this (Z.of_nat i) h' = Ok p h' ∧
    collections h' !! q = None ∧
    (∀ e, e ∈ q_owned → event_objs h' !! e = None) ∧
    (∀ e, e ∉ q_owned → event_objs h' !! e = event_objs h !! e) ∧
    (∀ x, x ≠ this → x ≠ q → collections h' !! x = collections h !! x).
Proof.
  intros Hthis Hlen Hi Howned Hq Hqcell.
  eexists. split.
  { unfold set_and_own_subevent_collection, num_subsystems, bind, DRAKE_DEMAND, ret.
    cbn. rewrite Hthis, static_cast_int_small by lia.
    rewrite !bool_decide_eq_true_2 by lia. cbn.
    rewrite Hthis, Nat2Z.id, Howned. cbn.
    rewrite lookup_insert_ne, Hqcell by done. cbn.
    rewrite lookup_delete_ne, lookup_insert_eq by done. reflexivity. }
  cbn.
  assert (Hthis' : <[this := DiagramEventCollection (<[i := Some p]> subs)
                               (<[i := Some p]> owned)]>
             (delete q (<[this := DiagramEventCollection subs
                                    (<[i := Some p]> owned)]> (collections h)))
             !! this
           = Some (DiagramEventCollection (<[i := Some p]> subs)
                     (<[i := Some p]> owned)))
    by apply lookup_insert_eq.
  split; [exact Hthis'|]. split; [|split; [|split; [|split]]].
  - eapply get_subevent_collection_ok; [exact Hthis' | by rewrite length_insert |].
    by apply list_lookup_insert_eq.
  - rewrite lookup_insert_ne by done. apply lookup_delete_eq.
  - intros e He. by apply lookup_foldr_delete.
  - intros e He. by apply lookup_foldr_delete_not_elem_of.
  - intros x Hx Hxq. by rewrite lookup_insert_ne, lookup_delete_ne, lookup_insert_ne.
Qed.

Lemma set_and_own_subevent_collection_replaces_witness :
  ∃ h',
    set_and_own_subevent_collection 1 1%nat 0 (Some 2%nat) diagram_owning_a_leaf
      = Ok tt h' ∧
    get_subevent_collection 1%nat 0 h' = Ok 2%nat h' ∧
    collections h' !! 0%nat = None ∧
    event_objs h' !! 0%nat = None ∧
    event_objs h' !! 1%nat = None.
Proof.
  destruct (set_and_own_subevent_collection_replaces 0 diagram_owning_a_leaf
              1%nat [Some 0%nat] [Some 0%nat] 0%nat 2%nat 0%nat
              [0%nat; 1%nat] [0%nat; 1%nat])
    as (h' & Hrun & _ & Hget & Hgone & Hevents & _).
  - vm_compute. reflexivity.
  - cbn. lia.
  - cbn. lia.
  - reflexivity.
  - lia.
  - vm_compute. reflexivity.
  - exists h'. split; [exact Hrun|]. split; [exact Hget|]. split; [exact Hgone|].
    split; apply Hevents; set_solver.
Defined.

(** ** Adding events to a leaf collection *)

(** X5: events added to a leaf collection by successive calls of
    [add_event] are kept in the order of the calls, after the events that
    were there: [get_events] returns the former sequence followed by the
    added ones, [HasEvents] is [true] as soon as one was added, and no other
    collection and no event object is touched.  A null event aborts the call
    and changes nothing. *)
Theorem add_event_keeps_insertion_order (fuel : nat) (h : Heap) (this : addr)
    owned evs (added : list addr) :
  collections h !! this = Some (LeafEventCollection owned evs) →
  add_event this None h = Abort h ∧
  ∃ h',
    for_each added (λ e, add_event this (Some e)) h = Ok tt h' ∧
    get_events this h' = Ok (evs ++ added) h' ∧
    HasEvents (S fuel) this h' = Ok (negb (bool_decide (evs ++ added = []))) h' ∧
    collections h'
      = <[this := LeafEventCollection (owned ++ added) (evs ++ added)]> (collections h) ∧
    event_objs h' = event_objs h.
Proof.
  intros Hthis. split; [unfold add_event; by rewrite Hthis|].
  revert h owned evs Hthis.
  induction added as [|e added IH]; intros h owned evs Hthis.
  - exists h. rewrite !app_nil_r. split; [done|].
    unfold get_events. rewrite HasEvents_S, Hthis.
    repeat split; try done. by rewrite insert_id.
  - destruct (IH (set_collection this
                    (LeafEventCollection (owned ++ [e]) (evs ++ [e])) h)
                (owned ++ [e]) (evs ++ [e]))
      as (h' & Hrun & Hget & Hhas & Hcol & Hev).
    { cbn. by rewrite lookup_insert_eq. }
    exists h'. cbn [for_each]. unfold bind, add_event at 1. rewrite Hthis. cbn.
    rewrite <- !app_assoc in *. cbn in *.
    split; [exact Hrun|]. split; [exact Hget|]. split; [exact Hhas|].
    split; [|done]. by rewrite Hcol, insert_insert_eq.
Qed.

Lemma add_event_keeps_insertion_order_witness :
  collections leaf_and_two_events !! 0%nat = Some (LeafEventCollection [] []) ∧
  ∃ h',
    for_each [1%nat; 0%nat] (λ e, add_event 0%nat (Some e)) leaf_and_two_events
      = Ok tt h' ∧
    get_events 0%nat h' = Ok [1%nat; 0%nat] h' ∧
    HasEvents 1 0%nat h' = Ok true h'.
Proof.
  assert (H : collections leaf_and_two_events !! 0%nat
              = Some (LeafEventCollection [] []))
    by (vm_compute; reflexivity).
  split; [exact H|].
  destruct (proj2 (add_event_keeps_insertion_order 0 leaf_and_two_events 0%nat
                     [] [] [1%nat; 0%nat] H))
    as (h' & Hrun & Hget & Hhas & _).
  exists h'. split; [exact Hrun|]. split; [exact Hget | exact Hhas].
Defined.

(** ** What [HasEvents] reports *)

Lemma HasEvents_contents (fuel : nat) :
  ∀ (h : Heap) (this : addr) (t : Contents),
    contents fuel h this = Some t →
    HasEvents fuel this h = Ok (holds_events t) h.
Proof.
  induction fuel as [|fuel IH]; intros h this t; [done|].
  rewrite contents_S, HasEvents_S.
  destruct (collections h !! this) as [[owned evs|subs owned]|]; [| |done].
  - intros Ht. apply fmap_Some in Ht as (A & HA & ->).
    apply mapM_Some, Forall2_length in HA. by destruct evs, A.
  - intros Ht. apply fmap_Some in Ht as (ts & Hts & ->).
    apply contents_slots in Hts. cbn. clear owned.
    induction Hts as [|sub t subs ts Ht _ IHs]; [done|].
    destruct sub as [p|]; [|done]. cbn in *. unfold bind.
    rewrite (IH _ _ _ Ht). destruct (holds_events t); [done | exact IHs].
Qed.

Lemma holds_events_merge_spec (t : Contents) :
  ∀ u r, merge_spec t u = Some r →
         holds_events r = holds_events t || holds_events u.
Proof.
  induction t as [A|ts IH] using Contents_nested_ind; intros u r Hm.
  - apply merge_spec_leaf_inv in Hm as (B & -> & ->). by destruct A, B.
  - apply merge_spec_diagram_inv in Hm as (us & rs & -> & -> & Hm). cbn.
    induction Hm as [|t u r ts us rs Hr _ IHm]; [done|].
    apply Forall_cons in IH as [Ht IH]. cbn.
    rewrite (Ht _ _ Hr), (IHm IH).
    by destruct (holds_events t), (holds_events u), (existsb holds_events ts).
Qed.

(** X6: [HasEvents] reports [true] exactly when the hierarchy holds an
    event: for a collection whose contents are [t] it returns whether some
    leaf of [t] has a non-empty sequence, without changing the heap; so does
    [HasPublishEvents] and its siblings for the member of a bundle. *)
Theorem HasEvents_reports_contents :
  (∀ (fuel : nat) (h : Heap) (this : addr) (t : Contents),
     contents fuel h this = Some t →
     HasEvents fuel this h = Ok (holds_events t) h) ∧
  (∀ (fuel : nat) (k : EventKind) (s : Store) (this : addr) c (t : Contents),
     composites s !! this = Some c →
     contents fuel (heap_of k s) (events_member k c) = Some t →
     has_events_of_kind k fuel this s = Ok (holds_events t) s).
Proof.
  split; [intros fuel; apply HasEvents_contents|].
  intros fuel k s this c t Hc Ht.
  unfold has_events_of_kind, composite_at, bind. rewrite Hc.
  by apply on_heap_const, HasEvents_contents.
Qed.

Lemma HasEvents_reports_contents_witness :
  HasEvents 2 4%nat two_diagrams = Ok true two_diagrams.
Proof.
  eapply (proj1 HasEvents_reports_contents 2%nat two_diagrams 4%nat
            (DiagramContents [LeafContents [_]; LeafContents [_]])).
  vm_compute. reflexivity.
Defined.

(** X7: after [AddToEnd], [this] has events exactly when [this] or [other]
    had events before, and [other] reports what it reported. *)
Theorem HasEvents_after_AddToEnd (fuel : nat) (h : Heap) (this other : addr)
    (t u r : Contents) :
  int_sized h →
  contents fuel h this = Some t →
  contents fuel h other = Some u →
  merge_spec t u = Some r →
  NoDup (leaves fuel h this) →
  (∀ x, x ∈ leaves fuel h this → x ∉ leaves fuel h other) →
  ∃ b1 b2 h',
    HasEvents fuel this h = Ok b1 h ∧
    HasEvents fuel other h = Ok b2 h ∧
    AddToEnd fuel this other h = Ok tt h' ∧
    HasEvents fuel this h' = Ok (b1 || b2) h' ∧
    HasEvents fuel other h' = Ok b2 h'.
Proof.
  intros Hint Ht Hu Hm Hnd Hdisj.
  destruct (AddToEnd_merges fuel h this other t u r) as (h' & Hrun & Hr & Hu');
    try done.
  exists (holds_events t), (holds_events u), h'.
  split; [by apply HasEvents_contents|]. split; [by apply HasEvents_contents|].
  split; [done|]. rewrite <- (holds_events_merge_spec _ _ _ Hm).
  split; by apply HasEvents_contents.
Qed.

Lemma HasEvents_after_AddToEnd_witness :
  ∃ b1 b2 h',
    HasEvents 1 0%nat two_leaves = Ok b1 two_leaves ∧
    HasEvents 1 1%nat two_leaves = Ok b2 two_leaves ∧
    AddToEnd 1 0%nat 1%nat two_leaves = Ok tt h' ∧
    HasEvents 1 0%nat h' = Ok (b1 || b2) h' ∧
    HasEvents 1 1%nat h' = Ok b2 h'.
Proof.
  eapply (HasEvents_after_AddToEnd 1 two_leaves 0%nat 1%nat).
  - apply (bool_decide_unpack _). vm_compute. reflexivity.
  - vm_compute. reflexivity.
  - vm_compute. reflexivity.
  - vm_compute. reflexivity.
  - apply (bool_decide_unpack _). vm_compute. reflexivity.
  - assert (E0 : leaves 1 two_leaves 0%nat = [0%nat]) by (vm_compute; reflexivity).
    assert (E1 : leaves 1 two_leaves 1%nat = [1%nat]) by (vm_compute; reflexivity).
    rewrite E0, E1. apply Forall_forall.
    apply (bool_decide_unpack _). vm_compute. reflexivity.
Defined.

(** ** What the operations never do *)

Lemma only_appended_refl (h : Heap) : only_appended h h.
Proof.
  split; [done|]. intros x.
  destruct (collections h !! x) as [[|]|]; constructor; cbn; auto.
Qed.

Lemma only_appended_trans (h1 h2 h3 : Heap) :
  only_appended h1 h2 → only_appended h2 h3 → only_appended h1 h3.
Proof.
  intros [Hs12 H12] [Hs23 H23]. split; [by etrans|].
  intros x. specialize (H12 x). specialize (H23 x).
  destruct H12 as [c1 c2 H12|]; inversion H23 as [c2' c3 H23'|]; subst;
    constructor.
  destruct c1, c2, c3; cbn in *; try done.
  - destruct H12, H23'. split; by etrans.
  - destruct H12 as [-> ->], H23' as [-> ->]. auto.
Qed.

Lemma for_each_state_rel {S A} (R : S → S → Prop) (l : list A)
    (body : A → M S unit) :
  (∀ s, R s s) →
  (∀ s1 s2 s3, R s1 s2 → R s2 s3 → R s1 s3) →
  (∀ x s s', state_of (body x s) = Some s' → R s s') →
  ∀ s s', state_of (for_each l body s) = Some s' → R s s'.
Proof.
  intros Hrefl Htrans Hbody.
  induction l as [|x l IH]; intros s s'; cbn.
  - intros [= <-]. apply Hrefl.
  - unfold bind. destruct (body x s) as [[] s1|e s1|s1| |] eqn:Hx; cbn; try done.
    + intros Hrest. eapply Htrans; [|by apply IH]. apply Hbody with x. by rewrite Hx.
    + intros [= <-]. apply Hbody with x. by rewrite Hx.
    + intros [= <-]. apply Hbody with x. by rewrite Hx.
Qed.

Lemma clone_and_add_only_appends (this other_event : addr) (h h' : Heap) :
  state_of ((let* c := Clone other_event in add_event this (Some c)) h) = Some h' →
  only_appended h h'.
Proof.
  unfold bind, Clone. destruct (event_objs h !! other_event) as [ev|]; [|done].
  unfold new_event. set (c := fresh (dom (event_objs h))).
  assert (Hc : event_objs h !! c = None) by apply not_elem_of_dom, is_fresh.
  unfold add_event. cbn.
  destruct (collections h !! this) as [[owned evs|subs owned]|] eqn:Hthis; cbn;
    [| |done].
  - intros [= <-]. split; [by apply insert_subseteq|]. intros x. cbn.
    destruct (decide (x = this)) as [->|Hx].
    + rewrite lookup_insert_eq, Hthis. constructor. cbn.
      split; by apply prefix_app_r.
    + rewrite lookup_insert_ne by done. apply (only_appended_refl h).
  - intros [= <-]. split.
    + cbn. by rewrite delete_insert_eq, delete_id.
    + apply (only_appended_refl h).
Qed.

(** X8: whatever [AddToEnd] does, return, throw or abort half way, it has
    only added: every event object that existed is still there and
    unchanged, every diagram collection has the slots it had, every leaf
    collection has its former events as a prefix of its events, and no
    collection was made or deleted. *)
Theorem AddToEnd_only_appends (fuel : nat) :
  ∀ (this other : addr) (h h' : Heap),
    state_of (AddToEnd fuel this other h) = Some h' → only_appended h h'.
Proof.
  unfold AddToEnd.
  induction fuel as [|fuel IH]; intros this other h h'; [done|].
  rewrite DoAddToEnd_S.
  destruct (collections h !! this) as [[owned evs|subs owned]|],
    (collections h !! other) as [[oowned oevs|osubs oowned]|]; cbn; try done;
    try (intros [= <-]; apply only_appended_refl).
  - apply for_each_state_rel;
      [apply only_appended_refl | apply only_appended_trans |].
    intros e s s'. destruct (decide (this = other)); [done|].
    apply clone_and_add_only_appends.
  - unfold bind, DRAKE_DEMAND. case_bool_decide; cbn;
      [|intros [= <-]; apply only_appended_refl].
    apply for_each_state_rel;
      [apply only_appended_refl | apply only_appended_trans |].
    intros i s s'.
    destruct (subs !! i) as [[p|]|]; [|done..].
    destruct (osubs !! i) as [[q|]|]; [|done..]. apply IH.
Qed.

Lemma AddToEnd_only_appends_witness :
  ∃ h', state_of (AddToEnd 2 4%nat 5%nat two_diagrams) = Some h' ∧
        only_appended two_diagrams h'.
Proof.
  eexists. split; [vm_compute; reflexivity|].
  apply (AddToEnd_only_appends 2 4%nat 5%nat). vm_compute. reflexivity.
Defined.

Lemma for_each_fails {S A} (l : list A) (body : A → M S unit) :
  (∀ x s, ¬ fails (body x s)) → ∀ s, ¬ fails (for_each l body s).
Proof.
  intros Hbody. induction l as [|x l IH]; intros s; cbn; [by intros []|].
  unfold bind. specialize (Hbody x s). by destruct (body x s).
Qed.

(** X9: [Clear] and [HasEvents] have no error path: on no heap and for no
    collection do they throw or abort. *)
Theorem Clear_and_HasEvents_do_not_fail (fuel : nat) :
  ∀ (this : addr) (h : Heap),
    ¬ fails (Clear fuel this h) ∧ ¬ fails (HasEvents fuel this h).
Proof.
  induction fuel as [|fuel IH]; intros this h; [split; exact id|].
  rewrite Clear_S, HasEvents_S.
  destruct (collections h !! this) as [[owned evs|subs owned]|];
    [split; exact id| |split; exact id].
  split.
  - apply for_each_fails. intros [p|] s; [apply IH | exact id].
  - clear owned. induction subs as [|[p|] subs IHs]; cbn; [exact id| |exact id].
    unfold bind. pose proof (proj2 (IH p h)) as Hp.
    destruct (HasEvents fuel p h) as [[] h1| | | |] eqn:Hh; try done; try exact id.
    apply HasEvents_const in Hh as ->. exact IHs.
Qed.

Lemma Clear_and_HasEvents_do_not_fail_witness :
  ¬ fails (Clear 2 4%nat two_diagrams) ∧ ¬ fails (HasEvents 2 4%nat two_diagrams).
Proof. exact (Clear_and_HasEvents_do_not_fail 2 4%nat two_diagrams). Defined.

(** ** What [Clear] does to the heap *)

Lemma leaves_emptied (h h' : Heap) (depth : nat) :
  emptied h h' → ∀ y, leaves depth h' y = leaves depth h y.
Proof.
  intros He. induction depth as [|depth IH]; intros y; [done|].
  rewrite !leaves_S. pose proof (He y) as Hy.
  destruct Hy as [c c' Hc|]; [|done].
  destruct c as [owned evs|subs owned], c' as [owned' evs'|subs' owned'];
    cbn in Hc; try done.
  destruct Hc as [-> _]. f_equal. apply list_fmap_ext.
  intros i [p|] Hi; [apply IH | done].
Qed.

Lemma cleared_on_compose (F1 F2 : list addr) (h h1 h' : Heap) :
  cleared_on F1 (F1 ≫= leaf_owned h) h h1 →
  cleared_on F2 (F2 ≫= leaf_owned h1) h1 h' →
  cleared_on (F1 ++ F2) ((F1 ++ F2) ≫= leaf_owned h) h h'.
Proof.
  intros (Ha1 & Hb1 & Hc1 & Hd1) (Ha2 & Hb2 & Hc2 & Hd2).
  assert (Hown : ∀ x, leaf_owned h1 x = if decide (x ∈ F1) then [] else leaf_owned h x).
  { intros x. unfold leaf_owned. case_decide as Hx.
    - by rewrite (proj2 (Hb1 x Hx)).
    - by rewrite (Ha1 x Hx). }
  assert (Hsub : ∀ e, e ∈ F2 ≫= leaf_owned h1 → e ∈ F2 ≫= leaf_owned h).
  { intros e He. apply list_elem_of_bind in He as (x & He & Hx).
    apply list_elem_of_bind. exists x. split; [|done].
    rewrite Hown in He. case_decide; [by apply not_elem_of_nil in He | done]. }
  split; [|split; [|split]].
  - intros x Hx. apply not_elem_of_app in Hx as [Hx1 Hx2].
    by rewrite Ha2, Ha1.
  - intros x Hx. destruct (decide (x ∈ F2)) as [Hx2|Hx2].
    + split; [|by apply Hb2]. destruct (decide (x ∈ F1)) as [Hx1|Hx1].
      * by apply Hb1.
      * rewrite <- (Ha1 x Hx1). by apply Hb2.
    + apply elem_of_app in Hx as [Hx1|?]; [|done].
      split; [by apply Hb1|]. rewrite Ha2 by done. by apply Hb1.
  - intros e He. destruct (decide (e ∈ F2 ≫= leaf_owned h1)) as [He2|He2];
      [by apply Hc2|].
    rewrite Hd2 by done.
    destruct (decide (e ∈ F1 ≫= leaf_owned h)) as [He1|He1]; [by apply Hc1|].
    exfalso. apply list_elem_of_bind in He as (x & He & Hx).
    apply elem_of_app in Hx as [Hx|Hx].
    + apply He1, list_elem_of_bind. eauto.
    + destruct (decide (x ∈ F1)) as [Hx1|Hx1].
      * apply He1, list_elem_of_bind. eauto.
      * apply He2, list_elem_of_bind. exists x. split; [|done].
        rewrite Hown. by rewrite decide_False.
  - intros e He.
    assert (He1 : e ∉ F1 ≫= leaf_owned h).
    { intros Hin. apply He. rewrite bind_app. apply elem_of_app. by left. }
    assert (He2 : e ∉ F2 ≫= leaf_owned h1).
    { intros Hin. apply He. rewrite bind_app. apply elem_of_app. right. by apply Hsub. }
    by rewrite Hd2, Hd1.
Qed.

Lemma Clear_cleared_on (fuel : nat) :
  ∀ (this : addr) (h h' : Heap),
    Clear fuel this h = Ok tt h' →
    cleared_on (leaves fuel h this) (owned_below fuel h this) h h'.
Proof.
  unfold owned_below.
  induction fuel as [|fuel IH]; intros this h h'; [done|].
  rewrite Clear_S, leaves_S.
  destruct (collections h !! this) as [[owned evs|subs owned]|] eqn:Hthis; try done.
  - intros [= <-]. cbn. unfold leaf_owned. rewrite Hthis, app_nil_r.
    split; [|split; [|split]]; cbn.
    + intros x Hx. rewrite lookup_insert_ne; [done|]. intros <-. apply Hx. left.
    + intros x Hx. apply list_elem_of_singleton in Hx as ->.
      rewrite lookup_insert_eq. eauto.
    + intros e He. by apply lookup_foldr_delete.
    + intros e He. by apply lookup_foldr_delete_not_elem_of.
  - clear Hthis owned. revert h.
    induction subs as [|[p|] subs IHs]; intros h; cbn; [| |done].
    + intros [= <-]. split; [done|].
      split; [intros x Hx; by apply not_elem_of_nil in Hx|].
      split; [intros e He; by apply not_elem_of_nil in He | done].
    + unfold bind. destruct (Clear fuel p h) as [[] h1| | | |] eqn:Hp; try done.
      intros Hrest. pose proof (proj1 (Clear_returns _ _ _ _ Hp)) as He.
      apply IH in Hp. apply IHs in Hrest.
      replace ((λ subevent, from_option (leaves fuel h1) [] subevent) <$> subs)
        with ((λ subevent, from_option (leaves fuel h) [] subevent) <$> subs)
        in Hrest.
      2:{ apply list_fmap_ext. intros i [q|] _; [|done]. cbn.
          symmetry. by apply leaves_emptied. }
      by apply cleared_on_compose with h1.
Qed.

(** X10: [Clear] on a populated hierarchy touches what is below it and
    nothing else: the leaves below are left empty, the events they owned are
    destroyed, and every other collection, diagram collections included, and
    every other event is as it was. *)
Theorem Clear_destroys_what_is_below (fuel : nat) (h : Heap) (this : addr) :
  populated fuel h this →
  ∃ h',
    Clear fuel this h = Ok tt h' ∧
    (∀ x, x ∈ leaves fuel h this →
          collections h' !! x = Some (LeafEventCollection [] [])) ∧
    (∀ x, x ∉ leaves fuel h this → collections h' !! x = collections h !! x) ∧
    (∀ e, e ∈ owned_below fuel h this → event_objs h' !! e = None) ∧
    (∀ e, e ∉ owned_below fuel h this → event_objs h' !! e = event_objs h !! e).
Proof.
  intros Hpop. destruct (Clear_populated _ _ _ Hpop) as [h' Hclear].
  exists h'. split; [done|].
  destruct (Clear_cleared_on _ _ _ _ Hclear) as (Ha & Hb & Hc & Hd).
  split; [|done]. intros x Hx. by apply Hb.
Qed.

Lemma Clear_destroys_what_is_below_witness :
  populated 2 two_diagrams 4%nat ∧
  ∃ h',
    Clear 2 4%nat two_diagrams = Ok tt h' ∧
    collections h' !! 0%nat = Some (LeafEventCollection [] []) ∧
    collections h' !! 2%nat = collections two_diagrams !! 2%nat ∧
    event_objs h' !! 1%nat = None ∧
    event_objs h' !! 3%nat = event_objs two_diagrams !! 3%nat.
Proof.
  assert (H : populated 2 two_diagrams 4%nat) by (vm_compute; repeat constructor).
  split; [exact H|].
  destruct (Clear_destroys_what_is_below 2 two_diagrams 4%nat H)
    as (h' & Hclear & Hin & Hout & Hgone & Hkept).
  assert (E : leaves 2 two_diagrams 4%nat = [0%nat; 1%nat])
    by (vm_compute; reflexivity).
  assert (O : owned_below 2 two_diagrams 4%nat = [0%nat; 1%nat])
    by (vm_compute; reflexivity).
  rewrite E in Hin, Hout. rewrite O in Hgone, Hkept.
  exists h'. split; [exact Hclear|].
  split; [apply Hin; apply (bool_decide_unpack _); vm_compute; reflexivity|].
  split; [apply Hout; apply (bool_decide_unpack _); vm_compute; reflexivity|].
  split; [apply Hgone; apply (bool_decide_unpack _); vm_compute; reflexivity|].
  apply Hkept. apply (bool_decide_unpack _). vm_compute. reflexivity.
Defined.

Lemma Clear_of_empty (fuel : nat) :
  ∀ (this : addr) (h : Heap),
    populated fuel h this →
    (∀ x, x ∈ leaves fuel h this →
          collections h !! x = Some (LeafEventCollection [] [])) →
    Clear fuel this h = Ok tt h.
Proof.
  induction fuel as [|fuel IH]; intros this h; [done|].
  rewrite Clear_S, leaves_S. cbn.
  destruct (collections h !! this) as [[owned evs|subs owned]|] eqn:Hthis; try done.
  - intros _ Hempty. specialize (Hempty this). rewrite Hthis in Hempty.
    injection (Hempty ltac:(left)) as -> ->.
    unfold set_collection, delete_events. cbn.
    rewrite insert_id by done. by destruct h.
  - clear Hthis owned. induction subs as [|[p|] subs IHs]; intros Hpop Hempty; cbn.
    + done.
    + apply Forall_cons in Hpop as [Hp Hpop]. unfold bind.
      rewrite IH; [|done|].
      * apply IHs; [done|]. intros x Hx. apply Hempty. cbn.
        apply elem_of_app. by right.
      * intros x Hx. apply Hempty. cbn. apply elem_of_app. by left.
    + by apply Forall_cons in Hpop as [? _].
Qed.

(** X11: clearing twice is clearing once: on the heap a [Clear] leaves, a
    second [Clear] of the same hierarchy returns and changes nothing. *)
Theorem Clear_twice (fuel : nat) (h : Heap) (this : addr) :
  populated fuel h this →
  ∃ h', Clear fuel this h = Ok tt h' ∧ Clear fuel this h' = Ok tt h'.
Proof.
  intros Hpop. destruct (Clear_populated _ _ _ Hpop) as [h' Hclear].
  exists h'. split; [done|].
  pose proof (proj1 (Clear_returns _ _ _ _ Hclear)) as He.
  destruct (Clear_cleared_on _ _ _ _ Hclear) as (_ & Hb & _).
  apply Clear_of_empty; [by eapply populated_emptied|].
  intros x Hx. rewrite (leaves_emptied _ _ _ He) in Hx. by apply Hb.
Qed.

Lemma Clear_twice_witness :
  populated 2 two_diagrams 5%nat ∧
  ∃ h', Clear 2 5%nat two_diagrams = Ok tt h' ∧ Clear 2 5%nat h' = Ok tt h'.
Proof.
  assert (H : populated 2 two_diagrams 5%nat) by (vm_compute; repeat constructor).
  split; [exact H|]. exact (Clear_twice 2 two_diagrams 5%nat H).
Defined.

(** ** [SetFrom] copies *)

Lemma contents_populated (depth : nat) :
  ∀ (h : Heap) (this : addr) (t : Contents),
    contents depth h this = Some t → populated depth h this.
Proof.
  induction depth as [|depth IH]; intros h this t; [done|].
  rewrite contents_S. cbn.
  destruct (collections h !! this) as [[owned evs|subs owned]|]; [done| |done].
  intros Ht. apply fmap_Some in Ht as (ts & Hts & ->).
  apply contents_slots in Hts.
  induction Hts as [|sub t subs ts Ht _ IHs]; constructor; [|done].
  destruct sub as [p|]; [|done]. by eapply IH.
Qed.

Lemma contents_after_Clear (depth : nat) (h h' : Heap) :
  emptied h h' →
  ∀ (this : addr) (t : Contents),
    (∀ x, x ∈ leaves depth h this →
          collections h' !! x = Some (LeafEventCollection [] [])) →
    contents depth h this = Some t →
    contents depth h' this = Some (emptied_contents t).
Proof.
  intros He. induction depth as [|depth IH]; intros this t; [done|].
  rewrite !contents_S, leaves_S.
  destruct (collections h !! this) as [[owned evs|subs owned]|] eqn:Hthis; [| |done].
  - intros Hempty Ht. rewrite (Hempty this) by left.
    by apply fmap_Some in Ht as (A & _ & ->).
  - intros Hempty Ht. rewrite (emptied_diagram _ _ _ _ _ He Hthis).
    apply fmap_Some in Ht as (ts & Hts & ->). apply fmap_Some. eexists.
    split; [|done]. apply contents_slots in Hts. apply contents_slots.
    clear Hthis. induction Hts as [|sub t subs ts Ht _ IHs]; [constructor|].
    cbn. constructor.
    + destruct sub as [p|]; [|done]. cbn in *. apply IH; [|done].
      intros x Hx. apply Hempty. cbn. apply elem_of_app. by left.
    + apply IHs. intros x Hx. apply Hempty. cbn. apply elem_of_app. by right.
Qed.

Lemma contents_outside_Clear (F E : list addr) (h h' : Heap) (depth : nat) :
  cleared_on F E h h' →
  ∀ (y : addr) (t : Contents),
    contents depth h y = Some t →
    (∀ x, x ∈ leaves depth h y → x ∉ F) →
    (∀ e, e ∈ events_below depth h y → e ∉ E) →
    contents depth h' y = Some t.
Proof.
  intros (Ha & Hb & Hc & Hd). unfold events_below.
  induction depth as [|depth IH]; intros y t; [done|].
  rewrite !contents_S, leaves_S.
  destruct (collections h !! y) as [[owned evs|subs owned]|] eqn:Hy; [| |done].
  - intros Ht HF HE. rewrite Ha, Hy by (apply HF; left).
    apply fmap_Some in Ht as (A & HA & ->). apply fmap_Some. exists A.
    split; [|done]. apply mapM_Some in HA. apply mapM_Some.
    apply Forall2_same_length_lookup in HA as [Hlen HA].
    apply Forall2_same_length_lookup. split; [done|].
    intros i e ev Hi Hev. rewrite Hd; [by eapply HA|].
    apply HE. cbn. unfold leaf_events at 1. rewrite Hy, app_nil_r.
    apply list_elem_of_lookup. eauto.
  - intros Ht HF HE.
    assert (Hy' : collections h' !! y = Some (DiagramEventCollection subs owned)).
    { destruct (decide (y ∈ F)) as [Hin|Hout]; [|by rewrite Ha].
      destruct (Hb y Hin) as [(? & ? & ?) _]. congruence. }
    rewrite Hy'.
    apply fmap_Some in Ht as (ts & Hts & ->). apply fmap_Some. exists ts.
    split; [|done]. apply contents_slots in Hts. apply contents_slots.
    clear Hy Hy'. induction Hts as [|sub t subs ts Ht _ IHs]; constructor.
    + destruct sub as [p|]; [|done]. cbn in *. apply IH; [done| |].
      * intros x Hx. apply HF. apply elem_of_app. by left.
      * intros e He. apply HE. rewrite bind_app. apply elem_of_app. by left.
    + apply IHs.
      * intros x Hx. apply HF. cbn. apply elem_of_app. by right.
      * intros e He. apply HE. cbn. rewrite bind_app. apply elem_of_app. by right.
Qed.

Lemma merge_spec_emptied (t : Contents) :
  ∀ u r, merge_spec t u = Some r → merge_spec (emptied_contents t) u = Some u.
Proof.
  induction t as [A|ts IH] using Contents_nested_ind; intros u r Hm.
  - by apply merge_spec_leaf_inv in Hm as (B & -> & ->).
  - apply merge_spec_diagram_inv in Hm as (us & rs & -> & -> & Hm). cbn.
    apply fmap_Some. exists us. split; [|done]. apply Forall3_zip_mapM.
    induction Hm as [|t u r ts us rs Hr _ IHm]; [constructor|].
    apply Forall_cons in IH as [Ht IH]. cbn. constructor; [by eapply Ht | by apply IHm].
Qed.

Lemma int_sized_emptied (h h' : Heap) : emptied h h' → int_sized h → int_sized h'.
Proof.
  intros He Hint x [owned evs|subs owned] Hx; [done|]. cbn.
  eapply int_sized_lookup; [exact Hint|]. by eapply emptied_diagram_inv.
Qed.

(** X12: [SetFrom] makes [this] hold a copy of what [other] holds, whatever
    [this] held before, and leaves [other] as it is: for two hierarchies of
    the same shape, where [this] shares no leaf with [other] and owns none of
    the events [other] points at, the call returns and the contents of both
    are the contents [other] had. *)
Theorem SetFrom_copies (fuel : nat) (h : Heap) (this other : addr)
    (t u r : Contents) :
  int_sized h →
  contents fuel h this = Some t →
  contents fuel h other = Some u →
  merge_spec t u = Some r →
  NoDup (leaves fuel h this) →
  (∀ x, x ∈ leaves fuel h this → x ∉ leaves fuel h other) →
  (∀ e, e ∈ events_below fuel h other → e ∉ owned_below fuel h this) →
  ∃ h',
    SetFrom fuel this other h = Ok tt h' ∧
    contents fuel h' this = Some u ∧
    contents fuel h' other = Some u.
Proof.
  intros Hint Ht Hu Hm Hnd Hdisj Hev.
  destruct (Clear_populated fuel this h) as [h1 Hclear];
    [by eapply contents_populated|].
  pose proof (proj1 (Clear_returns _ _ _ _ Hclear)) as He.
  pose proof (Clear_cleared_on _ _ _ _ Hclear) as Hc.
  assert (Ht1 : contents fuel h1 this = Some (emptied_contents t)).
  { apply (contents_after_Clear fuel h h1 He); [|done].
    intros x Hx. by apply Hc. }
  assert (Hu1 : contents fuel h1 other = Some u).
  { eapply contents_outside_Clear; [exact Hc | exact Hu | |done].
    intros x Hx Hx'. by apply (Hdisj x). }
  destruct (AddToEnd_merges fuel h1 this other (emptied_contents t) u u)
    as (h' & Hrun & Hr & Hu'); try done.
  - by eapply int_sized_emptied.
  - by eapply merge_spec_emptied.
  - by rewrite (leaves_emptied _ _ _ He).
  - rewrite !(leaves_emptied _ _ _ He). exact Hdisj.
  - exists h'. unfold SetFrom, bind. rewrite Hclear. done.
Qed.

Lemma SetFrom_copies_witness :
  ∃ h',
    SetFrom 2 4%nat 5%nat two_diagrams = Ok tt h' ∧
    contents 2 h' 4%nat = contents 2 two_diagrams 5%nat ∧
    contents 2 h' 5%nat = contents 2 two_diagrams 5%nat.
Proof.
  assert (E4 : leaves 2 two_diagrams 4%nat = [0%nat; 1%nat])
    by (vm_compute; reflexivity).
  assert (E5 : leaves 2 two_diagrams 5%nat = [2%nat; 3%nat])
    by (vm_compute; reflexivity).
  assert (O4 : owned_below 2 two_diagrams 4%nat = [0%nat; 1%nat])
    by (vm_compute; reflexivity).
  assert (V5 : events_below 2 two_diagrams 5%nat = [2%nat; 3%nat])
    by (vm_compute; reflexivity).
  edestruct (SetFrom_copies 2 two_diagrams 4%nat 5%nat) as (h' & Hrun & H4 & H5).
  - apply (bool_decide_unpack _). vm_compute. reflexivity.
  - vm_compute. reflexivity.
  - vm_compute. reflexivity.
  - vm_compute. reflexivity.
  - rewrite E4. apply (bool_decide_unpack _). vm_compute. reflexivity.
  - rewrite E4, E5. apply Forall_forall.
    apply (bool_decide_unpack _). vm_compute. reflexivity.
  - rewrite O4, V5. apply Forall_forall.
    apply (bool_decide_unpack _). vm_compute. reflexivity.
  - exists h'. split; [exact Hrun|]. split; [rewrite H4 | rewrite H5];
      vm_compute; reflexivity.
Defined.

(** ** Leaf bundles *)

(** X13: a leaf bundle as constructed is new, has three new, empty leaf
    collections and reports no events; and on any bundle whose collection of
    kind [k] is a leaf, [add_publish_event] and its siblings return for
    every non-null event, append it to that collection, which then reports
    events, and leave the heaps of the other two kinds and the bundles
    alone. *)
Theorem leaf_bundle_accepts_events :
  (∀ s : Store,
     ∃ this c s',
       LeafCompositeEventCollection_ctor s = Ok this s' ∧
       composites s !! this = None ∧
       composites s' = <[this := c]> (composites s) ∧
       derived_class c = LeafCompositeEventCollection ∧
       (∀ k, collections (heap_of k s) !! events_member k c = None ∧
             collections (heap_of k s')
               = <[events_member k c := LeafEventCollection [] []]>
                   (collections (heap_of k s)) ∧
             event_objs (heap_of k s') = event_objs (heap_of k s)) ∧
       Composite_HasEvents 1 this s' = Ok false s') ∧
  (∀ (k : EventKind) (s : Store) (this : addr) c owned evs (e : addr),
     composites s !! this = Some c →
     collections (heap_of k s) !! events_member k c
       = Some (LeafEventCollection owned evs) →
     ∃ s',
       add_event_of_kind k this (Some e) s = Ok tt s' ∧
       collections (heap_of k s') !! events_member k c
         = Some (LeafEventCollection (owned ++ [e]) (evs ++ [e])) ∧
       has_events_of_kind k 1 this s' = Ok true s' ∧
       (let* events := Leaf_get_events_of_kind k this in
        on_heap k (get_events events)) s' = Ok (evs ++ [e]) s' ∧
       composites s' = composites s ∧
       (∀ k', k' ≠ k → heap_of k' s' = heap_of k' s)).
Proof.
  split.
  - intros s.
    set (p := fresh (dom (collections (publish_heap s)))).
    set (d := fresh (dom (collections (discrete_update_heap s)))).
    set (u := fresh (dom (collections (unrestricted_update_heap s)))).
    set (this := fresh (dom (composites s))).
    exists this, (mkComposite p d u LeafCompositeEventCollection).
    eexists. split; [reflexivity|]. cbn.
    split; [apply not_elem_of_dom, is_fresh|]. split; [done|]. split; [done|].
    split.
    + intros []; cbn; (split; [apply not_elem_of_dom, is_fresh | done]).
    + eapply Composite_HasEvents_false; [cbn; apply lookup_insert_eq|].
      intros []; rewrite HasEvents_S; cbn; by rewrite lookup_insert_eq.
  - intros k s this c owned evs e Hc Hleaf.
    set (h' := set_collection (events_member k c)
                 (LeafEventCollection (owned ++ [e]) (evs ++ [e])) (heap_of k s)).
    assert (Hcell : collections h' !! events_member k c
              = Some (LeafEventCollection (owned ++ [e]) (evs ++ [e])))
      by (unfold h'; cbn; by rewrite lookup_insert_eq).
    exists (set_heap k h' s).
    split; [|split; [|split; [|split; [|split]]]].
    + unfold add_event_of_kind, get_events_of_kind, composite_at, bind, ret,
        DRAKE_DEMAND, on_heap. cbn. rewrite Hc. cbn. rewrite Hleaf.
      unfold add_event. by rewrite Hleaf.
    + by rewrite heap_of_set_heap.
    + unfold has_events_of_kind, composite_at, bind.
      rewrite composites_set_heap, Hc. apply on_heap_const.
      rewrite heap_of_set_heap, HasEvents_S, Hcell. by destruct evs.
    + unfold Leaf_get_events_of_kind, get_events_of_kind, composite_at, bind, ret.
      rewrite composites_set_heap, Hc.
      rewrite (on_heap_const k _ (set_heap k h' s) (events_member k c))
        by (by rewrite heap_of_set_heap, Hcell).
      apply on_heap_const. unfold get_events.
      by rewrite heap_of_set_heap, Hcell.
    + apply composites_set_heap.
    + intros k' Hk'. by apply heap_of_set_heap_ne.
Qed.

Lemma leaf_bundle_accepts_events_witness :
  ∃ s',
    add_discrete_update_event 0%nat (Some 0%nat)
      (store_after (on_heap DiscreteUpdateEvent (new_event (Event_ctor kForced)))
         two_leaf_bundles) = Ok tt s' ∧
    HasDiscreteUpdateEvents 1 0%nat s' = Ok true s'.
Proof.
  edestruct (proj2 leaf_bundle_accepts_events DiscreteUpdateEvent
               (store_after (on_heap DiscreteUpdateEvent (new_event (Event_ctor kForced)))
                  two_leaf_bundles) 0%nat)
    as (s' & Hrun & _ & Hhas & _).
  - vm_compute. reflexivity.
  - vm_compute. reflexivity.
  - exists s'. split; [exact Hrun | exact Hhas].
Defined.

(** ** Diagram bundles *)

Lemma has_events_of_kind_inv (k : EventKind) (fuel : nat) (this : addr)
    (s s' : Store) (b : bool) :
  has_events_of_kind k fuel this s = Ok b s' →
  ∃ c, composites s !! this = Some c ∧
       HasEvents fuel (events_member k c) (heap_of k s) = Ok b (heap_of k s).
Proof.
  unfold has_events_of_kind, composite_at, bind, on_heap.
  destruct (composites s !! this) as [c|]; [|done].
  destruct (HasEvents fuel (events_member k c) (heap_of k s)) as [b' h'| | | |] eqn:Hh;
    try done.
  intros [= -> _]. exists c. split; [done|].
  by rewrite (HasEvents_const _ _ _ _ _ Hh) in Hh.
Qed.

(** X14: the two views of a diagram bundle agree on its size and its
    children.  For the bundle the constructor makes over [N] child bundles,
    [num_subsystems()] of the bundle and of each of its three diagram
    collections is [N], [get_subevent_collection(i)] is child bundle [i] for
    every [i] in range, and aborts for every index out of range. *)
Theorem diagram_bundle_children (fuel : nat) (children : list addr) (s : Store) :
  Z.of_nat (length children) < 2 ^ 31 →
  Forall (λ b, is_Some (composites s !! b)) children →
  ∃ this s',
    DiagramCompositeEventCollection_ctor fuel (Some <$> children) s = Ok this s' ∧
    Composite_num_subsystems this s' = Ok (Z.of_nat (length children)) s' ∧
    (∀ k, (let* sub := get_events_of_kind k this in
           on_heap k (num_subsystems sub)) s'
          = Ok (Z.of_nat (length children)) s') ∧
    (∀ (i : nat) child,
       children !! i = Some child →
       Composite_get_subevent_collection this (Z.of_nat i) s' = Ok child s' ∧
       Composite_get_mutable_subevent_collection this (Z.of_nat i) s' = Ok child s') ∧
    (∀ index, ¬ (0 ≤ index < Z.of_nat (length children)) →
       Composite_get_subevent_collection this index s' = Abort s').
Proof.
  intros Hlen Hlive.
  pose proof (DiagramCompositeEventCollection_ctor_ok fuel children s Hlen Hlive)
    as Hctor. cbn zeta in Hctor.
  set (this := fresh (dom (composites s))) in *.
  set (c := mkComposite _ _ _ _) in *.
  set (s' := with_diagram_bundle _ _ _ _ _) in *.
  assert (Hthis' : composites s' !! this = Some c)
    by (unfold s'; cbn; by rewrite lookup_insert_eq).
  assert (Hcell : ∀ k, collections (heap_of k s') !! events_member k c
            = Some (DiagramEventCollection (aliased_slots s children 0 k)
                      (replicate (length children) None))).
  { intros k. unfold s'. rewrite with_diagram_bundle_heap. cbn.
    by rewrite lookup_insert_eq. }
  assert (Hslots : ∀ k, length (aliased_slots s children 0 k) = length children).
  { intros k. unfold aliased_slots. cbn.
    by rewrite length_app, length_fmap, Nat.add_0_r. }
  clearbody s'.
  assert (Hnum : Composite_num_subsystems this s'
                 = Ok (Z.of_nat (length children)) s').
  { unfold Composite_num_subsystems, composite_at, bind, ret. rewrite Hthis'.
    cbn [derived_class c]. by rewrite length_fmap, static_cast_int_small by lia. }
  exists this, s'. split; [exact Hctor|]. split; [exact Hnum|].
  split; [|split].
  - intros k. unfold get_events_of_kind, composite_at, bind, ret. rewrite Hthis'.
    apply on_heap_const. unfold num_subsystems.
    by rewrite Hcell, Hslots, static_cast_int_small by lia.
  - intros i child Hi. pose proof (lookup_lt_Some _ _ _ Hi).
    assert (Hget : Composite_get_subevent_collection this (Z.of_nat i) s'
                   = Ok child s').
    { unfold Composite_get_subevent_collection, bind. rewrite Hnum.
      unfold DRAKE_DEMAND. rewrite !bool_decide_eq_true_2 by lia. cbn.
      unfold composite_at. rewrite Hthis'. cbn [derived_class c].
      by rewrite Nat2Z.id, list_lookup_fmap, Hi. }
    by split.
  - intros index Hout.
    unfold Composite_get_subevent_collection, bind. rewrite Hnum.
    unfold DRAKE_DEMAND.
    assert (bool_decide (0 ≤ index) && bool_decide (index < Z.of_nat (length children))
            = false) as ->; [|done].
    apply andb_false_iff. destruct (decide (0 ≤ index)).
    + right. apply bool_decide_eq_false_2. lia.
    + left. by apply bool_decide_eq_false_2.
Qed.

Lemma diagram_bundle_children_witness :
  ∃ this s',
    DiagramCompositeEventCollection_ctor 1 [Some 0%nat; Some 1%nat] two_leaf_bundles
      = Ok this s' ∧
    Composite_num_subsystems this s' = Ok 2 s' ∧
    Composite_get_subevent_collection this 1 s' = Ok 1%nat s' ∧
    Composite_get_subevent_collection this 2 s' = Abort s'.
Proof.
  destruct (diagram_bundle_children 1 [0%nat; 1%nat] two_leaf_bundles)
    as (this & s' & Hctor & Hnum & _ & Hget & Hout).
  - cbn. lia.
  - repeat constructor; vm_compute; eauto.
  - exists this, s'. split; [exact Hctor|]. split; [exact Hnum|]. split.
    + apply (Hget 1%nat 1%nat). reflexivity.
    + apply Hout. cbn. lia.
Defined.

(** X15: a diagram bundle has events of a kind exactly when one of its child
    bundles has: for the bundle the constructor makes, [HasPublishEvents]
    and its siblings report the disjunction of what they report for the
    children. *)
Theorem diagram_bundle_has_events_of_children (fuel fuel' : nat) (k : EventKind)
    (children : list addr) (bs : list bool) (s : Store) :
  Z.of_nat (length children) < 2 ^ 31 →
  Forall2 (λ child b, has_events_of_kind k fuel' child s = Ok b s) children bs →
  ∃ this s',
    DiagramCompositeEventCollection_ctor fuel (Some <$> children) s = Ok this s' ∧
    Forall2 (λ child b, has_events_of_kind k fuel' child s' = Ok b s') children bs ∧
    has_events_of_kind k (S fuel') this s' = Ok (foldr orb false bs) s'.
Proof.
  intros Hlen Hbs.
  assert (Hlive : Forall (λ b, is_Some (composites s !! b)) children).
  { eapply Forall2_Forall_l; [exact Hbs|]. apply Forall_true.
    intros child b Hb. apply has_events_of_kind_inv in Hb as (cc & Hcc & _). eauto. }
  pose proof (DiagramCompositeEventCollection_ctor_ok fuel children s Hlen Hlive)
    as Hctor. cbn zeta in Hctor.
  set (this := fresh (dom (composites s))) in *.
  set (c := mkComposite _ _ _ _) in *.
  set (s' := with_diagram_bundle _ _ _ _ _) in *.
  assert (Hfresh : composites s !! this = None) by apply not_elem_of_dom, is_fresh.
  assert (Hfreshk : collections (heap_of k s) !! events_member k c = None)
    by (destruct k; apply not_elem_of_dom, is_fresh).
  assert (Hthis' : composites s' !! this = Some c)
    by (unfold s'; cbn; by rewrite lookup_insert_eq).
  assert (Hcomps : ∀ child, child ≠ this →
            composites s' !! child = composites s !! child)
    by (intros child Hne; unfold s'; cbn; by rewrite lookup_insert_ne).
  assert (Hheap : heap_of k s'
            = set_collection (events_member k c)
                (DiagramEventCollection
                   (Some <$> (slot_target s k <$> children))
                   (replicate (length children) None)) (heap_of k s)).
  { unfold s'. rewrite with_diagram_bundle_heap. unfold aliased_slots. cbn.
    by rewrite app_nil_r, <- list_fmap_compose. }
  clearbody s'.
  assert (Hchildren : Forall2 (λ child b,
            HasEvents fuel' (slot_target s k child) (heap_of k s') = Ok b (heap_of k s') ∧
            has_events_of_kind k fuel' child s' = Ok b s') children bs).
  { eapply Forall2_impl; [exact Hbs|]. intros child b Hb.
    apply has_events_of_kind_inv in Hb as (cc & Hcc & Hb).
    assert (Hb' : HasEvents fuel' (events_member k cc) (heap_of k s')
                  = Ok b (heap_of k s')).
    { eapply HasEvents_weaken; [|exact Hb]. rewrite Hheap. cbn.
      by apply insert_subseteq. }
    split; [unfold slot_target; by rewrite Hcc|].
    unfold has_events_of_kind, composite_at, bind.
    rewrite Hcomps, Hcc by congruence. by apply on_heap_const. }
  exists this, s'. split; [exact Hctor|]. split.
  - eapply Forall2_impl; [exact Hchildren|]. by intros ?? [_ ?].
  - unfold has_events_of_kind, composite_at, bind. rewrite Hthis'.
    apply on_heap_const.
    eapply HasEvents_diagram.
    + rewrite Hheap. cbn. by rewrite lookup_insert_eq.
    + apply Forall2_fmap_l. eapply Forall2_impl; [exact Hchildren|].
      by intros ?? [? _].
Qed.

Lemma diagram_bundle_has_events_of_children_witness :
  ∃ this s',
    DiagramCompositeEventCollection_ctor 1 [Some 0%nat; Some 1%nat] two_leaf_bundles
      = Ok this s' ∧
    HasPublishEvents 2 this s' = Ok true s'.
Proof.
  destruct (diagram_bundle_has_events_of_children 1 1 PublishEvent [0%nat; 1%nat]
              [true; false] two_leaf_bundles)
    as (this & s' & Hctor & _ & Hhas).
  - cbn. lia.
  - repeat constructor; vm_compute; reflexivity.
  - exists this, s'. split; [exact Hctor | exact Hhas].
Defined.

(** X16: the constructor of a diagram bundle does not check its children: a
    null child bundle is dereferenced in the loop, and the constructor
    cannot return. *)
Theorem diagram_bundle_of_null_child (fuel : nat) (subevents : list (option addr))
    (s : Store) :
  None ∈ subevents →
  ¬ returns (DiagramCompositeEventCollection_ctor fuel subevents s).
Proof.
  intros Hnull. unfold DiagramCompositeEventCollection_ctor.
  destruct (vector_size_of_int _) as [n|].
  - unfold bind at 1. destruct (on_heap PublishEvent _ s) as [p s1| | | |];
      try by intros (? & ? & ?).
    unfold bind at 1. destruct (on_heap DiscreteUpdateEvent _ s1) as [d s2| | | |];
      try by intros (? & ? & ?).
    unfold bind at 1. destruct (on_heap UnrestrictedUpdateEvent _ s2) as [u s3| | | |];
      try by intros (? & ? & ?).
    unfold bind at 1.
    destruct (CompositeEventCollection_ctor _ _ _ _ s3) as [this s4| | | |];
      try by intros (? & ? & ?).
    unfold bind at 1.
    apply list_elem_of_lookup in Hnull as [i Hi].
    pose proof (for_each_not_returns (imap pair subevents)
      (λ '(i, child),
         alias_slot PublishEvent this i child ;;;
         alias_slot DiscreteUpdateEvent this i child ;;;
         alias_slot UnrestrictedUpdateEvent this i child) (i, None)) as Hloop.
    destruct (for_each _ _ s4) as [[] s5| | | |] eqn:Hrun;
      try by intros (? & ? & ?).
    exfalso. apply (Hloop) with s4.
    + apply list_elem_of_lookup. exists i. by rewrite list_lookup_imap, Hi.
    + intros s0.
      cbv beta iota delta [bind alias_slot get_events_of_kind composite_at ret undefined].
      destruct (composites s0 !! this); by intros (? & ? & ?).
    + rewrite Hrun. by eexists _, _.
  - unfold bind, throw.
    destruct (for_each _ _ s); by intros (? & ? & ?).
Qed.

Lemma diagram_bundle_of_null_child_witness :
  None ∈ [Some 0%nat; None] ∧
  ¬ returns (DiagramCompositeEventCollection_ctor 1 [Some 0%nat; None]
               two_leaf_bundles).
Proof.
  assert (Hnull : None ∈ [Some 0%nat; None])
    by (apply list_elem_of_lookup; exists 1%nat; reflexivity).
  split; [exact Hnull|].
  exact (diagram_bundle_of_null_child 1 [Some 0%nat; None] two_leaf_bundles Hnull).
Defined.
